(** * Aurelia validation: rule provider

    A shallow embedding of the validation rule engine of Aurelia
    (the file that defines [validationRulesRegistrar], [PropertyRule],
    [ValidationRules], [parsePropertyName], [ValidationResult] and
    [ValidationMessageProvider]) together with the properties its
    specification states about it.

    Conventions of the embedding.
    - A JavaScript string is a [string]: a sequence of 8-bit code units.
      The functions below are total on every code unit, and they agree with
      JavaScript on ASCII text; letters outside ASCII are treated as
      characters that are neither upper-case, lower-case nor white space.
    - An object with identity (an array of property rules, a [PropertyRule],
      a rule, a validation target) is a location in a store; two references
      are the same object when the locations are equal ([Object.is]).
    - A call that can [throw] returns a [Completion]. *)

From Stdlib Require Import Ascii String ZArith DecimalString.
From stdpp Require Import gmap strings list.

Open Scope string_scope.
Open Scope list_scope.
Open Scope nat_scope.

(** ** Completions: a value, or a thrown [Error] with its message *)

Inductive Completion (A : Type) : Type :=
| Normal (value : A)
| Throw (message : string).
Arguments Normal {A} value.
Arguments Throw {A} message.

Definition isThrow {A} (c : Completion A) : bool :=
  match c with Throw _ => true | Normal _ => false end.

(** ** The parts of [String.prototype] the source calls *)

Module JsString.

Definition isUpperAZ (c : ascii) : bool :=
  (Ascii.leb "A" c && Ascii.leb c "Z")%char.

Definition isLowerAZ (c : ascii) : bool :=
  (Ascii.leb "a" c && Ascii.leb c "z")%char.

Definition isDigit (c : ascii) : bool :=
  (Ascii.leb "0" c && Ascii.leb c "9")%char.

(** [c.toUpperCase()] for one code unit of an ASCII text. Beyond ASCII
    [toUpperCase] follows the Unicode case mapping, which the model leaves
    out: it is [toUpperCase] on the texts of [isAsciiText] only. *)
Definition upperChar (c : ascii) : ascii :=
  if isLowerAZ c then ascii_of_nat (nat_of_ascii c - 32) else c.

(** [s.toUpperCase()] *)
Fixpoint toUpperCase (s : string) : string :=
  match s with
  | EmptyString => EmptyString
  | String c s' => String (upperChar c) (toUpperCase s')
  end.

(** [s.charAt(0)]: the first code unit as a string, or the empty string. *)
Definition charAt0 (s : string) : string :=
  match s with
  | EmptyString => EmptyString
  | String c _ => String c EmptyString
  end.

(** [s.slice(1)] and [s.substring(1)]: everything after the first code unit. *)
Definition slice1 (s : string) : string :=
  match s with
  | EmptyString => EmptyString
  | String _ s' => s'
  end.

(** [key.startsWith(p)] *)
Definition startsWith (s p : string) : bool := String.prefix p s.

Fixpoint reverse (s : string) : string :=
  match s with
  | EmptyString => EmptyString
  | String c s' => reverse s' +:+ String c EmptyString
  end.

(** [key.endsWith(p)]: [p] read backwards begins [key] read backwards. *)
Definition endsWith (s p : string) : bool :=
  String.prefix (reverse p) (reverse s).

(** [S.split(/(?=[A-Z])/)].

    The splitter is a zero-width look-ahead, so in the loop of
    [RegExp.prototype[@@split]] a match at index [q] ends at [e = q].
    With [p] the start of the piece being read, the loop does:
    no match at [q], or [e = p]: advance [q];
    otherwise: push [S[p..q)], set [p := q] and look at [q] again, where
    the match now has [e = p], so [q] advances.
    When [q] reaches the end, [S[p..size)] is pushed.
    Below [piece] is [S[p..q)] and [rest] is [S[q..size)]; [e = p] is
    [piece] being empty. For the empty string the look-ahead fails and the
    result is the one-element array holding it, which is also what the loop
    gives. *)
Fixpoint splitLoop (piece rest : string) : list string :=
  match rest with
  | EmptyString => [piece]
  | String c rest' =>
      if isUpperAZ c && negb (String.eqb piece EmptyString)
      then piece :: splitLoop (String c EmptyString) rest'
      else splitLoop (piece +:+ String c EmptyString) rest'
  end.

Definition splitBeforeUpper (S : string) : list string := splitLoop EmptyString S.

(** [pieces.join(' ')] *)
Definition join (sep : string) (pieces : list string) : string :=
  String.concat sep pieces.

(** [String(n)] for an integer number that [Number.isSafeInteger] accepts:
    such a number is written with all its digits. A number of 1e21 or more
    is written with an exponent, which the model leaves out. *)
Definition ofZ (n : Z) : string := NilZero.string_of_int (Z.to_int n).

End JsString.



(** ** Display names *)

(** A property name is a string or a number ([string | number]); numbers are
    the integers here, and the model is the source's on the safe ones. *)
Inductive PropertyName : Type :=
| NameString (s : string)
| NameNumber (n : Z).

Definition PropertyName_toString (p : PropertyName) : string :=
  match p with
  | NameString s => s
  | NameNumber n => JsString.ofZ n
  end.

(** [string | ValidationDisplayNameAccessor]: a literal, or a function called
    with no argument. *)
Inductive DisplayName : Type :=
| DisplayString (s : string)
| DisplayAccessor (f : unit -> string).

(** [ValidationMessageProvider.getDisplayName(propertyName, displayName)];
    [None] is [null] or [undefined]. *)
Definition getDisplayName (propertyName : PropertyName) (displayName : option DisplayName) : string :=
  match displayName with
  | Some (DisplayAccessor f) => f tt
  | Some (DisplayString s) => s
  | None =>
      let words := JsString.join " " (JsString.splitBeforeUpper (PropertyName_toString propertyName)) in
      JsString.toUpperCase (JsString.charAt0 words) +:+ JsString.slice1 words
  end.



(** ** Regular expressions

    A backtracking matcher for the fragment of JavaScript regular
    expressions the two accessor patterns of [parsePropertyName] use:
    character classes, sequence, ordered alternation, the greedy
    quantifiers and one capture group. Alternatives are tried left to right
    and a quantifier takes as many iterations as it can before it gives
    back, as [RegExp.prototype.exec] does; the continuation [k] is the rest
    of the pattern. In the comments that quote a pattern of the source the
    double-quote character is written [\x22]. *)

Module Regex.

Inductive regex : Type :=
| Empty
| Class (p : ascii -> bool)
| Seq (r1 r2 : regex)
| Alt (r1 r2 : regex)
| Star (r : regex)
| Group1 (r : regex).

Definition Plus (r : regex) : regex := Seq r (Star r).
Definition Opt (r : regex) : regex := Alt r Empty.
Definition Chr (c : ascii) : regex := Class (Ascii.eqb c).

Fixpoint Lit (s : string) : regex :=
  match s with
  | EmptyString => Empty
  | String c s' => Seq (Chr c) (Lit s')
  end.

Fixpoint seqs (rs : list regex) : regex :=
  match rs with
  | [] => Empty
  | r :: rs' => Seq r (seqs rs')
  end.

Section Matcher.
Context {R : Type}.

(** [run r s cap k]: match [r] at the front of [s]; [cap] is capture
    group 1 so far. An iteration of [Star] that consumes nothing is
    refused, so the number of iterations is at most the length of the
    input, which is the fuel of the loop. *)
Fixpoint run (r : regex) (s : list ascii) (cap : option (list ascii))
    (k : list ascii -> option (list ascii) -> option R) : option R :=
  match r with
  | Empty => k s cap
  | Class p =>
      match s with
      | c :: s' => if p c then k s' cap else None
      | [] => None
      end
  | Seq r1 r2 => run r1 s cap (fun s' cap' => run r2 s' cap' k)
  | Alt r1 r2 =>
      match run r1 s cap k with
      | Some x => Some x
      | None => run r2 s cap k
      end
  | Star r1 =>
      (fix loop (fuel : nat) (s : list ascii) (cap : option (list ascii)) : option R :=
         match fuel with
         | O => k s cap
         | S fuel' =>
             match run r1 s cap (fun s' cap' =>
                     if (List.length s' <? List.length s)%nat then loop fuel' s' cap' else None) with
             | Some x => Some x
             | None => k s cap
             end
         end) (List.length s) s cap
  | Group1 r1 =>
      run r1 s cap (fun s' _ => k s' (Some (take (List.length s - List.length s') s)))
  end.
End Matcher.

(** [/^r$/.exec(text)]: [None] is [null]; otherwise the text of capture
    group 1 ([None] when the group took no part in the match). *)
Definition exec (r : regex) (text : string) : option (option string) :=
  run r (list_ascii_of_string text) None
    (fun s' cap =>
       match s' with
       | [] => Some (string_of_list_ascii <$> cap)
       | _ :: _ => None
       end).

(** [\s] *)
Definition space (c : ascii) : bool :=
  let n := nat_of_ascii c in
  ((9 <=? n) && (n <=? 13) || (n =? 32))%nat.

(** [\w]; [\d] is included in it. *)
Definition word (c : ascii) : bool :=
  JsString.isUpperAZ c || JsString.isLowerAZ c || JsString.isDigit c || Ascii.eqb c "_".

Definition dquote : ascii := "034".
Definition squote : ascii := "039".

(** [[$_\w\d]] *)
Definition ident (c : ascii) : bool := Ascii.eqb c "$" || word c.

(** [[\x22']] *)
Definition quote (c : ascii) : bool := Ascii.eqb c dquote || Ascii.eqb c squote.

(** [[$_\w\d.['\x22\]+;]] *)
Definition statementChar (c : ascii) : bool :=
  ident c || Ascii.eqb c "." || Ascii.eqb c "[" || quote c
  || Ascii.eqb c "]" || Ascii.eqb c "+" || Ascii.eqb c ";".

(** [['\x22$_\w\d]] *)
Definition indexChar (c : ascii) : bool := quote c || ident c.

(** [((\.[$_\w\d]+|\[['\x22$_\w\d]+\])+)]: the chain of member and index
    accesses, capture group 1. The inner group of the source also
    captures, as group 2, which the source does not read. *)
Definition accessChain : regex :=
  Group1 (Plus (Alt (Seq (Chr ".") (Plus (Class ident)))
                    (seqs [Chr "["; Plus (Class indexChar); Chr "]"]))).

(** [/^function\s*\([$_\w\d]+\)\s*\{(?:\s*[\x22']{1}use strict[\x22']{1};)?\s*(?:[$_\w\d.['\x22\]+;]+)?\s*return\s+[$_\w\d]+((\.[$_\w\d]+|\[['\x22$_\w\d]+\])+)\s*;?\s*\}$/] *)
Definition classic : regex :=
  seqs [ Lit "function"; Star (Class space);
         Chr "("; Plus (Class ident); Chr ")"; Star (Class space);
         Chr "{";
         Opt (seqs [Star (Class space); Class quote; Lit "use strict"; Class quote; Chr ";"]);
         Star (Class space);
         Opt (Plus (Class statementChar));
         Star (Class space);
         Lit "return"; Plus (Class space); Plus (Class ident);
         accessChain;
         Star (Class space); Opt (Chr ";"); Star (Class space); Chr "}" ].

(** [/^\(?[$_\w\d]+\)?\s*=>\s*[$_\w\d]+((\.[$_\w\d]+|\[['\x22$_\w\d]+\])+)$/] *)
Definition arrow : regex :=
  seqs [ Opt (Chr "("); Plus (Class ident); Opt (Chr ")");
         Star (Class space); Lit "=>"; Star (Class space);
         Plus (Class ident);
         accessChain ].

End Regex.

(** ** The expression facade

    The expression parser and the syntax trees come from the runtime
    package; the rule provider receives the parser as a collaborator. *)

(** Modelled from the spec: the syntax trees of the runtime package, as far
    as the rule provider reads them. It reads three things off a tree:
    whether it is an [AccessThisExpression], its [name] and its [ancestor].
    [AccessMemberExpression] is a member access [object.name]: the node
    has a [name] and no [ancestor], whatever its object refers to.
    [OtherExpression] stands for every other kind of node, with those two
    fields as the node has them ([None] is [undefined]). *)
Inductive IsBindingBehavior : Type :=
| AccessThisExpression (ancestor : nat)
| AccessScopeExpression (name : string) (ancestor : nat)
| AccessMemberExpression (object : IsBindingBehavior) (name : string)
| OtherExpression (name : option string) (ancestor : option nat).

(** Modelled from the spec: the [Interpolation] node of the runtime
    package, the literal parts of a template and the sub-expressions
    between them. *)
Record Interpolation : Type := {
  parts : list string;
  expressions : list IsBindingBehavior
}.

(** [IInterpolationExpression | PrimitiveLiteralExpression] *)
Inductive MessageExpression : Type :=
| MessageInterpolation (i : Interpolation)
| PrimitiveLiteralExpression (value : string).

(** Modelled from the spec: [IExpressionParser] of the runtime package,
    [parse(text, BindingType.None)] and
    [parse(text, BindingType.Interpolation)]. Both can throw; the second
    gives [None] when the result is not an instance of [Interpolation]. *)
Record IExpressionParser : Type := {
  parseProperty : string -> Completion IsBindingBehavior;
  parseInterpolation : string -> Completion (option Interpolation)
}.

(** ** [parsePropertyName] *)

(** The argument of [ensure], by [typeof]: a string, a function (seen
    through [property.toString()], its source text), a number, or anything
    else (seen through the text the template literal of the error message
    turns it into). *)
Inductive PropertyArg : Type :=
| ArgString (s : string)
| ArgFunction (source : string)
| ArgNumber (n : Z)
| ArgOther (text : string).

Definition newline : string := String "010" EmptyString.

Definition accessorError (source : string) : string :=
  "Unable to parse accessor function:" +:+ newline +:+ source.

(** [classic.exec(fn) ?? arrow.exec(fn)] *)
Definition matchAccessor (fn : string) : option (option string) :=
  match Regex.exec Regex.classic fn with
  | Some m => Some m
  | None => Regex.exec Regex.arrow fn
  end.

(** The first component of the result: the property name. *)
Definition resolvePropertyName (property : PropertyArg) : Completion string :=
  match property with
  | ArgString s => Normal s
  | ArgFunction fn =>
      match matchAccessor fn with
      | None => Throw (accessorError fn)
      | Some None => Throw "TypeError: Cannot read properties of undefined"
      | Some (Some group1) => Normal (JsString.slice1 group1)
      end
  | ArgNumber n => Throw (accessorError (JsString.ofZ n))
  | ArgOther text => Throw (accessorError text)
  end.

Definition parsePropertyName (property : PropertyArg) (parser : IExpressionParser)
  : Completion (string * IsBindingBehavior) :=
  match resolvePropertyName property with
  | Throw e => Throw e
  | Normal name =>
      match parseProperty parser name with
      | Throw e => Throw e
      | Normal expression => Normal (name, expression)
      end
  end.

(** ** A small expression parser and evaluator

    The expression parser and the evaluation of a compiled expression
    belong to the runtime package, outside the module verified here. The
    specification describes them at their interface: [parse] compiles a
    property path or an interpolation-capable template and exposes, for an
    interpolation, its sub-expressions with their name and ancestor depth;
    [evaluate] computes a compiled expression against the scope that
    [validate] synthesizes. The model covers the expressions the examples
    use: [$this], [$parent], and a path of identifiers [a.b.c] after any
    number of [$parent.] prefixes. Any other expression text is kept as an
    opaque node. The theorems about [parseMessage] and [parsePropertyName] hold for
    every parser; this one runs the concrete templates. *)

Module MiniParser.

Definition identChar (c : ascii) : bool := Regex.ident c.

Fixpoint allIdent (s : string) : bool :=
  match s with
  | EmptyString => true
  | String c s' => identChar c && allIdent s'
  end.

Definition isIdentifier (s : string) : bool :=
  match s with
  | EmptyString => false
  | String c _ => negb (JsString.isDigit c) && allIdent s
  end.

(** [dropPrefix p s]: the rest of [s] after the prefix [p], if it has it. *)
Fixpoint dropPrefix (p s : string) : option string :=
  match p, s with
  | EmptyString, _ => Some s
  | String a p', String b s' => if Ascii.eqb a b then dropPrefix p' s' else None
  | String _ _, EmptyString => None
  end.

(** The names of a dotted path, [piece] being the name read so far. *)
Fixpoint splitDots (piece rest : string) : list string :=
  match rest with
  | EmptyString => [piece]
  | String "." rest' => piece :: splitDots EmptyString rest'
  | String c rest' => splitDots (piece +:+ String c EmptyString) rest'
  end.

(** Modelled from the spec: the parser of the runtime package on a path
    [a.b.c] read under [ancestor] enclosing [$parent.] prefixes. The first
    name is looked up in the scope, [ancestor] levels up, and each further
    name is a member access on what precedes it. A text that is not a path
    of identifiers is kept as an opaque node. *)
Definition parseMembers (ancestor : nat) (text : string) : IsBindingBehavior :=
  match splitDots EmptyString text with
  | first :: rest =>
      if forallb isIdentifier (first :: rest)
         && negb (String.eqb first "$this") && negb (String.eqb first "$parent")
      then foldl AccessMemberExpression (AccessScopeExpression first ancestor) rest
      else OtherExpression None None
  | [] => OtherExpression None None
  end.

(** Modelled from the spec: the parser of the runtime package on an access
    expression. The text is read under [ancestor] enclosing [$parent.]
    prefixes; the fuel bounds the number of prefixes by the length of the
    text. *)
Fixpoint parseAccess (fuel : nat) (ancestor : nat) (text : string) : IsBindingBehavior :=
  if String.eqb text "$parent" then AccessThisExpression (S ancestor)
  else if String.eqb text "$this" then AccessThisExpression ancestor
  else
    match dropPrefix "$parent." text, fuel with
    | Some rest, S fuel' => parseAccess fuel' (S ancestor) rest
    | _, _ => parseMembers ancestor text
    end.

(** Modelled from the spec: [parse(text, BindingType.None)] of the runtime
    package, on the expressions of the model. *)
Definition parseExpression (text : string) : IsBindingBehavior :=
  parseAccess (String.length text) 0 text.

(** Modelled from the spec: the parser of the runtime package reading a
    template. [scanText] reads literal text up to the next [${],
    [scanExpression] reads the expression text up to the closing brace. The
    result is the list of parts and the list of expressions; a template
    whose last interpolation is not closed does not parse. *)
Fixpoint scanText (literal : string) (s : string) {struct s}
  : option (list string * list IsBindingBehavior) :=
  match s with
  | EmptyString => Some ([literal], [])
  | String "$" (String "{" s') => scanExpression literal EmptyString s'
  | String c s' => scanText (literal +:+ String c EmptyString) s'
  end
with scanExpression (literal : string) (text : string) (s : string) {struct s}
  : option (list string * list IsBindingBehavior) :=
  match s with
  | EmptyString => None
  | String "}" s' =>
      match scanText EmptyString s' with
      | Some (ps, es) => Some (literal :: ps, parseExpression text :: es)
      | None => None
      end
  | String c s' => scanExpression literal (text +:+ String c EmptyString) s'
  end.

(** Modelled from the spec: [parse(text, BindingType.Interpolation)] of the
    runtime package; a text with no interpolation in it does not compile to
    an [Interpolation]. *)
Definition parseTemplate (message : string) : Completion (option Interpolation) :=
  match scanText EmptyString message with
  | None => Throw "Unterminated template"
  | Some (_, []) => Normal None
  | Some (ps, es) => Normal (Some {| parts := ps; expressions := es |})
  end.

(** Modelled from the spec: the expression parser the rule provider is
    given. *)
Definition parser : IExpressionParser :=
  {| parseProperty := fun text => Normal (parseExpression text);
     parseInterpolation := parseTemplate |}.

End MiniParser.

(** ** Values and scopes *)

Abbreviation loc := nat.

(** A validation target (an object or a class) by identity. *)
Abbreviation Target := nat.

(** The value under validation. *)
Inductive JsValue : Type :=
| JsUndefined
| JsNull
| JsBoolean (b : bool)
| JsNumber (n : Z)
| JsString (s : string)
| JsObject (ref : nat)
| JsFunction.

(** The conversion a template literal applies; the source text that a
    function converts to is not modelled. *)
Definition JsValue_toString (v : JsValue) : string :=
  match v with
  | JsUndefined => "undefined"
  | JsNull => "null"
  | JsBoolean true => "true"
  | JsBoolean false => "false"
  | JsNumber n => JsString.ofZ n
  | JsString s => s
  | JsObject _ => "[object Object]"
  | JsFunction => "function"
  end.

Definition JsValue_ofName (n : option PropertyName) : JsValue :=
  match n with
  | None => JsUndefined
  | Some (NameString s) => JsString s
  | Some (NameNumber z) => JsNumber z
  end.

(** The binding context [validate] passes to [Scope.create]. *)
Module Scope.
Record t : Type := {
  _object : option Target;
  _displayName : JsValue;
  _propertyName : option PropertyName;
  _value : JsValue;
  _rule : loc;
  _getDisplayName : PropertyName -> option DisplayName -> string
}.
End Scope.

Module Evaluate.

(** Modelled from the spec: [evaluate] of the runtime package on a
    sub-expression. A name is looked up in the binding context when the
    expression stays in the scope itself; the scope has no parent. The
    model is the runtime's on the names of the scope whose value is
    neither [undefined] nor [null]: for those two the runtime gives the
    empty string unless the binding strategy of the flags is strict, and
    member accesses are not evaluated. *)
Definition expression (e : IsBindingBehavior) (scope : Scope.t) : JsValue :=
  match e with
  | AccessScopeExpression name 0 =>
      if String.eqb name "$object" then
        match Scope._object scope with Some o => JsObject o | None => JsUndefined end
      else if String.eqb name "$displayName" then Scope._displayName scope
      else if String.eqb name "$propertyName" then JsValue_ofName (Scope._propertyName scope)
      else if String.eqb name "$value" then Scope._value scope
      else if String.eqb name "$rule" then JsObject (Scope._rule scope)
      else if String.eqb name "$getDisplayName" then JsFunction
      else JsUndefined
  | AccessThisExpression 0 => JsObject 0
  | _ => JsUndefined
  end.

(** Modelled from the spec: [evaluate] of the runtime package on an
    interpolation, which is its parts with the values of its expressions
    in between. *)
Fixpoint interleave (ps : list string) (es : list IsBindingBehavior) (scope : Scope.t) : string :=
  match ps, es with
  | [], _ => EmptyString
  | p :: ps', e :: es' =>
      p +:+ JsValue_toString (expression e scope) +:+ interleave ps' es' scope
  | p :: _, [] => p
  end.

(** Modelled from the spec: [rule.message.evaluate(flags, scope, null)]. *)
Definition message (m : MessageExpression) (flags : nat) (scope : Scope.t) : string :=
  match m with
  | PrimitiveLiteralExpression value => value
  | MessageInterpolation i => interleave (parts i) (expressions i) scope
  end.

End Evaluate.

(** ** The message provider: [parseMessage] *)

Definition contextualProperties : list string :=
  ["displayName"; "propertyName"; "value"; "object"; "config"; "getDisplayName"].

(** [contextualProperties.has(name)], [name] possibly [undefined]. *)
Definition contextualProperties_has (name : option string) : bool :=
  match name with
  | Some n => bool_decide (n ∈ contextualProperties)
  | None => false
  end.

Definition expressionName (e : IsBindingBehavior) : option string :=
  match e with
  | AccessThisExpression _ => None
  | AccessScopeExpression name _ => Some name
  | AccessMemberExpression _ name => Some name
  | OtherExpression name _ => name
  end.

Definition expressionAncestor (e : IsBindingBehavior) : option nat :=
  match e with
  | AccessThisExpression ancestor => Some ancestor
  | AccessScopeExpression _ ancestor => Some ancestor
  | AccessMemberExpression _ _ => None
  | OtherExpression _ ancestor => ancestor
  end.

(** [expr instanceof AccessThisExpression || expr.ancestor > 0] *)
Definition referencesParent (e : IsBindingBehavior) : bool :=
  match e with
  | AccessThisExpression _ => true
  | _ => match expressionAncestor e with Some a => (0 <? a)%nat | None => false end
  end.

Definition dq : string := String Regex.dquote EmptyString.

Definition warningText (name message : string) : string :=
  "Did you mean to use " +:+ dq +:+ "$" +:+ name +:+ dq +:+ " instead of " +:+ dq +:+ name +:+ dq
  +:+ " in this validation message template: " +:+ dq +:+ message +:+ dq +:+ "?".

Definition parentError : string := "$parent is not permitted in validation message expressions.".

(** The loop over [parsed.expressions]; [log] is what the logger has been
    told so far. *)
Fixpoint checkExpressions (message : string) (exprs : list IsBindingBehavior) (log : list string)
  : Completion unit * list string :=
  match exprs with
  | [] => (Normal tt, log)
  | expr :: rest =>
      let name := expressionName expr in
      let log1 :=
        if contextualProperties_has name
        then log ++ [warningText (default EmptyString name) message]
        else log in
      if referencesParent expr then (Throw parentError, log1)
      else checkExpressions message rest log1
  end.

Definition parseMessage (parser : IExpressionParser) (message : string) (log : list string)
  : Completion MessageExpression * list string :=
  match parseInterpolation parser message with
  | Throw e => (Throw e, log)
  | Normal (Some parsed) =>
      match checkExpressions message (expressions parsed) log with
      | (Throw e, log1) => (Throw e, log1)
      | (Normal _, log1) => (Normal (MessageInterpolation parsed), log1)
      end
  | Normal None => (Normal (PrimitiveLiteralExpression message), log)
  end.

(** ** The metadata store and the annotation protocol

    [Metadata] and [Protocol.annotation] belong to the kernel package,
    outside the module verified here. The
    specification gives the store as [define(key, value, target)],
    [getOwn(key, target)], which is [undefined] for an absent key, and
    [delete(key, target)], and the registrar's keys as the strings
    [validation-rules:] followed by the tag or [__default], under which
    [set] stores and [get] looks up.

    The registrar keeps two kinds of entries on a target: under
    [Protocol.annotation.name] the array of the annotation keys of the
    target, and under [Protocol.annotation.keyFor(key)] a list of property
    rules. The two never share a key, and the model keeps them in two typed
    components: [keyIndex] ([None] when the entry is absent) and
    [annotations]. The array of keys is reachable through the store only, so
    it is held by value; a list of property rules is a reference. *)

Module Metadata.

(** Modelled from the spec: what the metadata store of the kernel package
    holds for one target. *)
Record entries : Type := {
  annotations : gmap string loc;
  keyIndex : option (list string)
}.

(** Modelled from the spec: a target nothing was defined on. *)
Definition noEntries : entries := {| annotations := ∅; keyIndex := None |}.

(** Modelled from the spec: the entries of a target in the store. *)
Definition entriesOf (target : Target) (m : gmap Target entries) : entries :=
  default noEntries (m !! target).

(** Modelled from the spec: [Metadata.getOwn(key, target)] of the kernel
    package for a rule list; [None] is [undefined]. *)
Definition getOwn (key : string) (target : Target) (m : gmap Target entries) : option loc :=
  annotations (entriesOf target m) !! key.

(** Modelled from the spec: [Metadata.define(key, rules, target)] of the
    kernel package. *)
Definition define (key : string) (value : loc) (target : Target) (m : gmap Target entries)
  : gmap Target entries :=
  <[target := {| annotations := <[key := value]> (annotations (entriesOf target m));
                 keyIndex := keyIndex (entriesOf target m) |}]> m.

(** Modelled from the spec: [Metadata.delete(key, target)] of the kernel
    package. *)
Definition delete (key : string) (target : Target) (m : gmap Target entries)
  : gmap Target entries :=
  <[target := {| annotations := base.delete key (annotations (entriesOf target m));
                 keyIndex := keyIndex (entriesOf target m) |}]> m.

(** Modelled from the spec:
    [Metadata.getOwn(Protocol.annotation.name, target)] of the kernel
    package; [None] is [undefined]. *)
Definition getOwnKeys (target : Target) (m : gmap Target entries) : option (list string) :=
  keyIndex (entriesOf target m).

(** Modelled from the spec:
    [Metadata.define(Protocol.annotation.name, keys, target)] of the kernel
    package, and the effect of mutating the array of keys in place. *)
Definition defineKeys (keys : list string) (target : Target) (m : gmap Target entries)
  : gmap Target entries :=
  <[target := {| annotations := annotations (entriesOf target m); keyIndex := Some keys |}]> m.

End Metadata.

Module Protocol.
(** Modelled from the spec: [Protocol.annotation.name] of the kernel
    package, the key of the index of annotation keys. *)
Definition annotation_name : string := "au:annotation".

(** Modelled from the spec: [Protocol.annotation.keyFor(name, context?)]
    of the kernel package. The key is the annotation name, the name and the
    context joined by colons, so that [set], which passes the joined
    registrar key as the name, and [get], which passes the registrar name
    and the tag, address the same entry. *)
Definition annotation_keyFor (name : string) (context : option string) : string :=
  match context with
  | None => annotation_name +:+ ":" +:+ name
  | Some c => annotation_name +:+ ":" +:+ name +:+ ":" +:+ c
  end.
End Protocol.

(** ** [validationRulesRegistrar] *)

Module validationRulesRegistrar.

Definition name : string := "validation-rules".
Definition defaultRuleSetName : string := "__default".

Definition set (target : Target) (rules : loc) (tag : option string)
    (m : gmap Target Metadata.entries) : gmap Target Metadata.entries :=
  let key := name +:+ ":" +:+ default defaultRuleSetName tag in
  let m1 := Metadata.define (Protocol.annotation_keyFor key None) rules target m in
  match Metadata.getOwnKeys target m1 with
  | None => Metadata.defineKeys [key] target m1
  | Some keys => Metadata.defineKeys (keys ++ [key]) target m1
  end.

Definition get (target : Target) (tag : option string)
    (m : gmap Target Metadata.entries) : option loc :=
  Metadata.getOwn (Protocol.annotation_keyFor name (Some (default defaultRuleSetName tag))) target m.

(** [keys.indexOf(key)]; [None] is [-1]. *)
Definition indexOf (key : string) (keys : list string) : option nat :=
  fst <$> list_find (λ k, k = key) keys.

(** The body of the loop of [unset] for one key of the copy. *)
Definition unsetKey (target : Target) (tag : option string)
    (m : gmap Target Metadata.entries) (key : string) : gmap Target Metadata.entries :=
  if JsString.startsWith key name
     && match tag with None => true | Some t => JsString.endsWith key t end
  then
    let m1 := Metadata.delete (Protocol.annotation_keyFor key None) target m in
    match Metadata.getOwnKeys target m1 with
    | Some keys =>
        match indexOf key keys with
        | Some index => Metadata.defineKeys (base.delete index keys) target m1
        | None => m1
        end
    | None => m1
    end
  else m.

(** [keys.slice(0)] on an absent entry is a [TypeError]. *)
Definition unset (target : Target) (tag : option string)
    (m : gmap Target Metadata.entries) : Completion (gmap Target Metadata.entries) :=
  match Metadata.getOwnKeys target m with
  | None => Throw "TypeError: Cannot read properties of undefined (reading 'slice')"
  | Some keys => Normal (foldl (unsetKey target tag) m keys)
  end.

Definition isValidationRulesSet (target : Target) (m : gmap Target Metadata.entries) : bool :=
  existsb (λ key, JsString.startsWith key name) (default [] (Metadata.getOwnKeys target m)).

End validationRulesRegistrar.

(** ** Rules, property rules, builders and results *)

Module RuleProperty.
Record t : Type := {
  expression : option IsBindingBehavior;
  name : option PropertyName;
  displayName : option DisplayName
}.

(** [new RuleProperty(expression, name)]; every omitted argument is
    [undefined]. *)
Definition new (expression : option IsBindingBehavior) (name : option PropertyName) : t :=
  {| expression := expression; name := name; displayName := None |}.
End RuleProperty.

(** What [rule.execute(value, object)] returns: a boolean, or a promise of
    one that settles [delay] units of time after the call. *)
Inductive Outcome : Type :=
| Now (valid : bool)
| Later (delay : nat) (valid : bool).

(** Modelled from the spec: [BaseValidationRule] of the rules module, with
    the members the rule provider reads and writes. The message is the
    compiled expression the getter [message] returns; [messageKey] and
    [tag] start [undefined]. *)
Module BaseValidationRule.
Record t : Type := {
  messageKey : option string;
  message : MessageExpression;
  tag : option string;
  canExecute : option Target -> bool;
  execute : JsValue -> option Target -> Outcome
}.
End BaseValidationRule.

(** The field [$rules] is written [_rules]. *)
Module PropertyRule.
Record t : Type := {
  validationRules : loc;
  property : RuleProperty.t;
  _rules : list (list loc);
  latestRule : option loc
}.
End PropertyRule.

Module ValidationRules.
Record t : Type := {
  rules : loc;
  targets : gset Target
}.
End ValidationRules.

Module ValidationResult.
Record t : Type := {
  id : nat;
  valid : bool;
  message : option string;
  propertyName : option PropertyName;
  object : option Target;
  rule : loc;
  propertyRule : loc;
  isManual : bool
}.
End ValidationResult.

(** ** The store

    Objects live in heaps indexed by location; a new object takes the next
    free index. [logged] is what the logger of the message provider has
    been told. *)

Record Store : Type := {
  ruleHeap : list BaseValidationRule.t;
  propertyRuleHeap : list PropertyRule.t;
  arrayHeap : list (list loc);
  builderHeap : list ValidationRules.t;
  metadata : gmap Target Metadata.entries;
  logged : list string
}.

Definition emptyStore : Store :=
  {| ruleHeap := []; propertyRuleHeap := []; arrayHeap := []; builderHeap := [];
     metadata := ∅; logged := [] |}.

Definition withRuleHeap (h : list BaseValidationRule.t) (st : Store) : Store :=
  {| ruleHeap := h; propertyRuleHeap := propertyRuleHeap st; arrayHeap := arrayHeap st;
     builderHeap := builderHeap st; metadata := metadata st; logged := logged st |}.

Definition withPropertyRuleHeap (h : list PropertyRule.t) (st : Store) : Store :=
  {| ruleHeap := ruleHeap st; propertyRuleHeap := h; arrayHeap := arrayHeap st;
     builderHeap := builderHeap st; metadata := metadata st; logged := logged st |}.

Definition withArrayHeap (h : list (list loc)) (st : Store) : Store :=
  {| ruleHeap := ruleHeap st; propertyRuleHeap := propertyRuleHeap st; arrayHeap := h;
     builderHeap := builderHeap st; metadata := metadata st; logged := logged st |}.

Definition withBuilderHeap (h : list ValidationRules.t) (st : Store) : Store :=
  {| ruleHeap := ruleHeap st; propertyRuleHeap := propertyRuleHeap st; arrayHeap := arrayHeap st;
     builderHeap := h; metadata := metadata st; logged := logged st |}.

Definition withMetadata (m : gmap Target Metadata.entries) (st : Store) : Store :=
  {| ruleHeap := ruleHeap st; propertyRuleHeap := propertyRuleHeap st; arrayHeap := arrayHeap st;
     builderHeap := builderHeap st; metadata := m; logged := logged st |}.

Definition withLogged (l : list string) (st : Store) : Store :=
  {| ruleHeap := ruleHeap st; propertyRuleHeap := propertyRuleHeap st; arrayHeap := arrayHeap st;
     builderHeap := builderHeap st; metadata := metadata st; logged := l |}.

(** A method call: it reads and writes the store and either returns or
    throws; what it wrote before throwing stays written. *)
Definition M (A : Type) : Type := Store -> Completion A * Store.

Definition ret {A} (a : A) : M A := fun st => (Normal a, st).

Definition throw {A} (e : string) : M A := fun st => (Throw e, st).

Definition bind {A B} (m : M A) (f : A -> M B) : M B :=
  fun st =>
    match m st with
    | (Normal a, st1) => f a st1
    | (Throw e, st1) => (Throw e, st1)
    end.

Notation "'let*' x ':=' m 'in' k" := (bind m (fun x => k))
  (at level 10, x name, m at level 100, k at level 200, only parsing).

Definition lift {A} (c : Completion A) : M A := fun st => (c, st).

(** Following a reference that holds no object does not happen in a
    program; the model makes it a [TypeError]. *)
Definition deref {A} (heap : Store -> list A) (r : loc) : M A :=
  fun st =>
    match heap st !! r with
    | Some x => (Normal x, st)
    | None => (Throw "TypeError: undefined reference", st)
    end.

Definition readRule : loc -> M BaseValidationRule.t := deref ruleHeap.
Definition readPropertyRule : loc -> M PropertyRule.t := deref propertyRuleHeap.
Definition readArray : loc -> M (list loc) := deref arrayHeap.
Definition readBuilder : loc -> M ValidationRules.t := deref builderHeap.

Definition writeRule (r : loc) (x : BaseValidationRule.t) : M unit :=
  fun st => (Normal tt, withRuleHeap (<[r := x]> (ruleHeap st)) st).

Definition writePropertyRule (r : loc) (x : PropertyRule.t) : M unit :=
  fun st => (Normal tt, withPropertyRuleHeap (<[r := x]> (propertyRuleHeap st)) st).

Definition writeArray (r : loc) (x : list loc) : M unit :=
  fun st => (Normal tt, withArrayHeap (<[r := x]> (arrayHeap st)) st).

Definition writeBuilder (r : loc) (x : ValidationRules.t) : M unit :=
  fun st => (Normal tt, withBuilderHeap (<[r := x]> (builderHeap st)) st).

Definition newPropertyRule (x : PropertyRule.t) : M loc :=
  fun st => (Normal (length (propertyRuleHeap st)),
             withPropertyRuleHeap (propertyRuleHeap st ++ [x]) st).

Definition newArray (x : list loc) : M loc :=
  fun st => (Normal (length (arrayHeap st)), withArrayHeap (arrayHeap st ++ [x]) st).

Definition newRule (x : BaseValidationRule.t) : M loc :=
  fun st => (Normal (length (ruleHeap st)), withRuleHeap (ruleHeap st ++ [x]) st).

(** [new ValidationRules(parser, messageProvider)]: [rules] is a new empty
    array and [targets] a new empty set. *)
Definition newValidationRules : M loc :=
  fun st =>
    let rules := length (arrayHeap st) in
    let st1 := withArrayHeap (arrayHeap st ++ [[]]) st in
    (Normal (length (builderHeap st1)),
     withBuilderHeap (builderHeap st1 ++ [{| ValidationRules.rules := rules;
                                             ValidationRules.targets := ∅ |}]) st1).

(** ** [PropertyRule]: the fluent builder

    A method takes the location of [this] first and returns the location
    the source returns. The rule-constructing helpers ([required],
    [matches], ...) are [addRule] applied to a new rule object of a class
    of the rules module; [satisfiesRule], which is [addRule] itself, stands
    for them. *)

(** [addRule(rule)]: [getLeafRules()] is [this.$rules[this.$rules.length - 1]];
    with no stage at all it is [undefined] and [push] is a [TypeError]. *)
Definition PropertyRule_addRule (this : loc) (rule : loc) : M loc :=
  let* pr := readPropertyRule this in
  let depth := length (PropertyRule._rules pr) - 1 in
  match PropertyRule._rules pr !! depth with
  | None => throw "TypeError: Cannot read properties of undefined (reading 'push')"
  | Some leaf =>
      let* _ := writePropertyRule this
        {| PropertyRule.validationRules := PropertyRule.validationRules pr;
           PropertyRule.property := PropertyRule.property pr;
           PropertyRule._rules := <[depth := leaf ++ [rule]]> (PropertyRule._rules pr);
           PropertyRule.latestRule := Some rule |} in
      ret this
  end.

Definition PropertyRule_satisfiesRule (this : loc) (validationRule : loc) : M loc :=
  PropertyRule_addRule this validationRule.

(** [then()] *)
Definition PropertyRule_then (this : loc) : M loc :=
  let* pr := readPropertyRule this in
  let* _ := writePropertyRule this
    {| PropertyRule.validationRules := PropertyRule.validationRules pr;
       PropertyRule.property := PropertyRule.property pr;
       PropertyRule._rules := PropertyRule._rules pr ++ [[]];
       PropertyRule.latestRule := PropertyRule.latestRule pr |} in
  ret this.

(** [assertLatesRule(latestRule)] *)
Definition assertLatesRule (latestRule : option loc) : M loc :=
  match latestRule with
  | None => throw "No rule has been added"
  | Some rule => ret rule
  end.

Definition PropertyRule_withMessageKey (this : loc) (key : string) : M loc :=
  let* pr := readPropertyRule this in
  let* latest := assertLatesRule (PropertyRule.latestRule pr) in
  let* rule := readRule latest in
  let* _ := writeRule latest
    {| BaseValidationRule.messageKey := Some key;
       BaseValidationRule.message := BaseValidationRule.message rule;
       BaseValidationRule.tag := BaseValidationRule.tag rule;
       BaseValidationRule.canExecute := BaseValidationRule.canExecute rule;
       BaseValidationRule.execute := BaseValidationRule.execute rule |} in
  ret this.

(** Modelled from the spec: [setMessage] of the rule, which belongs to the
    rules module, compiles the text with [parseMessage] of the message
    provider and keeps the result as the rule's message. *)
Definition BaseValidationRule_setMessage (parser : IExpressionParser) (rule : loc) (message : string)
  : M unit :=
  let* r := readRule rule in
  let* compiled := (fun st =>
      let '(c, log) := parseMessage parser message (logged st) in (c, withLogged log st)) in
  writeRule rule
    {| BaseValidationRule.messageKey := BaseValidationRule.messageKey r;
       BaseValidationRule.message := compiled;
       BaseValidationRule.tag := BaseValidationRule.tag r;
       BaseValidationRule.canExecute := BaseValidationRule.canExecute r;
       BaseValidationRule.execute := BaseValidationRule.execute r |}.

Definition PropertyRule_withMessage (parser : IExpressionParser) (this : loc) (message : string) : M loc :=
  let* pr := readPropertyRule this in
  let* latest := assertLatesRule (PropertyRule.latestRule pr) in
  let* _ := BaseValidationRule_setMessage parser latest message in
  ret this.

Definition PropertyRule_when (this : loc) (condition : option Target -> bool) : M loc :=
  let* pr := readPropertyRule this in
  let* latest := assertLatesRule (PropertyRule.latestRule pr) in
  let* rule := readRule latest in
  let* _ := writeRule latest
    {| BaseValidationRule.messageKey := BaseValidationRule.messageKey rule;
       BaseValidationRule.message := BaseValidationRule.message rule;
       BaseValidationRule.tag := BaseValidationRule.tag rule;
       BaseValidationRule.canExecute := condition;
       BaseValidationRule.execute := BaseValidationRule.execute rule |} in
  ret this.

Definition PropertyRule_tag (this : loc) (tag : string) : M loc :=
  let* pr := readPropertyRule this in
  let* latest := assertLatesRule (PropertyRule.latestRule pr) in
  let* rule := readRule latest in
  let* _ := writeRule latest
    {| BaseValidationRule.messageKey := BaseValidationRule.messageKey rule;
       BaseValidationRule.message := BaseValidationRule.message rule;
       BaseValidationRule.tag := Some tag;
       BaseValidationRule.canExecute := BaseValidationRule.canExecute rule;
       BaseValidationRule.execute := BaseValidationRule.execute rule |} in
  ret this.

Definition PropertyRule_displayName (this : loc) (name : DisplayName) : M loc :=
  let* pr := readPropertyRule this in
  let p := PropertyRule.property pr in
  let* _ := writePropertyRule this
    {| PropertyRule.validationRules := PropertyRule.validationRules pr;
       PropertyRule.property :=
         {| RuleProperty.expression := RuleProperty.expression p;
            RuleProperty.name := RuleProperty.name p;
            RuleProperty.displayName := Some name |};
       PropertyRule._rules := PropertyRule._rules pr;
       PropertyRule.latestRule := PropertyRule.latestRule pr |} in
  ret this.

(** [this.latestRule = void 0] *)
Definition PropertyRule_resetLatestRule (this : loc) : M unit :=
  let* pr := readPropertyRule this in
  writePropertyRule this
    {| PropertyRule.validationRules := PropertyRule.validationRules pr;
       PropertyRule.property := PropertyRule.property pr;
       PropertyRule._rules := PropertyRule._rules pr;
       PropertyRule.latestRule := None |}.

(** ** [ValidationRules]: the builder *)

Section Builder.

(** [n == s] for a number and a string converts the string with
    [ToNumber]; the conversion is a parameter. *)
Variable looseEqualsNumber : Z -> string -> bool.

Variable parser : IExpressionParser.

(** [r.property.name == name], where [name] is the string
    [parsePropertyName] resolved: two strings are compared as they are,
    and [undefined] equals no string. *)
Definition looseEquals (ruleName : option PropertyName) (name : string) : bool :=
  match ruleName with
  | Some (NameString s) => String.eqb s name
  | Some (NameNumber n) => looseEqualsNumber n name
  | None => false
  end.

(** [rules.find((r) => r.property.name == name)] *)
Fixpoint findByName (name : string) (refs : list loc) : M (option loc) :=
  match refs with
  | [] => ret None
  | r :: rest =>
      let* pr := readPropertyRule r in
      if looseEquals (RuleProperty.name (PropertyRule.property pr)) name
      then ret (Some r)
      else findByName name rest
  end.

(** [this.rules.push(rule)] *)
Definition pushRule (this : loc) (rule : loc) : M unit :=
  let* b := readBuilder this in
  let* rules := readArray (ValidationRules.rules b) in
  writeArray (ValidationRules.rules b) (rules ++ [rule]).

Definition ValidationRules_ensure (this : loc) (property : PropertyArg) : M loc :=
  let* parsed := lift (parsePropertyName property parser) in
  let '(name, expression) := parsed in
  let* b := readBuilder this in
  let* rules := readArray (ValidationRules.rules b) in
  let* found := findByName name rules in
  match found with
  | Some rule => ret rule
  | None =>
      let* rule := newPropertyRule
        {| PropertyRule.validationRules := this;
           PropertyRule.property := RuleProperty.new (Some expression) (Some (NameString name));
           PropertyRule._rules := [[]];
           PropertyRule.latestRule := None |} in
      let* _ := pushRule this rule in
      ret rule
  end.

Definition ValidationRules_ensureObject (this : loc) : M loc :=
  let* rule := newPropertyRule
    {| PropertyRule.validationRules := this;
       PropertyRule.property := RuleProperty.new None None;
       PropertyRule._rules := [[]];
       PropertyRule.latestRule := None |} in
  let* _ := pushRule this rule in
  ret rule.

(** [on(target, tag)]; [Object.is(rules, this.rules)] compares the
    reference the registrar returned, or [undefined], with the builder's. *)
Definition ValidationRules_on (this : loc) (target : Target) (tag : option string) : M loc :=
  let* b := readBuilder this in
  let* rules := (fun st => (Normal (validationRulesRegistrar.get target tag (metadata st)), st)) in
  if bool_decide (rules = Some (ValidationRules.rules b)) then ret this
  else
    let* own := match rules with
                | Some registered => ret registered
                | None => newArray []
                end in
    let* _ := writeBuilder this
      {| ValidationRules.rules := own; ValidationRules.targets := ValidationRules.targets b |} in
    let* _ := (fun st =>
      (Normal tt, withMetadata (validationRulesRegistrar.set target own tag (metadata st)) st)) in
    let* _ := writeBuilder this
      {| ValidationRules.rules := own;
         ValidationRules.targets := {[target]} ∪ ValidationRules.targets b |} in
    ret this.

(** The proxies of [PropertyRule] to its builder. *)
Definition PropertyRule_ensure (this : loc) (property : PropertyArg) : M loc :=
  let* _ := PropertyRule_resetLatestRule this in
  let* pr := readPropertyRule this in
  ValidationRules_ensure (PropertyRule.validationRules pr) property.

Definition PropertyRule_ensureObject (this : loc) : M loc :=
  let* _ := PropertyRule_resetLatestRule this in
  let* pr := readPropertyRule this in
  ValidationRules_ensureObject (PropertyRule.validationRules pr).

Definition PropertyRule_on (this : loc) (target : Target) (tag : option string) : M loc :=
  let* pr := readPropertyRule this in
  ValidationRules_on (PropertyRule.validationRules pr) target tag.

(** [get rules()] *)
Definition PropertyRule_rules (this : loc) : M loc :=
  let* pr := readPropertyRule this in
  let* b := readBuilder (PropertyRule.validationRules pr) in
  ret (ValidationRules.rules b).

End Builder.

(** ** [PropertyRule.validate]

    JavaScript runs one job at a time to completion. A call of an [async]
    function runs its body at once, up to its first [await]; a callback
    given to [then] and the rest of a function after an [await] run later,
    each as a job of its own, after the code that is running has returned.

    The model follows that. A [Promise A] is a job still to run: a function
    from the state of the run to a value and the new state. [Promise_then]
    chains jobs without running anything. What the call of [validate] does
    at once, the [reduce] over [$rules], builds the chain; the chain runs
    once [validate] has returned its promise.

    The state of a run holds the variable [isValid] of the closure, the
    static counter [ValidationResult.nextId], a clock and the trace of what
    happened: which rule was executed when, and when its boolean was known.
    A rule whose [execute] returns a promise settling after [delay] is known
    at the time of the call plus [delay]. The counter is the static counter
    as one call sees it when no other code constructs a result while the
    call runs; [validateAmid], further down, lets other code advance it. *)

Inductive Event : Type :=
| Executed (rule : loc) (time : nat)
| Settled (rule : loc) (time : nat) (valid : bool).

Module Run.
Record t : Type := {
  isValid : bool;
  nextId : nat;
  now : nat;
  trace : list Event
}.
End Run.

Definition Promise (A : Type) : Type := Run.t -> A * Run.t.

(** [Promise.resolve(a)] *)
Definition Promise_resolve {A} (a : A) : Promise A := fun r => (a, r).

(** [p.then(f)] *)
Definition Promise_then {A B} (p : Promise A) (f : A -> Promise B) : Promise B :=
  fun r => let '(a, r1) := p r in f a r1.

(** A call of [validateRule] waiting at its [await]: the slot of its
    promise in [promises], the rule, and when and as what the awaited
    promise settles. *)
Record Pending : Type := {
  slot : nat;
  pendingRule : loc * BaseValidationRule.t;
  settlesAt : nat;
  settlesAs : bool
}.

(** The waiting calls resume in the order their promises settle; calls that
    settle at the same time resume in the order they were made. *)
Fixpoint insertPending (p : Pending) (l : list Pending) : list Pending :=
  match l with
  | [] => [p]
  | q :: l' => if settlesAt p <=? settlesAt q then p :: l else q :: insertPending p l'
  end.

Definition bySettleTime (l : list Pending) : list Pending := foldr insertPending [] l.

Section Validate.

Variable this : loc.
Variable property : RuleProperty.t.
Variable value : JsValue.
Variable object : option Target.
Variable tag : option string.
Variable flags : nat.

(** [(displayName instanceof Function ? displayName() : displayName) ?? name] *)
Definition scopeDisplayName : JsValue :=
  match RuleProperty.displayName property with
  | Some (DisplayAccessor f) => JsString (f tt)
  | Some (DisplayString s) => JsString s
  | None => JsValue_ofName (RuleProperty.name property)
  end.

Definition createScope (rule : loc) : Scope.t :=
  {| Scope._object := object;
     Scope._displayName := scopeDisplayName;
     Scope._propertyName := RuleProperty.name property;
     Scope._value := value;
     Scope._rule := rule;
     Scope._getDisplayName := getDisplayName |}.

(** [validateRule] from the point where the boolean is known: the flag is
    updated, the message is rendered when the rule failed, and the result
    is constructed, which takes the next identifier. *)
Definition finishRule (rule : loc * BaseValidationRule.t) (isValidOrPromise : bool)
  : Promise ValidationResult.t :=
  fun r =>
    let message :=
      if isValidOrPromise then None
      else Some (Evaluate.message (BaseValidationRule.message rule.2) flags (createScope rule.1)) in
    ({| ValidationResult.id := Run.nextId r;
        ValidationResult.valid := isValidOrPromise;
        ValidationResult.message := message;
        ValidationResult.propertyName := RuleProperty.name property;
        ValidationResult.object := object;
        ValidationResult.rule := rule.1;
        ValidationResult.propertyRule := this;
        ValidationResult.isManual := false |},
     {| Run.isValid := Run.isValid r && isValidOrPromise;
        Run.nextId := S (Run.nextId r);
        Run.now := Run.now r;
        Run.trace := Run.trace r ++ [Settled rule.1 (Run.now r) isValidOrPromise] |}).

(** [rule.canExecute(object) && (tag === void 0 || rule.tag === tag)] *)
Definition eligible (rule : loc * BaseValidationRule.t) : bool :=
  BaseValidationRule.canExecute rule.2 object
  && match tag with
     | None => true
     | Some _ => bool_decide (BaseValidationRule.tag rule.2 = tag)
     end.

(** The [for] loop of [validateRuleset]. For every eligible rule it calls
    [validateRule], which calls [execute]; with a boolean the call runs to
    its end and its promise is fulfilled, with a promise the call waits.
    [slots] is [promises], a slot holding the result once the promise is
    fulfilled. *)
Fixpoint launch (rules : list (loc * BaseValidationRule.t))
    (slots : list (option ValidationResult.t)) (waiting : list Pending) (r : Run.t)
  : list (option ValidationResult.t) * list Pending * Run.t :=
  match rules with
  | [] => (slots, waiting, r)
  | rule :: rest =>
      if eligible rule then
        let r1 := {| Run.isValid := Run.isValid r; Run.nextId := Run.nextId r;
                     Run.now := Run.now r;
                     Run.trace := Run.trace r ++ [Executed rule.1 (Run.now r)] |} in
        match BaseValidationRule.execute rule.2 value object with
        | Now b =>
            let '(result, r2) := finishRule rule b r1 in
            launch rest (slots ++ [Some result]) waiting r2
        | Later delay b =>
            launch rest (slots ++ [None])
              (waiting ++ [{| slot := length slots; pendingRule := rule;
                              settlesAt := Run.now r + delay; settlesAs := b |}]) r1
        end
      else launch rest slots waiting r
  end.

(** The waiting calls resume, each when its promise settles, and fulfil
    their slots. *)
Fixpoint resume (waiting : list Pending) (slots : list (option ValidationResult.t)) (r : Run.t)
  : list (option ValidationResult.t) * Run.t :=
  match waiting with
  | [] => (slots, r)
  | p :: rest =>
      let r1 := {| Run.isValid := Run.isValid r; Run.nextId := Run.nextId r;
                   Run.now := Nat.max (Run.now r) (settlesAt p);
                   Run.trace := Run.trace r |} in
      let '(result, r2) := finishRule (pendingRule p) (settlesAs p) r1 in
      resume rest (<[slot p := Some result]> slots) r2
  end.

(** [validateRuleset(rules)]: [Promise.all(promises)] is fulfilled when
    every slot is, with the results in the order of the slots. *)
Definition validateRuleset (rules : list (loc * BaseValidationRule.t))
  : Promise (list ValidationResult.t) :=
  fun r =>
    let '(slots, waiting, r1) := launch rules [] [] r in
    let '(slots1, r2) := resume (bySettleTime waiting) slots r1 in
    (omap id slots1, r2).

(** [accumulateResult(results, rules)] *)
Definition accumulateResult (results : list ValidationResult.t)
    (rules : list (loc * BaseValidationRule.t)) : Promise (list ValidationResult.t) :=
  Promise_then (validateRuleset rules) (fun result => Promise_resolve (results ++ result)).

(** The reducer, an [async] function with no [await]: the call that
    [reduce] makes runs its whole body. It reads [isValid] in the state
    [r] of that moment, chains a job when the flag is set, and returns;
    it runs no job and leaves the state as it is. *)
Definition reducer (acc : Promise (list ValidationResult.t) * Run.t)
    (ruleset : list (loc * BaseValidationRule.t))
  : Promise (list ValidationResult.t) * Run.t :=
  let '(acc, r) := acc in
  (if Run.isValid r
   then Promise_then acc (fun accValidateResult => accumulateResult accValidateResult ruleset)
   else acc,
   r).

(** [validate(value, object, tag, flags)]: [let isValid = true], then the
    [reduce], which returns the promise of the results; the jobs chained
    on it run afterwards. The result is what the promise is fulfilled
    with, and the state of the run at that time. *)
Definition validate (stages : list (list (loc * BaseValidationRule.t))) (r0 : Run.t)
  : list ValidationResult.t * Run.t :=
  let r := {| Run.isValid := true; Run.nextId := Run.nextId r0;
              Run.now := Run.now r0; Run.trace := Run.trace r0 |} in
  let '(promise, r1) := foldl reducer (Promise_resolve [], r) stages in
  promise r1.

End Validate.

(** The rules of a stage, read from the store. *)
Definition stageRules (st : Store) (stage : list loc) : list (loc * BaseValidationRule.t) :=
  omap (fun rule => (fun x => (rule, x)) <$> ruleHeap st !! rule) stage.

(** [propertyRule.validate(value, object, tag, flags)] on the store. *)
Definition PropertyRule_validate (st : Store) (this : loc) (value : JsValue)
    (object : option Target) (tag : option string) (flags : nat) (r0 : Run.t)
  : Completion (list ValidationResult.t * Run.t) :=
  match propertyRuleHeap st !! this with
  | None => Throw "TypeError: undefined reference"
  | Some pr =>
      Normal (validate this (PropertyRule.property pr) value object tag flags
                (stageRules st <$> PropertyRule._rules pr) r0)
  end.

(** The start of a run: no result constructed yet, time zero. *)
Definition startRun : Run.t :=
  {| Run.isValid := true; Run.nextId := 0; Run.now := 0; Run.trace := [] |}.

(** ** Rules and templates of the examples *)

(** A rule that always applies and whose [execute] returns [outcome]. *)
Definition ruleReturning (message : MessageExpression) (outcome : Outcome) : BaseValidationRule.t :=
  {| BaseValidationRule.messageKey := None;
     BaseValidationRule.message := message;
     BaseValidationRule.tag := None;
     BaseValidationRule.canExecute := fun _ => true;
     BaseValidationRule.execute := fun _ _ => outcome |}.

Definition requiredTemplate : string := "${$displayName} is required".

(** [requiredTemplate] compiled. *)
Definition requiredMessage : MessageExpression :=
  MessageInterpolation {| parts := [EmptyString; " is required"];
                          expressions := [AccessScopeExpression "$displayName" 0] |}.


(** The warnings the loop of [parseMessage] logs for a list of expressions
    none of which stops it. *)
Definition warningsOf (message : string) (exprs : list IsBindingBehavior) : list string :=
  omap (fun e =>
          if contextualProperties_has (expressionName e)
          then Some (warningText (default EmptyString (expressionName e)) message)
          else None) exprs.

(** [find] as a function of the heap of property rules alone: it reads
    nothing else and writes nothing. *)
Fixpoint findInHeap (looseEqualsNumber : Z -> string -> bool) (heap : list PropertyRule.t)
    (name : string) (refs : list loc) : Completion (option loc) :=
  match refs with
  | [] => Normal None
  | r :: rest =>
      match heap !! r with
      | None => Throw "TypeError: undefined reference"
      | Some pr =>
          if looseEquals looseEqualsNumber (RuleProperty.name (PropertyRule.property pr)) name
          then Normal (Some r)
          else findInHeap looseEqualsNumber heap name rest
      end
  end.

(** The property rule that [ensure] and [ensureObject] construct. *)
Definition freshPropertyRule (builder : loc) (expression : option IsBindingBehavior)
    (name : option PropertyName) : PropertyRule.t :=
  {| PropertyRule.validationRules := builder;
     PropertyRule.property := RuleProperty.new expression name;
     PropertyRule._rules := [[]];
     PropertyRule.latestRule := None |}.

(** Each of the four modifiers, called on [this] in [st], throws the error
    of [assertLatesRule] and changes nothing. *)
Definition modifiersThrow (parser : IExpressionParser) (this : loc) (st : Store) : Prop :=
  ∀ (key message tag : string) (condition : option Target -> bool),
    PropertyRule_withMessageKey this key st = (Throw "No rule has been added", st)
    ∧ PropertyRule_withMessage parser this message st = (Throw "No rule has been added", st)
    ∧ PropertyRule_when this condition st = (Throw "No rule has been added", st)
    ∧ PropertyRule_tag this tag st = (Throw "No rule has been added", st).

(** A comparison of a number with a string for the examples: the string is
    the decimal numeral of the number. The examples compare no number. *)
Definition decimalEquals (n : Z) (s : string) : bool := String.eqb (JsString.ofZ n) s.

(** A chain that comes back to a property rule through another one:

    [const a = rules.ensure('a'); a.satisfiesRule(r);]
    [const b = rules.ensure('b');]
    [modifier(b.ensure('a'))]

    where [rules] is a new builder, [r] a rule and [modifier] one of the
    fluent modifiers. *)
Definition comeBack (modifier : loc -> M loc) : M loc :=
  let* rules := newValidationRules in
  let* a := ValidationRules_ensure decimalEquals MiniParser.parser rules (ArgString "a") in
  let* r := newRule (ruleReturning requiredMessage (Now true)) in
  let* _ := PropertyRule_satisfiesRule a r in
  let* b := ValidationRules_ensure decimalEquals MiniParser.parser rules (ArgString "b") in
  let* again := PropertyRule_ensure decimalEquals MiniParser.parser b (ArgString "a") in
  modifier again.

(** ** Reading a run *)

(** The rules whose [execute] was called, in the order of the calls. *)
Definition executedRules (trace : list Event) : list loc :=
  omap (fun e => match e with Executed rule _ => Some rule | Settled _ _ _ => None end) trace.

Definition eventTime (e : Event) : nat :=
  match e with
  | Executed _ time => time
  | Settled _ time _ => time
  end.

(** The boolean a call of [execute] comes to. *)
Definition outcomeValid (o : Outcome) : bool :=
  match o with
  | Now b => b
  | Later _ b => b
  end.

(** The stages one after the other, every one of them: the chain of jobs
    in which each stage is chained. *)
Fixpoint runStages (this : loc) (property : RuleProperty.t) (value : JsValue)
    (object : option Target) (tag : option string) (flags : nat)
    (results : list ValidationResult.t) (stages : list (list (loc * BaseValidationRule.t)))
  : Promise (list ValidationResult.t) :=
  match stages with
  | [] => Promise_resolve results
  | ruleset :: rest =>
      Promise_then (accumulateResult this property value object tag flags results ruleset)
        (fun results1 => runStages this property value object tag flags results1 rest)
  end.

(** The eligible rules of all the stages, in the order of declaration. *)
Definition eligibleRules (object : option Target) (tag : option string)
    (stages : list (list (loc * BaseValidationRule.t))) : list (loc * BaseValidationRule.t) :=
  concat (List.filter (eligible object tag) <$> stages).

(** A result is the result of a rule: it refers to the rule and carries the
    boolean the rule came to. *)
Definition resultOf (value : JsValue) (object : option Target)
    (rule : loc * BaseValidationRule.t) (result : ValidationResult.t) : Prop :=
  ValidationResult.rule result = rule.1
  ∧ ValidationResult.valid result
    = outcomeValid (BaseValidationRule.execute rule.2 value object).

(** A slot of [promises] for a rule: pending, or fulfilled with a result of
    the rule. *)
Definition slotOf (value : JsValue) (object : option Target)
    (rule : loc * BaseValidationRule.t) (s : option ValidationResult.t) : Prop :=
  match s with
  | Some result => resultOf value object rule result
  | None => True
  end.

(** A waiting call belongs to the slot of its rule. *)
Definition waitingFor (value : JsValue) (object : option Target)
    (rules : list (loc * BaseValidationRule.t)) (p : Pending) : Prop :=
  rules !! slot p = Some (pendingRule p)
  ∧ settlesAs p = outcomeValid (BaseValidationRule.execute (pendingRule p).2 value object).

(** What the examples read off a result. *)
Definition summary (results : list ValidationResult.t) : list (loc * bool * nat) :=
  (fun result => (ValidationResult.rule result, ValidationResult.valid result,
                  ValidationResult.id result)) <$> results.

Definition anyMessage : MessageExpression := PrimitiveLiteralExpression "invalid".


(** A property rule with two stages, built through the fluent interface:

    [rules.ensure('a').satisfiesRule(fails).then().satisfiesRule(passes)]

    where [fails] always fails and [passes] always passes. *)
Definition twoStages : M loc :=
  let* rules := newValidationRules in
  let* a := ValidationRules_ensure decimalEquals MiniParser.parser rules (ArgString "a") in
  let* fails := newRule (ruleReturning anyMessage (Now false)) in
  let* _ := PropertyRule_satisfiesRule a fails in
  let* _ := PropertyRule_then a in
  let* passes := newRule (ruleReturning anyMessage (Now true)) in
  let* _ := PropertyRule_satisfiesRule a passes in
  ret a.

(** ** More of the registrar *)

(** The test the loop of [unset] makes on a key:
    [key.startsWith(name) && (tag === void 0 || key.endsWith(tag))]. *)
Definition unsetMatches (tag : option string) (key : string) : bool :=
  JsString.startsWith key validationRulesRegistrar.name
  && match tag with None => true | Some t => JsString.endsWith key t end.

(** The key [set] builds for a tag:
    [`${name}:${tag ?? defaultRuleSetName}`]. *)
Definition registrarKey (tag : option string) : string :=
  validationRulesRegistrar.name +:+ ":"
  +:+ default validationRulesRegistrar.defaultRuleSetName tag.


(** The annotation keys [unset] deletes for an index: those of the keys
    that pass its test. *)
Definition unsetDeletes (tag : option string) (keys : list string) : list string :=
  (fun k => Protocol.annotation_keyFor k None) <$> filter (fun k => unsetMatches tag k = true) keys.


(** ** [ValidationRules.off] *)

(** [for (const x of items) body(x)]: the first call that throws ends the
    loop. *)
Fixpoint forOf {A} (body : A -> M unit) (items : list A) : M unit :=
  match items with
  | [] => ret tt
  | x :: rest => let* _ := body x in forOf body rest
  end.

(** The body of the loop of [off] for one target. *)
Definition offTarget (this : loc) (tag : option string) (target : Target) : M unit :=
  let* _ := (fun st =>
    match validationRulesRegistrar.unset target tag (metadata st) with
    | Normal m => (Normal tt, withMetadata m st)
    | Throw e => (Throw e, st)
    end) in
  let* isSet := (fun st =>
    (Normal (validationRulesRegistrar.isValidationRulesSet target (metadata st)), st)) in
  if negb isSet then
    let* b := readBuilder this in
    writeBuilder this
      {| ValidationRules.rules := ValidationRules.rules b;
         ValidationRules.targets := ValidationRules.targets b ∖ {[target]} |}
  else ret tt.

Section Off.

(** [Array.from(this.targets)] lists the targets in the order they were
    added, which the set of the model does not record; the enumeration is
    a parameter. *)
Variable arrayFrom : gset Target -> list Target.

Definition ValidationRules_off (this : loc) (target : option Target) (tag : option string)
    : M unit :=
  let* targets := match target with
                  | Some given => ret [given]
                  | None =>
                      let* b := readBuilder this in
                      ret (arrayFrom (ValidationRules.targets b))
                  end in
  forOf (offTarget this tag) targets.

End Off.


(** ** Reading a result *)

(** A slot of [promises] for a rule and a property [Q] of results:
    pending, or fulfilled with a result that has the property. *)
Definition slotWith (Q : loc * BaseValidationRule.t -> ValidationResult.t -> Prop)
    (rule : loc * BaseValidationRule.t) (s : option ValidationResult.t) : Prop :=
  match s with
  | Some result => Q rule result
  | None => True
  end.

(** The result describes the rule: it refers to the rule and carries the
    boolean the rule came to, it has a message exactly when that boolean is
    false, and it carries the name, the object and the property rule of the
    call and is not marked as added by hand. *)
Definition describes (this : loc) (property : RuleProperty.t) (value : JsValue)
    (object : option Target)
    (rule : loc * BaseValidationRule.t) (result : ValidationResult.t) : Prop :=
  ValidationResult.rule result = rule.1
  ∧ ValidationResult.valid result
    = outcomeValid (BaseValidationRule.execute rule.2 value object)
  ∧ (ValidationResult.message result = None ↔ ValidationResult.valid result = true)
  ∧ ValidationResult.propertyName result = RuleProperty.name property
  ∧ ValidationResult.object result = object
  ∧ ValidationResult.propertyRule result = this
  ∧ ValidationResult.isManual result = false.

(** [result.toString()]; [None] is [undefined]. *)
Definition ValidationResult_toString (result : ValidationResult.t) : option string :=
  if ValidationResult.valid result then Some "Valid." else ValidationResult.message result.


(** The identifiers of the results that [promises] holds so far. *)
Definition slotIds (slots : list (option ValidationResult.t)) : list nat :=
  ValidationResult.id <$> omap id slots.

(** The results constructed since the counter was at [first] hold
    distinct identifiers from [first] up to the counter, no more of them
    than the counter has advanced, and every waiting call has a pending
    slot of its own. *)
Definition idsDistinct (first : nat) (slots : list (option ValidationResult.t))
    (waiting : list Pending) (r : Run.t) : Prop :=
  NoDup (slotIds slots)
  ∧ Forall (fun i => first ≤ i < Run.nextId r) (slotIds slots)
  ∧ first + length (slotIds slots) ≤ Run.nextId r
  ∧ NoDup (slot <$> waiting)
  ∧ ∀ p, p ∈ waiting → slots !! slot p = Some None.

(** ** [validate] among other constructions of results

    [ValidationResult.nextId] is a static counter, shared by every result
    the program constructs. Between two results that one call of
    [validate] constructs, other code may construct results of its own:
    the [execute] of a rule, and every job that runs while the call waits,
    another call of [validate] for one. [others c] is the number of
    results other code constructs after the counter has come to [c] and
    before the call constructs its next result. The definitions below are
    those of [validate] with the counter advanced by [others] before each
    construction; with no other construction they are [validate]. *)

Section Amid.

Variable others : nat -> nat.

Variable this : loc.
Variable property : RuleProperty.t.
Variable value : JsValue.
Variable object : option Target.
Variable tag : option string.
Variable flags : nat.

(** [new ValidationResult(...)] in [validateRule], after the constructions
    of other code. *)
Definition finishRuleAmid (rule : loc * BaseValidationRule.t) (isValidOrPromise : bool)
  : Promise ValidationResult.t :=
  fun r =>
    finishRule this property value object flags rule isValidOrPromise
      {| Run.isValid := Run.isValid r;
         Run.nextId := Run.nextId r + others (Run.nextId r);
         Run.now := Run.now r;
         Run.trace := Run.trace r |}.

Fixpoint launchAmid (rules : list (loc * BaseValidationRule.t))
    (slots : list (option ValidationResult.t)) (waiting : list Pending) (r : Run.t)
  : list (option ValidationResult.t) * list Pending * Run.t :=
  match rules with
  | [] => (slots, waiting, r)
  | rule :: rest =>
      if eligible object tag rule then
        let r1 := {| Run.isValid := Run.isValid r; Run.nextId := Run.nextId r;
                     Run.now := Run.now r;
                     Run.trace := Run.trace r ++ [Executed rule.1 (Run.now r)] |} in
        match BaseValidationRule.execute rule.2 value object with
        | Now b =>
            let '(result, r2) := finishRuleAmid rule b r1 in
            launchAmid rest (slots ++ [Some result]) waiting r2
        | Later delay b =>
            launchAmid rest (slots ++ [None])
              (waiting ++ [{| slot := length slots; pendingRule := rule;
                              settlesAt := Run.now r + delay; settlesAs := b |}]) r1
        end
      else launchAmid rest slots waiting r
  end.

Fixpoint resumeAmid (waiting : list Pending) (slots : list (option ValidationResult.t))
    (r : Run.t) : list (option ValidationResult.t) * Run.t :=
  match waiting with
  | [] => (slots, r)
  | p :: rest =>
      let r1 := {| Run.isValid := Run.isValid r; Run.nextId := Run.nextId r;
                   Run.now := Nat.max (Run.now r) (settlesAt p);
                   Run.trace := Run.trace r |} in
      let '(result, r2) := finishRuleAmid (pendingRule p) (settlesAs p) r1 in
      resumeAmid rest (<[slot p := Some result]> slots) r2
  end.

Definition validateRulesetAmid (rules : list (loc * BaseValidationRule.t))
  : Promise (list ValidationResult.t) :=
  fun r =>
    let '(slots, waiting, r1) := launchAmid rules [] [] r in
    let '(slots1, r2) := resumeAmid (bySettleTime waiting) slots r1 in
    (omap id slots1, r2).

Definition accumulateResultAmid (results : list ValidationResult.t)
    (rules : list (loc * BaseValidationRule.t)) : Promise (list ValidationResult.t) :=
  Promise_then (validateRulesetAmid rules) (fun result => Promise_resolve (results ++ result)).

Definition reducerAmid (acc : Promise (list ValidationResult.t) * Run.t)
    (ruleset : list (loc * BaseValidationRule.t))
  : Promise (list ValidationResult.t) * Run.t :=
  let '(acc, r) := acc in
  (if Run.isValid r
   then Promise_then acc (fun accValidateResult => accumulateResultAmid accValidateResult ruleset)
   else acc,
   r).

Definition validateAmid (stages : list (list (loc * BaseValidationRule.t))) (r0 : Run.t)
  : list ValidationResult.t * Run.t :=
  let r := {| Run.isValid := true; Run.nextId := Run.nextId r0;
              Run.now := Run.now r0; Run.trace := Run.trace r0 |} in
  let '(promise, r1) := foldl reducerAmid (Promise_resolve [], r) stages in
  promise r1.

(** The stages one after the other, as the chain of jobs runs them. *)
Fixpoint runStagesAmid (results : list ValidationResult.t)
    (stages : list (list (loc * BaseValidationRule.t)))
  : Promise (list ValidationResult.t) :=
  match stages with
  | [] => Promise_resolve results
  | ruleset :: rest =>
      Promise_then (accumulateResultAmid results ruleset)
        (fun results1 => runStagesAmid results1 rest)
  end.

End Amid.

(** ** The message provider: [getMessage] *)

(** Modelled from the spec: an entry of the table of default messages of
    the rules module, as far as [getMessage] reads it: the name of the
    message and its text. Either may be [undefined] in an entry that
    JavaScript code has written, which is [None]. *)
Module ValidationRuleAlias.
Record t : Type := {
  name : option string;
  defaultMessage : option string
}.
End ValidationRuleAlias.

(** [!message] for a string or [undefined]. *)
Definition isFalsy (message : option string) : bool :=
  match message with
  | None => true
  | Some text => String.eqb text EmptyString
  end.

(** The message [getMessage] picks among the default messages of the
    rule, before the fallback. [m.name === messageKey] compares a string
    or [undefined] with a string or [undefined]: with no key it holds for
    the messages that have no name. *)
Definition pickMessage (validationMessages : list ValidationRuleAlias.t)
    (messageKey : option string) : option string :=
  if (length validationMessages =? 1) && bool_decide (messageKey = None)
  then validationMessages !! 0 ≫= ValidationRuleAlias.defaultMessage
  else
    List.find (fun m => bool_decide (ValidationRuleAlias.name m = messageKey))
      validationMessages
    ≫= ValidationRuleAlias.defaultMessage.

Section GetMessage.

Variable parser : IExpressionParser.

(** [this.parseMessage(undefined)], reached when the first default message
    of the base rule has no text: what the parser makes of [undefined] is
    not told, so it is a parameter. *)
Variable parseUndefined : list string -> Completion MessageExpression * list string.

(** [getMessage(rule)], given the default messages of the rule and those
    of [BaseValidationRule], which
    [ValidationRuleAliasMessage.getDefaultMessages] returns. *)
Definition getMessage (validationMessages baseMessages : list ValidationRuleAlias.t)
    (messageKey : option string) (log : list string)
  : Completion MessageExpression * list string :=
  let message := pickMessage validationMessages messageKey in
  if isFalsy message then
    match baseMessages !! 0 with
    | None => (Throw "TypeError: Cannot read properties of undefined (reading 'defaultMessage')",
               log)
    | Some base =>
        match ValidationRuleAlias.defaultMessage base with
        | Some text => parseMessage parser text log
        | None => parseUndefined log
        end
    end
  else
    match message with
    | Some text => parseMessage parser text log
    | None => parseUndefined log
    end.

End GetMessage.


(** ** Reading the accessor patterns *)

(** The loop of [Star] in [Regex.run], by name. *)
Definition starLoop {R : Type} (r1 : Regex.regex)
    (k : list ascii -> option (list ascii) -> option R)
  : nat -> list ascii -> option (list ascii) -> option R :=
  fix loop (fuel : nat) (s : list ascii) (cap : option (list ascii)) : option R :=
    match fuel with
    | O => k s cap
    | S fuel' =>
        match Regex.run r1 s cap (fun s' cap' =>
                if (List.length s' <? List.length s)%nat then loop fuel' s' cap' else None) with
        | Some x => Some x
        | None => k s cap
        end
    end.

(** A text of one or more identifier characters, [[$_\w\d]+]. *)
Definition identifierText (s : string) : bool :=
  negb (String.eqb s EmptyString) && MiniParser.allIdent s.

(** The characters of the member accesses [.a.b] and so on of a path. *)
Definition memberChain (path : list string) : list ascii :=
  concat ((fun name => "."%char :: list_ascii_of_string name) <$> path).

(** [(\.[$_\w\d]+|\[['\x22$_\w\d]+\])], one access of the chain. *)
Definition oneAccess : Regex.regex :=
  Regex.Alt (Regex.Seq (Regex.Chr ".") (Regex.Plus (Regex.Class Regex.ident)))
            (Regex.seqs [Regex.Chr "["; Regex.Plus (Regex.Class Regex.indexChar); Regex.Chr "]"]).


(** ** Eligibility in the words of the specification *)

(** A rule is to be executed when [canExecute(object)] holds and either no
    tag is given or the tag of the rule is the tag given. *)
Definition shouldExecute (object : option Target) (tag : option string)
    (rule : loc * BaseValidationRule.t) : Prop :=
  BaseValidationRule.canExecute rule.2 object = true
  ∧ (tag = None ∨ BaseValidationRule.tag rule.2 = tag).

#[global] Instance shouldExecute_dec (object : option Target) (tag : option string)
    (rule : loc * BaseValidationRule.t) : Decision (shouldExecute object tag rule).
Proof. unfold shouldExecute. apply _. Defined.

(** A rule with a tag and a condition whose [execute] returns [outcome]. *)
Definition ruleWith (tag : option string) (canExecute : option Target -> bool)
    (outcome : Outcome) : BaseValidationRule.t :=
  {| BaseValidationRule.messageKey := None;
     BaseValidationRule.message := anyMessage;
     BaseValidationRule.tag := tag;
     BaseValidationRule.canExecute := canExecute;
     BaseValidationRule.execute := fun _ _ => outcome |}.


(** ** Parent scopes in the words of the specification *)

(** An expression refers to a parent scope when it is [$parent] itself or
    a name looked up in an ancestor scope, or when it is built on such an
    expression. *)
Fixpoint mentionsParent (e : IsBindingBehavior) : bool :=
  match e with
  | AccessThisExpression ancestor => (0 <? ancestor)%nat
  | AccessScopeExpression _ ancestor => (0 <? ancestor)%nat
  | AccessMemberExpression object _ => mentionsParent object
  | OtherExpression _ ancestor =>
      match ancestor with
      | Some a => (0 <? a)%nat
      | None => false
      end
  end.

(** * Properties *)

(** ** Strings *)

Lemma append_nil_l (s : string) : EmptyString +:+ s = s.
Proof. reflexivity. Qed.

Lemma append_cons (c : ascii) (s t : string) : String c s +:+ t = String c (s +:+ t).
Proof. reflexivity. Qed.

Lemma append_empty_r (s : string) : s +:+ EmptyString = s.
Proof. induction s as [|c s IH]; [reflexivity | by rewrite append_cons, IH]. Qed.

Lemma append_assoc (a b c : string) : (a +:+ b) +:+ c = a +:+ (b +:+ c).
Proof. induction a as [|x a IH]; [reflexivity | by rewrite !append_cons, IH]. Qed.

(** ** Display names and message rendering *)












(** ** [parsePropertyName] *)

Lemma parsePropertyName_string (s : string) (parser : IExpressionParser) :
  parsePropertyName (ArgString s) parser
  = match parseProperty parser s with
    | Normal expression => Normal (s, expression)
    | Throw e => Throw e
    end.
Proof. reflexivity. Qed.

Lemma parsePropertyName_unrecognized (fn : string) (parser : IExpressionParser) :
  Regex.exec Regex.classic fn = None →
  Regex.exec Regex.arrow fn = None →
  parsePropertyName (ArgFunction fn) parser = Throw (accessorError fn).
Proof.
  intros Hc Ha. unfold parsePropertyName, resolvePropertyName, matchAccessor.
  by rewrite Hc, Ha.
Qed.

Lemma parsePropertyName_other (text : string) (parser : IExpressionParser) :
  parsePropertyName (ArgOther text) parser = Throw (accessorError text).
Proof. reflexivity. Qed.

Lemma parsePropertyName_number (n : Z) (parser : IExpressionParser) :
  parsePropertyName (ArgNumber n) parser = Throw (accessorError (JsString.ofZ n)).
Proof. reflexivity. Qed.

Lemma parsePropertyName_recognized (fn group1 : string) (parser : IExpressionParser) :
  matchAccessor fn = Some (Some group1) →
  parsePropertyName (ArgFunction fn) parser
  = match parseProperty parser (JsString.slice1 group1) with
    | Normal expression => Normal (JsString.slice1 group1, expression)
    | Throw e => Throw e
    end.
Proof.
  intros H. unfold parsePropertyName, resolvePropertyName. by rewrite H.
Qed.

(** Accessors of both shapes, and sources of neither. *)
Example resolve_arrow :
  resolvePropertyName (ArgFunction "x => x.a.b['c']") = Normal "a.b['c']".
Proof. vm_compute. reflexivity. Qed.

Example resolve_classic :
  resolvePropertyName (ArgFunction "function (o) { return o.prop; }") = Normal "prop".
Proof. vm_compute. reflexivity. Qed.

Example resolve_classic_strict :
  resolvePropertyName (ArgFunction "function(o){ 'use strict'; return o.items[0].name }")
  = Normal "items[0].name".
Proof. vm_compute. reflexivity. Qed.

Example resolve_identity :
  resolvePropertyName (ArgFunction "x => x") = Throw (accessorError "x => x").
Proof. vm_compute. reflexivity. Qed.

Example resolve_sum :
  resolvePropertyName (ArgFunction "x => x.a + 1") = Throw (accessorError "x => x.a + 1").
Proof. vm_compute. reflexivity. Qed.

(** C9, at an accessor whose chain starts with an index access: the source
    matches the arrow pattern and capture group 1 is the whole chain, an
    index access in brackets with no leading dot. [substring(1)] removes
    the opening bracket, and the name handed to the parser is the rest: a
    quoted [a] and a closing bracket. *)
Theorem parsePropertyName_index_first (parser : IExpressionParser) :
  Regex.exec Regex.arrow "x => x['a']" = Some (Some "['a']")
  ∧ parsePropertyName (ArgFunction "x => x['a']") parser
    = match parseProperty parser "'a']" with
      | Normal expression => Normal ("'a']", expression)
      | Throw e => Throw e
      end.
Proof.
  split; [vm_compute; reflexivity |].
  apply (parsePropertyName_recognized "x => x['a']" "['a']").
  vm_compute. reflexivity.
Qed.

(** ** [parseMessage] *)

Lemma checkExpressions_throws (message : string) (exprs : list IsBindingBehavior) (log : list string) :
  Exists (λ e, referencesParent e = true) exprs →
  (checkExpressions message exprs log).1 = Throw parentError.
Proof.
  intros H. revert log. induction H as [e rest He | e rest _ IH]; intros log; simpl.
  - by rewrite He.
  - destruct (referencesParent e); [reflexivity | apply IH].
Qed.

Lemma checkExpressions_passes (message : string) (exprs : list IsBindingBehavior) (log : list string) :
  Forall (λ e, referencesParent e = false) exprs →
  checkExpressions message exprs log = (Normal tt, log ++ warningsOf message exprs).
Proof.
  intros H. revert log. induction H as [| e rest He _ IH]; intros log; simpl.
  - by rewrite app_nil_r.
  - rewrite He, IH. unfold warningsOf. simpl.
    destruct (contextualProperties_has (expressionName e)); simpl.
    + by rewrite <- app_assoc.
    + reflexivity.
Qed.

Lemma warningsOf_reserved (message name : string) (exprs : list IsBindingBehavior) :
  AccessScopeExpression name 0 ∈ exprs →
  name ∈ contextualProperties →
  warningText name message ∈ warningsOf message exprs.
Proof.
  intros Hin Hname. unfold warningsOf. apply list_elem_of_omap.
  exists (AccessScopeExpression name 0). split; [done |]. simpl.
  by rewrite bool_decide_eq_true_2.
Qed.

(** What [parseMessage] checks. When the parser compiles the template to
    an interpolation, [parseMessage] throws as soon as one of its
    expressions is itself an [AccessThisExpression] or has an ancestor above
    zero. When no expression does, it returns the interpolation, and what
    it logs is one warning for each expression whose name is a reserved
    contextual name. *)
Lemma parseMessage_checks (parser : IExpressionParser) (message : string) (log : list string) :
  (∀ parsed : Interpolation,
     parseInterpolation parser message = Normal (Some parsed) →
     ((∃ e, e ∈ expressions parsed ∧ referencesParent e = true) →
      (parseMessage parser message log).1 = Throw parentError)
     ∧ ((∀ e, e ∈ expressions parsed → referencesParent e = false) →
        parseMessage parser message log
        = (Normal (MessageInterpolation parsed),
           log ++ warningsOf message (expressions parsed))
        ∧ ∀ name, AccessScopeExpression name 0 ∈ expressions parsed →
                  name ∈ contextualProperties →
                  warningText name message ∈ warningsOf message (expressions parsed)))
  ∧ (parseMessage MiniParser.parser "${$parent.something} is invalid" log).1
    = Throw parentError
  ∧ parseMessage MiniParser.parser "${value} is invalid" log
    = (Normal (MessageInterpolation
                 {| parts := [EmptyString; " is invalid"];
                    expressions := [AccessScopeExpression "value" 0] |}),
       log ++ [warningText "value" "${value} is invalid"]).
Proof.
  split; [| split; reflexivity].
  intros parsed Hparsed. unfold parseMessage. rewrite Hparsed. split.
  - intros (e & Hin & He).
    pose proof (checkExpressions_throws message (expressions parsed) log) as H.
    destruct (checkExpressions message (expressions parsed) log) as [[?|?] ?]; simpl in *.
    + assert (Normal value = Throw parentError) by (apply H, Exists_exists; eauto). done.
    + f_equal. assert (Throw message0 = @Throw unit parentError) as Heq
        by (apply H, Exists_exists; eauto).
      by injection Heq.
  - intros Hall. rewrite checkExpressions_passes by (by apply Forall_forall).
    split; [reflexivity |]. intros name. apply warningsOf_reserved.
Qed.

(** The template with a bare [value], through the general statement. *)
Example parseMessage_checks_value :
  parseMessage MiniParser.parser "${value} is invalid" []
  = (Normal (MessageInterpolation
               {| parts := [EmptyString; " is invalid"];
                  expressions := [AccessScopeExpression "value" 0] |}),
     [] ++ warningsOf "${value} is invalid" [AccessScopeExpression "value" 0]).
Proof.
  refine (proj1 (proj2 (proj1 (parseMessage_checks MiniParser.parser "${value} is invalid" [])
            {| parts := [EmptyString; " is invalid"];
               expressions := [AccessScopeExpression "value" 0] |} eq_refl) _)).
  intros e He. apply list_elem_of_singleton in He. subst e. reflexivity.
Defined.

(** C6, at a template that refers to the parent scope inside a member
    access. [parseMessage] tests the expressions of the interpolation
    themselves and does not look inside them: an interpolation all of whose
    expressions are member accesses is returned without a throw, whatever
    the objects of the accesses refer to. The template
    [${$parent.a.b} is invalid] compiles to the member [b] of the name [a]
    looked up in the parent scope, which refers to the parent scope, and
    [parseMessage] returns it and logs nothing, although it throws
    [$parent is not permitted in validation message expressions.] for the
    templates with [$parent] and with [$parent.a]. *)
Theorem parseMessage_accepts_nested_parent :
  (∀ (parser : IExpressionParser) (message : string) (log : list string)
     (parsed : Interpolation),
     parseInterpolation parser message = Normal (Some parsed) →
     Forall (λ e, ∃ object name, e = AccessMemberExpression object name)
       (expressions parsed) →
     (parseMessage parser message log).1 = Normal (MessageInterpolation parsed))
  ∧ (let nested := AccessMemberExpression (AccessScopeExpression "a" 1) "b" in
     mentionsParent nested = true
     ∧ parseMessage MiniParser.parser "${$parent.a.b} is invalid" []
       = (Normal (MessageInterpolation
                    {| parts := [EmptyString; " is invalid"]; expressions := [nested] |}),
          []))
  ∧ parseMessage MiniParser.parser "${$parent.a} is invalid" [] = (Throw parentError, [])
  ∧ parseMessage MiniParser.parser "${$parent} is invalid" [] = (Throw parentError, [])
  ∧ parentError = "$parent is not permitted in validation message expressions.".
Proof.
  split; [| cbv zeta; split_and!; reflexivity].
  intros parser message log parsed Hparsed Hmembers. unfold parseMessage. rewrite Hparsed.
  rewrite checkExpressions_passes; [done |].
  eapply Forall_impl; [exact Hmembers |]. by intros e (object & name & ->).
Qed.

(** ** The registrar *)

Section MetadataFacts.
Context (target : Target) (m : gmap Target Metadata.entries).

Lemma getOwn_define (key : string) (value : loc) :
  Metadata.getOwn key target (Metadata.define key value target m) = Some value.
Proof.
  unfold Metadata.getOwn, Metadata.define, Metadata.entriesOf.
  rewrite lookup_insert_eq. simpl. apply lookup_insert_eq.
Qed.

Lemma getOwn_define_ne (key key' : string) (value : loc) :
  key ≠ key' →
  Metadata.getOwn key' target (Metadata.define key value target m)
  = Metadata.getOwn key' target m.
Proof.
  intros Hne. unfold Metadata.getOwn, Metadata.define, Metadata.entriesOf.
  rewrite lookup_insert_eq. simpl. by apply lookup_insert_ne.
Qed.

Lemma getOwn_delete (key : string) :
  Metadata.getOwn key target (Metadata.delete key target m) = None.
Proof.
  unfold Metadata.getOwn, Metadata.delete, Metadata.entriesOf.
  rewrite lookup_insert_eq. simpl. apply lookup_delete_eq.
Qed.

Lemma getOwn_defineKeys (key : string) (keys : list string) :
  Metadata.getOwn key target (Metadata.defineKeys keys target m)
  = Metadata.getOwn key target m.
Proof.
  unfold Metadata.getOwn, Metadata.defineKeys, Metadata.entriesOf.
  by rewrite lookup_insert_eq.
Qed.

Lemma getOwnKeys_define (key : string) (value : loc) :
  Metadata.getOwnKeys target (Metadata.define key value target m)
  = Metadata.getOwnKeys target m.
Proof.
  unfold Metadata.getOwnKeys, Metadata.define, Metadata.entriesOf.
  by rewrite lookup_insert_eq.
Qed.

Lemma getOwnKeys_delete (key : string) :
  Metadata.getOwnKeys target (Metadata.delete key target m)
  = Metadata.getOwnKeys target m.
Proof.
  unfold Metadata.getOwnKeys, Metadata.delete, Metadata.entriesOf.
  by rewrite lookup_insert_eq.
Qed.

Lemma getOwnKeys_defineKeys (keys : list string) :
  Metadata.getOwnKeys target (Metadata.defineKeys keys target m) = Some keys.
Proof.
  unfold Metadata.getOwnKeys, Metadata.defineKeys, Metadata.entriesOf.
  by rewrite lookup_insert_eq.
Qed.
End MetadataFacts.

Lemma prefix_append (p s : string) : String.prefix p (p +:+ s) = true.
Proof.
  induction p as [|c p IH]; [by destruct s |].
  rewrite append_cons. simpl. destruct (ascii_dec c c); [apply IH | done].
Qed.

Lemma rev_cons (c : ascii) (s : string) :
  JsString.reverse (String c s) = JsString.reverse s +:+ String c EmptyString.
Proof. reflexivity. Qed.

Lemma rev_append (a b : string) :
  JsString.reverse (a +:+ b) = JsString.reverse b +:+ JsString.reverse a.
Proof.
  induction a as [|c a IH].
  - by rewrite append_nil_l, append_empty_r.
  - by rewrite append_cons, !rev_cons, IH, append_assoc.
Qed.

Lemma endsWith_append (a t : string) : JsString.endsWith (a +:+ t) t = true.
Proof. unfold JsString.endsWith. rewrite rev_append. apply prefix_append. Qed.


Lemma keyFor_context (t : string) :
  Protocol.annotation_keyFor (validationRulesRegistrar.name +:+ ":" +:+ t) None
  = Protocol.annotation_keyFor validationRulesRegistrar.name (Some t).
Proof. reflexivity. Qed.

Lemma registrar_get_set (target : Target) (rules : loc) (tag : option string)
    (m : gmap Target Metadata.entries) :
  validationRulesRegistrar.get target tag (validationRulesRegistrar.set target rules tag m)
  = Some rules.
Proof.
  unfold validationRulesRegistrar.get, validationRulesRegistrar.set.
  rewrite getOwnKeys_define.
  destruct (Metadata.getOwnKeys target m); rewrite getOwn_defineKeys, keyFor_context;
    apply getOwn_define.
Qed.







(** C10. On a target whose index of annotation keys is absent, [unset]
    does not return: reading the absent index gives [undefined], and
    [slice] on it throws. After a [set] on the target the index is there
    and [unset] returns. *)
Theorem unset_before_set_throws (target : Target) (tag : option string)
    (m : gmap Target Metadata.entries) :
  Metadata.getOwnKeys target m = None →
  isThrow (validationRulesRegistrar.unset target tag m) = true
  ∧ ∀ (rules : loc) (tag' : option string),
      isThrow (validationRulesRegistrar.unset target tag
                 (validationRulesRegistrar.set target rules tag' m)) = false.
Proof.
  intros Hnone. split.
  - unfold validationRulesRegistrar.unset. by rewrite Hnone.
  - intros rules tag'. unfold validationRulesRegistrar.unset, validationRulesRegistrar.set.
    rewrite getOwnKeys_define, Hnone. by rewrite getOwnKeys_defineKeys.
Qed.

Lemma unset_before_set_throws_witness :
  isThrow (validationRulesRegistrar.unset 0 (Some "t1") ∅) = true
  ∧ ∀ (rules : loc) (tag' : option string),
      isThrow (validationRulesRegistrar.unset 0 (Some "t1")
                 (validationRulesRegistrar.set 0 rules tag' ∅)) = false.
Proof. apply (unset_before_set_throws 0 (Some "t1") ∅). reflexivity. Defined.




(** ** The builder *)

Ltac store_simpl :=
  cbn [ruleHeap propertyRuleHeap arrayHeap builderHeap metadata logged
       withRuleHeap withPropertyRuleHeap withArrayHeap withBuilderHeap
       withMetadata withLogged fst snd] in *.

Ltac unfold_monad :=
  unfold bind, ret, throw, lift, readRule, readPropertyRule, readArray, readBuilder, deref,
    writeRule, writePropertyRule, writeArray, writeBuilder,
    newPropertyRule, newArray, newRule in *.

Section BuilderFacts.
Context (looseEqualsNumber : Z -> string -> bool) (parser : IExpressionParser).

Lemma findByName_findInHeap (name : string) (refs : list loc) (st : Store) :
  findByName looseEqualsNumber name refs st
  = (findInHeap looseEqualsNumber (propertyRuleHeap st) name refs, st).
Proof.
  induction refs as [| r rest IH]; simpl; [reflexivity |].
  unfold bind, readPropertyRule, deref.
  destruct (propertyRuleHeap st !! r) as [pr|]; [| reflexivity].
  destruct (looseEquals _ _ _); [reflexivity | apply IH].
Qed.

Lemma findInHeap_Some (heap : list PropertyRule.t) (name : string) (refs : list loc) (r : loc) :
  findInHeap looseEqualsNumber heap name refs = Normal (Some r) →
  ∃ pr, heap !! r = Some pr
        ∧ looseEquals looseEqualsNumber (RuleProperty.name (PropertyRule.property pr)) name = true.
Proof.
  induction refs as [| r' rest IH]; simpl; [done |].
  destruct (heap !! r') as [pr|] eqn:Hr'; [| done].
  destruct (looseEquals _ _ _) eqn:Heq; [| apply IH].
  intros [= <-]. eauto.
Qed.


(** What a call of [ensure] that returns has done: it found a rule and
    changed nothing, or it appended a new rule to the heap and to the
    array of the builder. *)
Lemma ValidationRules_ensure_returns (this : loc) (property : PropertyArg)
    (st st' : Store) (r : loc) :
  ValidationRules_ensure looseEqualsNumber parser this property st = (Normal r, st') →
  ∃ name expression b rules,
    parsePropertyName property parser = Normal (name, expression)
    ∧ builderHeap st !! this = Some b
    ∧ arrayHeap st !! ValidationRules.rules b = Some rules
    ∧ ((findInHeap looseEqualsNumber (propertyRuleHeap st) name rules = Normal (Some r)
        ∧ st' = st)
       ∨ (findInHeap looseEqualsNumber (propertyRuleHeap st) name rules = Normal None
          ∧ r = length (propertyRuleHeap st)
          ∧ st' = withArrayHeap (<[ValidationRules.rules b := rules ++ [r]]> (arrayHeap st))
                    (withPropertyRuleHeap
                       (propertyRuleHeap st
                        ++ [freshPropertyRule this (Some expression) (Some (NameString name))])
                       st))).
Proof.
  unfold ValidationRules_ensure, bind, lift, readBuilder, readArray, deref.
  destruct (parsePropertyName property parser) as [[name expression]|] eqn:Hparse; [| done].
  destruct (builderHeap st !! this) as [b|] eqn:Hb; [| done].
  destruct (arrayHeap st !! ValidationRules.rules b) as [rules|] eqn:Hrules; [| done].
  rewrite findByName_findInHeap.
  destruct (findInHeap _ _ _ _) as [[found|]|] eqn:Hfind; [| | done].
  - intros [= <- <-]. exists name, expression, b, rules. eauto 10.
  - unfold newPropertyRule, pushRule, bind, readBuilder, readArray, deref, writeArray, ret.
    store_simpl. rewrite Hb. store_simpl. rewrite Hrules. intros [= <- <-].
    exists name, expression, b, rules. split_and!; [done.. |]. right. done.
Qed.
End BuilderFacts.

Section BuilderClaims.
Context (looseEqualsNumber : Z -> string -> bool) (parser : IExpressionParser).



Lemma ensureObject_returns (this : loc) (st : Store) (b : ValidationRules.t) (rules : list loc) :
  builderHeap st !! this = Some b →
  arrayHeap st !! ValidationRules.rules b = Some rules →
  ValidationRules_ensureObject this st
  = (Normal (length (propertyRuleHeap st)),
     withArrayHeap (<[ValidationRules.rules b := rules ++ [length (propertyRuleHeap st)]]>
                      (arrayHeap st))
       (withPropertyRuleHeap (propertyRuleHeap st ++ [freshPropertyRule this None None]) st)).
Proof.
  intros Hb Hrules. unfold ValidationRules_ensureObject, pushRule. unfold_monad.
  store_simpl. rewrite Hb. store_simpl. by rewrite Hrules.
Qed.

Lemma ensureObject_inv (this : loc) (st st' : Store) (r : loc) :
  ValidationRules_ensureObject this st = (Normal r, st') →
  ∃ b rules, builderHeap st !! this = Some b
             ∧ arrayHeap st !! ValidationRules.rules b = Some rules.
Proof.
  unfold ValidationRules_ensureObject, pushRule. unfold_monad. store_simpl.
  destruct (builderHeap st !! this) as [b|] eqn:Hb; [| done]. store_simpl.
  destruct (arrayHeap st !! ValidationRules.rules b) as [rules|] eqn:Hrules; [| done].
  intros _. by exists b, rules.
Qed.


End BuilderClaims.



(** C2. [on(target, tag)] on a builder whose rules are the very list
    registered on the target for the tag returns at once and changes
    nothing. Otherwise the rules of the builder become the list registered
    for the tag when there is one, and a new empty list when there is none;
    after the call the registrar holds that list for the target and the
    tag, and the target is among the targets of the builder. *)
Theorem on_adopts_and_persists (st : Store) (this : loc) (b : ValidationRules.t)
    (target : Target) (tag : option string) :
  builderHeap st !! this = Some b →
  let registered := validationRulesRegistrar.get target tag (metadata st) in
  (registered = Some (ValidationRules.rules b) →
   ValidationRules_on this target tag st = (Normal this, st))
  ∧ (registered ≠ Some (ValidationRules.rules b) →
     ∃ (st' : Store) (b' : ValidationRules.t),
       ValidationRules_on this target tag st = (Normal this, st')
       ∧ builderHeap st' !! this = Some b'
       ∧ match registered with
         | Some list => ValidationRules.rules b' = list ∧ arrayHeap st' = arrayHeap st
         | None => arrayHeap st !! ValidationRules.rules b' = None
                   ∧ arrayHeap st' !! ValidationRules.rules b' = Some []
         end
       ∧ validationRulesRegistrar.get target tag (metadata st')
         = Some (ValidationRules.rules b')
       ∧ target ∈ ValidationRules.targets b').
Proof.
  intros Hb registered. unfold ValidationRules_on. unfold_monad. rewrite Hb. fold registered.
  split.
  - intros ->. by rewrite bool_decide_eq_true_2.
  - intros Hne. rewrite bool_decide_eq_false_2 by done.
    assert (this < length (builderHeap st)) as Hlt by (by eapply lookup_lt_Some).
    destruct registered as [list|] eqn:Hreg.
    + eexists _, _. split; [reflexivity |]. store_simpl.
      split; [rewrite list_lookup_insert_eq; [done | by rewrite length_insert] |].
      simpl. split_and!; [done | done | apply registrar_get_set | set_solver].
    + eexists _, _. split; [reflexivity |]. store_simpl.
      split; [rewrite list_lookup_insert_eq; [done | by rewrite length_insert] |].
      simpl. split_and!; [| | apply registrar_get_set | set_solver].
      * apply lookup_ge_None. lia.
      * rewrite lookup_app_r by lia. by rewrite Nat.sub_diag.
Qed.

Lemma on_adopts_and_persists_witness :
  let st := (newValidationRules emptyStore).2 in
  ∃ (st' : Store) (b' : ValidationRules.t),
    ValidationRules_on 0 7 (Some "t1") st = (Normal 0, st')
    ∧ builderHeap st' !! 0 = Some b'
    ∧ (arrayHeap st !! ValidationRules.rules b' = None
       ∧ arrayHeap st' !! ValidationRules.rules b' = Some [])
    ∧ validationRulesRegistrar.get 7 (Some "t1") (metadata st') = Some (ValidationRules.rules b')
    ∧ 7 ∈ ValidationRules.targets b'.
Proof.
  intros st.
  apply (proj2 (on_adopts_and_persists st 0
                  {| ValidationRules.rules := 0; ValidationRules.targets := ∅ |}
                  7 (Some "t1") eq_refl)).
  discriminate.
Defined.

(** ** Chain boundaries *)

Section ChainFacts.
Context (looseEqualsNumber : Z -> string -> bool) (parser : IExpressionParser).

Lemma modifiers_throw_without_latest (st : Store) (this : loc) (pr : PropertyRule.t) :
  propertyRuleHeap st !! this = Some pr →
  PropertyRule.latestRule pr = None →
  modifiersThrow parser this st.
Proof.
  intros Hthis Hnone key message tag condition.
  unfold PropertyRule_withMessageKey, PropertyRule_withMessage, PropertyRule_when,
    PropertyRule_tag, assertLatesRule.
  unfold_monad. rewrite Hthis, Hnone. done.
Qed.

Lemma ValidationRules_ensure_preserves (this : loc) (property : PropertyArg)
    (st st' : Store) (c : Completion loc) :
  ValidationRules_ensure looseEqualsNumber parser this property st = (c, st') →
  ∀ r pr, propertyRuleHeap st !! r = Some pr → propertyRuleHeap st' !! r = Some pr.
Proof.
  unfold ValidationRules_ensure, pushRule. unfold_monad.
  destruct (parsePropertyName property parser) as [[name expression]|]; [| by intros [= <- <-]].
  destruct (builderHeap st !! this) as [b|] eqn:Hb; [| by intros [= <- <-]].
  destruct (arrayHeap st !! ValidationRules.rules b) as [rules|] eqn:Hr; [| by intros [= <- <-]].
  rewrite findByName_findInHeap.
  destruct (findInHeap _ _ _ _) as [[found|]|]; [by intros [= <- <-] | | by intros [= <- <-]].
  store_simpl. rewrite Hb. store_simpl. rewrite Hr.
  intros [= <- <-] r pr Hpr. store_simpl.
  rewrite lookup_app_l by (by eapply lookup_lt_Some). done.
Qed.

Lemma ValidationRules_ensureObject_preserves (this : loc) (st st' : Store) (c : Completion loc) :
  ValidationRules_ensureObject this st = (c, st') →
  ∀ r pr, propertyRuleHeap st !! r = Some pr → propertyRuleHeap st' !! r = Some pr.
Proof.
  unfold ValidationRules_ensureObject, pushRule. unfold_monad. store_simpl.
  destruct (builderHeap st !! this) as [b|] eqn:Hb; store_simpl;
    [destruct (arrayHeap st !! ValidationRules.rules b) as [rules|] eqn:Hr |];
    intros [= <- <-] r pr Hpr; store_simpl;
    rewrite lookup_app_l by (by eapply lookup_lt_Some); done.
Qed.

(** [this.latestRule = void 0], then the call on the builder. *)
Lemma PropertyRule_ensure_steps (this : loc) (property : PropertyArg) (st : Store)
    (pr : PropertyRule.t) :
  propertyRuleHeap st !! this = Some pr →
  let reset := {| PropertyRule.validationRules := PropertyRule.validationRules pr;
                  PropertyRule.property := PropertyRule.property pr;
                  PropertyRule._rules := PropertyRule._rules pr;
                  PropertyRule.latestRule := None |} in
  let st0 := withPropertyRuleHeap (<[this := reset]> (propertyRuleHeap st)) st in
  propertyRuleHeap st0 !! this = Some reset
  ∧ PropertyRule_ensure looseEqualsNumber parser this property st
    = ValidationRules_ensure looseEqualsNumber parser (PropertyRule.validationRules pr)
        property st0
  ∧ PropertyRule_ensureObject this st
    = ValidationRules_ensureObject (PropertyRule.validationRules pr) st0.
Proof.
  intros Hthis reset st0.
  assert (propertyRuleHeap st0 !! this = Some reset) as Hreset.
  { unfold st0. store_simpl. apply list_lookup_insert_eq. by eapply lookup_lt_Some. }
  split; [done |].
  unfold PropertyRule_ensure, PropertyRule_ensureObject, PropertyRule_resetLatestRule.
  unfold_monad. rewrite Hthis. fold reset. fold st0. by rewrite Hreset.
Qed.

(** C4, as amended. Each of [withMessageKey], [withMessage], [when] and
    [tag] throws, changing nothing, on a property rule whose [latestRule]
    is [undefined]. [ensure] and [ensureObject] called on a property rule
    set its [latestRule] to [undefined], whether they return or throw.
    The property rule that [ensureObject] returns, and the one that
    [ensure] returns when it is the receiver itself or a property rule
    made by the call, has no latest rule: each of the four modifiers
    called on it next throws. *)
Theorem modifiers_after_chain_boundary (st : Store) (this : loc) (pr : PropertyRule.t) :
  propertyRuleHeap st !! this = Some pr →
  (PropertyRule.latestRule pr = None → modifiersThrow parser this st)
  ∧ (∀ (property : PropertyArg) (c : Completion loc) (st' : Store),
       PropertyRule_ensure looseEqualsNumber parser this property st = (c, st')
       ∨ PropertyRule_ensureObject this st = (c, st') →
       ∃ pr', propertyRuleHeap st' !! this = Some pr' ∧ PropertyRule.latestRule pr' = None)
  ∧ (∀ (property : PropertyArg) (r : loc) (st' : Store),
       PropertyRule_ensure looseEqualsNumber parser this property st = (Normal r, st') →
       r = this ∨ propertyRuleHeap st !! r = None →
       modifiersThrow parser r st')
  ∧ (∀ (r : loc) (st' : Store),
       PropertyRule_ensureObject this st = (Normal r, st') →
       propertyRuleHeap st !! r = None ∧ modifiersThrow parser r st').
Proof.
  intros Hthis.
  split; [intros Hnone; by eapply modifiers_throw_without_latest |].
  assert (∀ (property : PropertyArg) (c : Completion loc) (st' : Store),
       PropertyRule_ensure looseEqualsNumber parser this property st = (c, st')
       ∨ PropertyRule_ensureObject this st = (c, st') →
       ∃ pr', propertyRuleHeap st' !! this = Some pr' ∧ PropertyRule.latestRule pr' = None)
    as Hreset.
  { intros property c st' Hcall.
    destruct (PropertyRule_ensure_steps this property st pr Hthis) as (Hreset & He & Ho).
    eexists. split; [| shelve].
    destruct Hcall as [Hcall | Hcall].
    - rewrite He in Hcall. by eapply ValidationRules_ensure_preserves.
    - rewrite Ho in Hcall. by eapply ValidationRules_ensureObject_preserves.
    Unshelve. reflexivity. }
  split; [exact Hreset |]. split.
  - intros property r st' Hcall [-> | Hnew].
    + destruct (Hreset property (Normal this) st' (or_introl Hcall)) as (pr' & Hpr' & Hnone).
      by eapply modifiers_throw_without_latest.
    + destruct (PropertyRule_ensure_steps this property st pr Hthis) as (_ & He & _).
      rewrite He in Hcall.
      apply ValidationRules_ensure_returns in Hcall
        as (name & expression & b & rules & _ & _ & _ & Hcases).
      store_simpl.
      destruct Hcases as [[Hfound _] | (_ & -> & ->)].
      * apply findInHeap_Some in Hfound as (pr0 & Hpr0 & _).
        apply lookup_lt_Some in Hpr0. rewrite length_insert in Hpr0.
        apply lookup_ge_None in Hnew. lia.
      * eapply modifiers_throw_without_latest;
          [store_simpl; rewrite lookup_app_r by lia; by rewrite Nat.sub_diag | reflexivity].
  - intros r st' Hcall.
    destruct (PropertyRule_ensure_steps this (ArgString EmptyString) st pr Hthis)
      as (_ & _ & Ho).
    rewrite Ho in Hcall.
    destruct (ensureObject_inv _ _ _ _ Hcall) as (b & rules & Hb & Hrules).
    rewrite (ensureObject_returns _ _ _ _ Hb Hrules) in Hcall.
    injection Hcall as <- <-. store_simpl. rewrite length_insert. split.
    + apply lookup_ge_None. lia.
    + eapply modifiers_throw_without_latest;
        [store_simpl; rewrite lookup_app_r by (rewrite length_insert; lia);
         by rewrite length_insert, Nat.sub_diag | reflexivity].
Qed.

End ChainFacts.

Lemma modifiers_after_chain_boundary_witness :
  let st := (ValidationRules_ensure decimalEquals MiniParser.parser 0 (ArgString "a")
               (newValidationRules emptyStore).2).2 in
  modifiersThrow MiniParser.parser 0 st
  ∧ modifiersThrow MiniParser.parser 1
      (PropertyRule_ensure decimalEquals MiniParser.parser 0 (ArgString "b") st).2.
Proof.
  intros st.
  pose proof (modifiers_after_chain_boundary decimalEquals MiniParser.parser st 0
                (freshPropertyRule 0 (Some (AccessScopeExpression "a" 0)) (Some (NameString "a")))
                eq_refl) as (Hnone & _ & Hensure & _).
  split.
  - apply Hnone. reflexivity.
  - apply (Hensure (ArgString "b") 1); [reflexivity | right; reflexivity].
Defined.

(** C4, the claim as stated fails: in the chain [comeBack], [ensure]
    returns a property rule that exists already and is not the receiver;
    its latest rule is still the one added to it before, and the modifier
    called right after [ensure] does not throw. *)
Lemma modifier_after_ensure_counterexample :
  isThrow (comeBack (λ pr, PropertyRule_withMessage MiniParser.parser pr "m") emptyStore).1 = false
  ∧ isThrow (comeBack (λ pr, PropertyRule_tag pr "t") emptyStore).1 = false
  ∧ isThrow (comeBack (λ pr, PropertyRule_when pr (λ _, true)) emptyStore).1 = false
  ∧ isThrow (comeBack (λ pr, PropertyRule_withMessageKey pr "k") emptyStore).1 = false.
Proof. vm_compute. done. Qed.

(** ** Validation runs *)

Lemma insertPending_Permutation (p : Pending) (l : list Pending) :
  insertPending p l ≡ₚ p :: l.
Proof.
  induction l as [| q l IH]; simpl; [done |].
  destruct (settlesAt p <=? settlesAt q); [done |].
  rewrite IH. apply Permutation_swap.
Qed.

Lemma bySettleTime_Permutation (l : list Pending) : bySettleTime l ≡ₚ l.
Proof.
  induction l as [| p l IH]; simpl; [done |].
  unfold bySettleTime in *. by rewrite insertPending_Permutation, IH.
Qed.

Lemma executedRules_app (t1 t2 : list Event) :
  executedRules (t1 ++ t2) = executedRules t1 ++ executedRules t2.
Proof. apply omap_app. Qed.

Section RunFacts.
Context (this : loc) (property : RuleProperty.t) (value : JsValue)
  (object : option Target) (tag : option string) (flags : nat).

Local Abbreviation rule_t := (loc * BaseValidationRule.t)%type.

(** Every eligible rule gets a slot, in the order of declaration; a rule
    that returned a boolean has its result there, and a rule that
    returned a promise has a waiting call. *)
Lemma launch_slots (rules done : list rule_t) (slots : list (option ValidationResult.t))
    (waiting : list Pending) (r : Run.t) :
  Forall2 (slotOf value object) done slots →
  Forall (waitingFor value object done) waiting →
  (∀ i, slots !! i = Some None → ∃ p, p ∈ waiting ∧ slot p = i) →
  ∀ slots' waiting' r',
    launch this property value object tag flags rules slots waiting r
    = (slots', waiting', r') →
    Forall2 (slotOf value object) (done ++ List.filter (eligible object tag) rules) slots'
    ∧ Forall (waitingFor value object (done ++ List.filter (eligible object tag) rules)) waiting'
    ∧ (∀ i, slots' !! i = Some None → ∃ p, p ∈ waiting' ∧ slot p = i).
Proof.
  revert done slots waiting r.
  induction rules as [| rule rest IH]; intros done slots waiting r Hslots Hwaiting Hcovered
    slots' waiting' r'; cbn [launch List.filter].
  - intros [= <- <- <-]. by rewrite app_nil_r.
  - destruct (eligible object tag rule) eqn:Helig; [| by apply IH].
    assert (∀ p, waitingFor value object done p → waitingFor value object (done ++ [rule]) p)
      as Hmono.
    { intros p [Hp Hb]. split; [| done]. by apply lookup_app_l_Some. }
    assert (done ++ rule :: List.filter (eligible object tag) rest
            = (done ++ [rule]) ++ List.filter (eligible object tag) rest) as ->
      by (by rewrite <- app_assoc).
    destruct (BaseValidationRule.execute rule.2 value object) as [b | delay b] eqn:Hexec.
    + apply IH.
      * apply Forall2_app; [done |]. constructor; [| constructor].
        split; [reflexivity |]. simpl. by rewrite Hexec.
      * eapply Forall_impl; [exact Hwaiting | exact Hmono].
      * intros i Hi. apply Hcovered.
        destruct (decide (i < length slots)) as [Hlt | Hge].
        -- by rewrite lookup_app_l in Hi.
        -- rewrite lookup_app_r in Hi by lia.
           destruct (i - length slots) as [| n]; simpl in Hi; [done |].
           by rewrite lookup_nil in Hi.
    + apply IH.
      * apply Forall2_app; [done |]. constructor; [done | constructor].
      * apply Forall_app. split; [eapply Forall_impl; [exact Hwaiting | exact Hmono] |].
        apply Forall_singleton. split; simpl.
        -- rewrite <- (Forall2_length _ _ _ Hslots).
           rewrite lookup_app_r by lia. by rewrite Nat.sub_diag.
        -- by rewrite Hexec.
      * intros i Hi. destruct (decide (i < length slots)) as [Hlt | Hge].
        -- rewrite lookup_app_l in Hi by done.
           destruct (Hcovered i Hi) as (p & Hp & Hslot).
           exists p. split; [| done]. apply elem_of_app. by left.
        -- assert (i = length slots) as ->.
           { apply lookup_lt_Some in Hi. rewrite length_app in Hi. simpl in Hi. lia. }
           eexists. split; [apply elem_of_app; right; apply list_elem_of_singleton; reflexivity |].
           reflexivity.
Qed.

(** The loop calls [execute] on the eligible rules and on no other, in
    the order of declaration, and takes no time. *)
Lemma launch_trace (rules : list rule_t) (slots : list (option ValidationResult.t))
    (waiting : list Pending) (r : Run.t) :
  ∀ slots' waiting' r',
    launch this property value object tag flags rules slots waiting r
    = (slots', waiting', r') →
    executedRules (Run.trace r')
    = executedRules (Run.trace r) ++ (fst <$> List.filter (eligible object tag) rules)
    ∧ Run.now r' = Run.now r
    ∧ ∃ events, Run.trace r' = Run.trace r ++ events
                ∧ Forall (λ e, eventTime e = Run.now r) events.
Proof.
  revert slots waiting r.
  induction rules as [| rule rest IH]; intros slots waiting r slots' waiting' r';
    cbn [launch List.filter].
  - intros [= <- <- <-]. rewrite app_nil_r. split_and!; [done.. |].
    exists []. by rewrite app_nil_r.
  - destruct (eligible object tag rule) eqn:Helig; [| by apply IH].
    destruct (BaseValidationRule.execute rule.2 value object) as [b | delay b] eqn:Hexec;
      intros Hlaunch; apply IH in Hlaunch as (Hexecuted & Hnow & events & Htrace & Htimes);
      cbn [Run.trace Run.now finishRule fst snd] in *.
    + split_and!; [| done |].
      * rewrite Hexecuted, !executedRules_app. simpl. by rewrite app_nil_r, <- app_assoc.
      * eexists. split; [rewrite Htrace, <- !app_assoc; reflexivity |].
        repeat (apply Forall_cons; split; [reflexivity |]). done.
    + split_and!; [| done |].
      * rewrite Hexecuted, !executedRules_app. simpl. by rewrite <- app_assoc.
      * eexists. split; [rewrite Htrace, <- !app_assoc; reflexivity |].
        apply Forall_cons. split; [reflexivity | done].
Qed.

(** A waiting call that resumes fulfils its slot with a result of its
    rule; a slot still pending afterwards was pending before and is the
    slot of none of the calls that resumed. *)
Lemma resume_slots (rules : list rule_t) (waiting : list Pending)
    (slots : list (option ValidationResult.t)) (r : Run.t) :
  Forall2 (slotOf value object) rules slots →
  Forall (waitingFor value object rules) waiting →
  ∀ slots' r',
    resume this property value object flags waiting slots r = (slots', r') →
    Forall2 (slotOf value object) rules slots'
    ∧ (∀ i, slots' !! i = Some None →
            slots !! i = Some None ∧ ∀ p, p ∈ waiting → slot p ≠ i).
Proof.
  intros Hslots Hwaiting. revert slots r Hslots.
  induction Hwaiting as [| p rest [Hp Hb] _ IH]; intros slots r Hslots slots' r';
    cbn [resume].
  - intros [= <- <-]. split; [done |]. intros i Hi. split; [done |].
    intros p Hp. by apply elem_of_nil in Hp.
  - cbn [finishRule]. intros Hresume. apply IH in Hresume as [Hslots' Hpending].
    + split; [done |]. intros i Hi. destruct (Hpending i Hi) as [Hi1 Hrest].
      assert (slot p ≠ i) as Hne.
      { intros <-. apply lookup_lt_Some in Hi1 as Hlt. rewrite length_insert in Hlt.
        by rewrite list_lookup_insert_eq in Hi1. }
      rewrite list_lookup_insert_ne in Hi1 by done. split; [done |].
      intros q [-> | Hq]%elem_of_cons; [done | by apply Hrest].
    + rewrite <- (list_insert_id rules (slot p) (pendingRule p)) by done.
      apply Forall2_insert; [done |]. split; [reflexivity | done].
Qed.

(** Resuming calls no [execute], and the clock only moves forward. *)
Lemma resume_trace (waiting : list Pending) (slots : list (option ValidationResult.t))
    (r : Run.t) :
  ∀ slots' r',
    resume this property value object flags waiting slots r = (slots', r') →
    executedRules (Run.trace r') = executedRules (Run.trace r)
    ∧ Run.now r ≤ Run.now r'
    ∧ ∃ events, Run.trace r' = Run.trace r ++ events
                ∧ Forall (λ e, Run.now r ≤ eventTime e ≤ Run.now r') events.
Proof.
  revert slots r. induction waiting as [| p rest IH]; intros slots r slots' r'; cbn [resume].
  - intros [= <- <-]. split_and!; [done.. |]. exists []. by rewrite app_nil_r.
  - cbn [finishRule]. intros Hresume.
    apply IH in Hresume as (Hexecuted & Hnow & events & Htrace & Htimes).
    cbn [Run.trace Run.now] in *. split_and!.
    + rewrite Hexecuted, executedRules_app. simpl. by rewrite app_nil_r.
    + lia.
    + eexists. split; [rewrite Htrace, <- app_assoc; reflexivity |].
      apply Forall_cons. split; [simpl; lia |].
      eapply Forall_impl; [exact Htimes |]. simpl. intros e. lia.
Qed.

Lemma fulfilled_slots (rules : list rule_t) (slots : list (option ValidationResult.t)) :
  Forall2 (slotOf value object) rules slots →
  (∀ i, slots !! i ≠ Some None) →
  Forall2 (resultOf value object) rules (omap id slots).
Proof.
  induction 1 as [| rule s rules slots Hs _ IH]; intros Hnone; [constructor |].
  destruct s as [result |]; [| by specialize (Hnone 0)].
  simpl. constructor; [done |]. apply IH. intros i. apply (Hnone (S i)).
Qed.

(** One stage: a result for each eligible rule, in the order of
    declaration. *)
Lemma validateRuleset_results (rules : list rule_t) (r : Run.t) :
  ∀ results r',
    validateRuleset this property value object tag flags rules r = (results, r') →
    Forall2 (resultOf value object) (List.filter (eligible object tag) rules) results
    ∧ executedRules (Run.trace r')
      = executedRules (Run.trace r) ++ (fst <$> List.filter (eligible object tag) rules)
    ∧ Run.now r ≤ Run.now r'
    ∧ ∃ events, Run.trace r' = Run.trace r ++ events
                ∧ Forall (λ e, Run.now r ≤ eventTime e ≤ Run.now r') events.
Proof.
  intros results r'. unfold validateRuleset.
  destruct (launch _ _ _ _ _ _ rules [] [] r) as [[slots waiting] r1] eqn:Hlaunch.
  destruct (resume _ _ _ _ _ (bySettleTime waiting) slots r1) as [slots1 r2] eqn:Hresume.
  intros [= <- <-].
  assert (Forall2 (slotOf value object) [] []) as Hnil by constructor.
  assert (Forall (waitingFor value object []) []) as Hnone by constructor.
  assert (∀ i, ([] : list (option ValidationResult.t)) !! i = Some None →
               ∃ p, p ∈ ([] : list Pending) ∧ slot p = i) as Hempty
    by (intros i Hi; by rewrite lookup_nil in Hi).
  destruct (launch_slots rules [] [] [] r Hnil Hnone Hempty _ _ _ Hlaunch)
    as (Hslots & Hwaiting & Hcovered).
  rewrite app_nil_l in Hslots, Hwaiting.
  apply launch_trace in Hlaunch as (Hexecuted & Hnow & events & Htrace & Htimes).
  assert (Forall (waitingFor value object (List.filter (eligible object tag) rules))
            (bySettleTime waiting)) as Hsorted
    by (by rewrite bySettleTime_Permutation).
  destruct (resume_slots _ _ _ _ Hslots Hsorted _ _ Hresume) as [Hslots1 Hpending].
  apply resume_trace in Hresume as (Hexecuted1 & Hnow1 & events1 & Htrace1 & Htimes1).
  split_and!.
  - apply fulfilled_slots; [done |]. intros i Hi.
    destruct (Hpending i Hi) as [Hi0 Hnot].
    destruct (Hcovered i Hi0) as (p & Hp & Hslot).
    apply (Hnot p); [| done]. by rewrite bySettleTime_Permutation.
  - by rewrite Hexecuted1, Hexecuted.
  - lia.
  - exists (events ++ events1). split; [by rewrite Htrace1, Htrace, app_assoc |].
    apply Forall_app. split.
    + eapply Forall_impl; [exact Htimes |]. simpl. intros e. lia.
    + eapply Forall_impl; [exact Htimes1 |]. simpl. intros e. lia.
Qed.

End RunFacts.

Section StageFacts.
Context (this : loc) (property : RuleProperty.t) (value : JsValue)
  (object : option Target) (tag : option string) (flags : nat).

Local Abbreviation rule_t := (loc * BaseValidationRule.t)%type.

(** The [reduce] reads [isValid] at each of its calls, in the state in
    which [validate] was called: the flag is set, every stage is chained,
    and the state is left as it is. *)
Lemma reduce_chains_every_stage (stages : list (list rule_t))
    (acc : Promise (list ValidationResult.t)) (r : Run.t) :
  Run.isValid r = true →
  (foldl (reducer this property value object tag flags) (acc, r) stages).2 = r
  ∧ ∀ r1, (foldl (reducer this property value object tag flags) (acc, r) stages).1 r1
          = let '(results, r2) := acc r1 in
            runStages this property value object tag flags results stages r2.
Proof.
  intros Hvalid. revert acc. induction stages as [| ruleset rest IH]; intros acc.
  - split; [done |]. intros r1. simpl. unfold Promise_resolve. by destruct (acc r1).
  - cbn [foldl reducer]. rewrite Hvalid.
    destruct (IH (Promise_then acc
                    (λ accValidateResult,
                       accumulateResult this property value object tag flags
                         accValidateResult ruleset))) as [Hstate Hchain].
    split; [done |]. intros r1. rewrite Hchain. unfold Promise_then.
    destruct (acc r1) as [results r2]. reflexivity.
Qed.

Lemma validate_runStages (stages : list (list rule_t)) (r0 : Run.t) :
  validate this property value object tag flags stages r0
  = runStages this property value object tag flags [] stages
      {| Run.isValid := true; Run.nextId := Run.nextId r0;
         Run.now := Run.now r0; Run.trace := Run.trace r0 |}.
Proof.
  unfold validate.
  destruct (reduce_chains_every_stage stages (Promise_resolve [])
              {| Run.isValid := true; Run.nextId := Run.nextId r0;
                 Run.now := Run.now r0; Run.trace := Run.trace r0 |} eq_refl)
    as [Hstate Hchain].
  destruct (foldl _ _ stages) as [promise r1]. simpl in Hstate, Hchain.
  subst r1. apply Hchain.
Qed.

Lemma runStages_results (stages : list (list rule_t)) (results : list ValidationResult.t)
    (r : Run.t) :
  ∀ results' r',
    runStages this property value object tag flags results stages r = (results', r') →
    ∃ new, results' = results ++ new
      ∧ Forall2 (resultOf value object) (eligibleRules object tag stages) new
      ∧ executedRules (Run.trace r')
        = executedRules (Run.trace r) ++ (fst <$> eligibleRules object tag stages)
      ∧ Run.now r ≤ Run.now r'
      ∧ ∃ events, Run.trace r' = Run.trace r ++ events
                  ∧ Forall (λ e, Run.now r ≤ eventTime e ≤ Run.now r') events.
Proof.
  revert results r. induction stages as [| ruleset rest IH]; intros results r results' r'.
  - intros [= <- <-]. exists []. rewrite !app_nil_r. split_and!; [done | constructor | done.. |].
    exists []. by rewrite app_nil_r.
  - cbn [runStages]. unfold accumulateResult, Promise_then, Promise_resolve.
    destruct (validateRuleset this property value object tag flags ruleset r)
      as [stage r1] eqn:Hstage.
    intros Hrest. apply IH in Hrest as (new & -> & Hnew & Hexec & Hnow & events & Htrace & Htimes).
    apply validateRuleset_results in Hstage as (Hres1 & Hexec1 & Hnow1 & events1 & Htrace1 & Htimes1).
    exists (stage ++ new). unfold eligibleRules in *. cbn [fmap list_fmap concat].
    split_and!.
    + by rewrite app_assoc.
    + by apply Forall2_app.
    + by rewrite Hexec, Hexec1, fmap_app, app_assoc.
    + lia.
    + exists (events1 ++ events). split; [by rewrite Htrace, Htrace1, app_assoc |].
      apply Forall_app. split.
      * eapply Forall_impl; [exact Htimes1 |]. simpl. intros e. lia.
      * eapply Forall_impl; [exact Htimes |]. simpl. intros e. lia.
Qed.

End StageFacts.

(** The test of the loop of [validateRuleset] is the eligibility the
    specification words. *)
Lemma eligible_shouldExecute (object : option Target) (tag : option string)
    (rule : loc * BaseValidationRule.t) :
  eligible object tag rule = true ↔ shouldExecute object tag rule.
Proof.
  unfold eligible, shouldExecute. rewrite andb_true_iff.
  destruct tag as [t |].
  - rewrite bool_decide_eq_true. split; intros [Hcan Htag]; (split; [done |]).
    + by right.
    + by destruct Htag.
  - split; intros [Hcan _]; (split; [done |]); [by left | done].
Qed.

Lemma filter_shouldExecute (object : option Target) (tag : option string)
    (rules : list (loc * BaseValidationRule.t)) :
  List.filter (eligible object tag) rules = filter (shouldExecute object tag) rules.
Proof.
  induction rules as [| rule rules IH]; [reflexivity |]. cbn [List.filter].
  rewrite filter_cons, IH.
  destruct (eligible object tag rule) eqn:Helig.
  - rewrite decide_True; [done |]. by apply eligible_shouldExecute.
  - rewrite decide_False; [done |]. rewrite <- eligible_shouldExecute. congruence.
Qed.

Lemma eligibleRules_shouldExecute (object : option Target) (tag : option string)
    (stages : list (list (loc * BaseValidationRule.t))) :
  eligibleRules object tag stages = filter (shouldExecute object tag) (concat stages).
Proof.
  unfold eligibleRules. induction stages as [| stage stages IH]; [reflexivity |].
  rewrite fmap_cons. cbn [concat]. rewrite filter_app, <- IH.
  by rewrite filter_shouldExecute.
Qed.

(** C8. [validate] returns one result for each rule of each stage that is
    to be executed, and for no other: the rules for which
    [canExecute(object)] holds and, when a tag is given, whose tag is that
    tag. The results are in the order in which the rules are declared and
    each carries the boolean its rule came to. [execute] is called on
    those rules, once each, in that order, and on no other rule.
    Everything that happens in the run happens no later than the time at
    which the promise of [validate] is fulfilled. With a rule failing at
    once and a rule passing after three units of time in one stage, the
    promise is fulfilled at time three with the two results in the order of
    declaration, whichever of the two is declared first; the identifiers
    of the results show that the failing rule finished first. In a stage
    with a rule tagged [a], a rule tagged [b], a rule with no tag and a
    rule tagged [a] whose condition refuses the object, [validate] with
    the tag [a] executes the first rule only, and with no tag the first
    three. *)
Theorem validate_results_in_declaration_order
    (this : loc) (property : RuleProperty.t) (value : JsValue) (object : option Target)
    (tag : option string) (flags : nat)
    (stages : list (list (loc * BaseValidationRule.t))) (r0 : Run.t) :
  let run := validate this property value object tag flags stages r0 in
  let expected := filter (shouldExecute object tag) (concat stages) in
  Forall2 (resultOf value object) expected run.1
  ∧ executedRules (Run.trace run.2) = executedRules (Run.trace r0) ++ (fst <$> expected)
  ∧ (∃ events, Run.trace run.2 = Run.trace r0 ++ events
               ∧ Forall (λ e, Run.now r0 ≤ eventTime e ≤ Run.now run.2) events)
  ∧ (let run1 := validate this property value object None flags
                   [[(1, ruleReturning anyMessage (Now false));
                     (2, ruleReturning anyMessage (Later 3 true))]] startRun in
     summary run1.1 = [(1, false, 0); (2, true, 1)]
     ∧ Run.now run1.2 = 3
     ∧ Run.trace run1.2 = [Executed 1 0; Settled 1 0 false; Executed 2 0; Settled 2 3 true])
  ∧ (let run2 := validate this property value object None flags
                   [[(2, ruleReturning anyMessage (Later 3 true));
                     (1, ruleReturning anyMessage (Now false))]] startRun in
     summary run2.1 = [(2, true, 1); (1, false, 0)]
     ∧ Run.now run2.2 = 3
     ∧ Run.trace run2.2 = [Executed 2 0; Executed 1 0; Settled 1 0 false; Settled 2 3 true])
  ∧ (let stage := [(1, ruleWith (Some "a") (λ _, true) (Now false));
                   (2, ruleWith (Some "b") (λ _, true) (Now true));
                   (3, ruleWith None (λ _, true) (Now true));
                   (4, ruleWith (Some "a") (λ _, false) (Now false))] in
     let tagged := validate this property value object (Some "a") flags [stage] startRun in
     let untagged := validate this property value object None flags [stage] startRun in
     summary tagged.1 = [(1, false, 0)]
     ∧ executedRules (Run.trace tagged.2) = [1]
     ∧ summary untagged.1 = [(1, false, 0); (2, true, 1); (3, true, 2)]
     ∧ executedRules (Run.trace untagged.2) = [1; 2; 3]).
Proof.
  intros run expected. subst expected. rewrite <- eligibleRules_shouldExecute.
  assert (run = runStages this property value object tag flags [] stages
                  {| Run.isValid := true; Run.nextId := Run.nextId r0;
                     Run.now := Run.now r0; Run.trace := Run.trace r0 |}) as Hrun
    by apply validate_runStages.
  destruct run as [results r]. symmetry in Hrun.
  apply runStages_results in Hrun
    as (new & Hresults & Hnew & Hexec & Hnow & events & Htrace & Htimes).
  cbn [Run.trace Run.now fst snd] in *. rewrite app_nil_l in Hresults. subst results.
  split; [done |]. split; [done |]. split; [by exists events |].
  split_and!; reflexivity.
Qed.

(** C1, at a property rule whose first stage holds one rule that always
    fails and whose second stage holds one rule that always passes:
    [validate] returns two results, and [execute] is called on the rule of
    the second stage. The [reduce] that chains the stages tests [isValid]
    while it builds the chain, before any rule has run, so the test never
    skips a stage. The same holds for the property rule built through the
    fluent interface with [then()] between the two rules: its stages are
    the two rules, and [validate] returns a result for each. *)
Theorem validate_runs_stage_after_failure
    (this : loc) (property : RuleProperty.t) (value : JsValue) (object : option Target)
    (flags : nat) (message : MessageExpression) (r0 : Run.t) :
  let run := validate this property value object None flags
               [[(1, ruleReturning message (Now false))];
                [(2, ruleReturning message (Now true))]] r0 in
  (ValidationResult.rule <$> run.1) = [1; 2]
  ∧ (ValidationResult.valid <$> run.1) = [false; true]
  ∧ executedRules (Run.trace run.2) = executedRules (Run.trace r0) ++ [1; 2]
  ∧ (twoStages emptyStore).1 = Normal 0
  ∧ (PropertyRule._rules <$> propertyRuleHeap (twoStages emptyStore).2 !! 0) = Some [[0]; [1]]
  ∧ match PropertyRule_validate (twoStages emptyStore).2 0 value object None flags startRun with
    | Normal run => summary run.1 = [(0, false, 0); (1, true, 1)]
                    ∧ executedRules (Run.trace run.2) = [0; 1]
    | Throw _ => False
    end.
Proof.
  intros run. split_and!; try reflexivity.
  - unfold run. cbn. rewrite <- !app_assoc, !executedRules_app. reflexivity.
  - vm_compute. done.
Qed.

(** * Further properties *)

(** ** The registrar: [set] and [unset] on any index *)

Section MetadataOthers.
Context (target other : Target) (m : gmap Target Metadata.entries).
Hypothesis Hother : other ≠ target.

Lemma entriesOf_define_other (key : string) (value : loc) :
  Metadata.entriesOf other (Metadata.define key value target m) = Metadata.entriesOf other m.
Proof. unfold Metadata.entriesOf, Metadata.define. by rewrite lookup_insert_ne. Qed.

Lemma entriesOf_delete_other (key : string) :
  Metadata.entriesOf other (Metadata.delete key target m) = Metadata.entriesOf other m.
Proof. unfold Metadata.entriesOf, Metadata.delete. by rewrite lookup_insert_ne. Qed.

Lemma entriesOf_defineKeys_other (keys : list string) :
  Metadata.entriesOf other (Metadata.defineKeys keys target m) = Metadata.entriesOf other m.
Proof. unfold Metadata.entriesOf, Metadata.defineKeys. by rewrite lookup_insert_ne. Qed.
End MetadataOthers.

Lemma getOwn_delete_ne (target : Target) (m : gmap Target Metadata.entries) (key key' : string) :
  key ≠ key' →
  Metadata.getOwn key' target (Metadata.delete key target m) = Metadata.getOwn key' target m.
Proof.
  intros Hne. unfold Metadata.getOwn, Metadata.delete, Metadata.entriesOf.
  rewrite lookup_insert_eq. simpl. by apply lookup_delete_ne.
Qed.

Lemma keyFor_inj (k k' : string) :
  Protocol.annotation_keyFor k None = Protocol.annotation_keyFor k' None → k = k'.
Proof.
  unfold Protocol.annotation_keyFor. intros Heq.
  by repeat (apply String.app_inj in Heq || injection Heq as Heq).
Qed.

Lemma indexOf_elem (key : string) (keys : list string) :
  key ∈ keys →
  ∃ i, validationRulesRegistrar.indexOf key keys = Some i ∧ keys !! i = Some key.
Proof.
  intros Hin. unfold validationRulesRegistrar.indexOf.
  destruct (list_find_elem_of (λ k, k = key) keys key Hin eq_refl) as [[i k] Hfind].
  rewrite Hfind. apply list_find_Some in Hfind as (Hi & -> & _). eauto.
Qed.

Lemma filter_delete_matching {A} (P : A → Prop) `{∀ x, Decision (P x)}
    (l : list A) (i : nat) (x : A) :
  l !! i = Some x → ¬ P x → filter P (base.delete i l) = filter P l.
Proof.
  revert i. induction l as [| y l IH]; intros [| i] Hi Hx; simplify_eq/=.
  - by rewrite filter_cons_False.
  - rewrite !filter_cons. by rewrite (IH i).
Qed.

Lemma filter_none_matching {A} (P : A → Prop) `{∀ x, Decision (P x)} (l : list A) :
  filter P l = [] → filter (λ x, ¬ P x) l = l.
Proof.
  induction l as [| y l IH]; [done |]. rewrite !filter_cons.
  destruct (decide (P y)); [done |]. intros Hnil.
  destruct (decide (¬ P y)); [| done]. by rewrite IH.
Qed.

(** The loop of [unset] over the copy [l] of the index, started on a store
    whose index [cur] holds the matching keys of [l], each as often as [l]
    does. *)
Lemma unset_loop (target : Target) (tag : option string) (l : list string) :
  ∀ (m : gmap Target Metadata.entries) (cur : list string),
    Metadata.getOwnKeys target m = Some cur →
    filter (λ k, unsetMatches tag k = true) cur ≡ₚ filter (λ k, unsetMatches tag k = true) l →
    let m' := foldl (validationRulesRegistrar.unsetKey target tag) m l in
    Metadata.getOwnKeys target m' = Some (filter (λ k, ¬ unsetMatches tag k = true) cur)
    ∧ (∀ K, Metadata.getOwn K target m'
            = if decide (K ∈ unsetDeletes tag l) then None else Metadata.getOwn K target m)
    ∧ (∀ other, other ≠ target → Metadata.entriesOf other m' = Metadata.entriesOf other m).
Proof.
  induction l as [| k l IH]; intros m cur Hcur Hperm; cbn [foldl].
  - rewrite filter_nil in Hperm. apply Permutation_nil_r in Hperm.
    rewrite filter_none_matching by done. split_and!; [done | | done].
    intros K. rewrite decide_False; [done |]. unfold unsetDeletes. rewrite filter_nil.
    apply not_elem_of_nil.
  - unfold unsetDeletes in *. destruct (unsetMatches tag k) eqn:Hk.
    + assert (k ∈ cur) as Hin.
      { rewrite filter_cons_True in Hperm by done.
        assert (k ∈ filter (λ k0, unsetMatches tag k0 = true) cur) as Hf
          by (rewrite Hperm; apply elem_of_cons; by left).
        by apply list_elem_of_filter in Hf as [_ ?]. }
      destruct (indexOf_elem k cur Hin) as (i & Hindex & Hi).
      assert (validationRulesRegistrar.unsetKey target tag m k
              = Metadata.defineKeys (base.delete i cur) target
                  (Metadata.delete (Protocol.annotation_keyFor k None) target m)) as ->.
      { unfold validationRulesRegistrar.unsetKey. fold (unsetMatches tag k). rewrite Hk.
        by rewrite getOwnKeys_delete, Hcur, Hindex. }
      destruct (IH (Metadata.defineKeys (base.delete i cur) target
                      (Metadata.delete (Protocol.annotation_keyFor k None) target m))
                  (base.delete i cur)) as (Hkeys & Hown & Hothers).
      * apply getOwnKeys_defineKeys.
      * rewrite filter_cons_True in Hperm by done.
        rewrite (delete_Permutation cur i k Hi), filter_cons_True in Hperm by done.
        by apply Permutation_cons_inv in Hperm.
      * split_and!.
        -- rewrite Hkeys. f_equal. apply filter_delete_matching with (x := k); [done |].
           intros Hn. by apply Hn.
        -- intros K. rewrite Hown, getOwn_defineKeys.
           rewrite filter_cons_True by done. rewrite fmap_cons.
           destruct (decide (K ∈ _ <$> filter _ l)) as [Hyes | Hno].
           ++ rewrite decide_True; [done |]. apply elem_of_cons. by right.
           ++ destruct (decide (K = Protocol.annotation_keyFor k None)) as [-> | Hne].
              ** rewrite getOwn_delete. rewrite decide_True; [done |].
                 apply elem_of_cons. by left.
              ** rewrite getOwn_delete_ne by done. rewrite decide_False; [done |].
                 by intros [-> | ?]%elem_of_cons.
        -- intros other Hother. rewrite Hothers by done.
           by rewrite entriesOf_defineKeys_other, entriesOf_delete_other.
    + assert (validationRulesRegistrar.unsetKey target tag m k = m) as ->.
      { unfold validationRulesRegistrar.unsetKey. fold (unsetMatches tag k). by rewrite Hk. }
      rewrite filter_cons_False in Hperm by (by rewrite Hk).
      rewrite filter_cons_False by (by rewrite Hk).
      by apply IH.
Qed.

Lemma registrarKey_matches_tag (tag : option string) :
  unsetMatches tag (registrarKey tag) = true.
Proof.
  unfold unsetMatches, registrarKey.
  assert (JsString.startsWith
            (validationRulesRegistrar.name +:+ ":"
             +:+ default validationRulesRegistrar.defaultRuleSetName tag)
            validationRulesRegistrar.name = true) as -> by apply prefix_append.
  destruct tag as [t |]; [| done]. simpl. rewrite <- append_assoc. apply endsWith_append.
Qed.

Lemma registrar_get_key (target : Target) (tag : option string)
    (m : gmap Target Metadata.entries) :
  validationRulesRegistrar.get target tag m
  = Metadata.getOwn (Protocol.annotation_keyFor (registrarKey tag) None) target m.
Proof. reflexivity. Qed.

Lemma getOwnKeys_set (target : Target) (rules : loc) (tag : option string)
    (m : gmap Target Metadata.entries) :
  Metadata.getOwnKeys target (validationRulesRegistrar.set target rules tag m)
  = Some (default [] (Metadata.getOwnKeys target m) ++ [registrarKey tag]).
Proof.
  unfold validationRulesRegistrar.set. rewrite getOwnKeys_define.
  destruct (Metadata.getOwnKeys target m); by rewrite getOwnKeys_defineKeys.
Qed.

Lemma entriesOf_set_other (target other : Target) (rules : loc) (tag : option string)
    (m : gmap Target Metadata.entries) :
  other ≠ target →
  Metadata.entriesOf other (validationRulesRegistrar.set target rules tag m)
  = Metadata.entriesOf other m.
Proof.
  intros Hother. unfold validationRulesRegistrar.set. rewrite getOwnKeys_define.
  destruct (Metadata.getOwnKeys target m);
    by rewrite entriesOf_defineKeys_other, entriesOf_define_other.
Qed.

(** X1. On a target that has an index of annotation keys, whatever it
    holds, [unset] returns. It keeps in the index exactly the keys that fail
    its test, in their order; it deletes the annotation of every key that
    passes the test and leaves every other annotation of the target, and
    every other target, as they were. *)
Theorem unset_removes_matching_keys (target : Target) (tag : option string)
    (keys : list string) (m : gmap Target Metadata.entries) :
  Metadata.getOwnKeys target m = Some keys →
  ∃ m', validationRulesRegistrar.unset target tag m = Normal m'
    ∧ Metadata.getOwnKeys target m' = Some (filter (λ k, ¬ unsetMatches tag k = true) keys)
    ∧ (∀ K, Metadata.getOwn K target m'
            = if decide (K ∈ unsetDeletes tag keys) then None else Metadata.getOwn K target m)
    ∧ (∀ other, other ≠ target → Metadata.entriesOf other m' = Metadata.entriesOf other m).
Proof.
  intros Hkeys. unfold validationRulesRegistrar.unset. rewrite Hkeys.
  eexists. split; [reflexivity |]. by apply unset_loop.
Qed.

Lemma unset_removes_matching_keys_witness :
  ∃ m', validationRulesRegistrar.unset 7 (Some "t1")
          (validationRulesRegistrar.set 7 4 (Some "t2")
             (validationRulesRegistrar.set 7 3 (Some "t1") ∅)) = Normal m'
    ∧ Metadata.getOwnKeys 7 m'
      = Some (filter (λ k, ¬ unsetMatches (Some "t1") k = true)
                ["validation-rules:t1"; "validation-rules:t2"])
    ∧ (∀ K, Metadata.getOwn K 7 m'
            = if decide (K ∈ unsetDeletes (Some "t1")
                               ["validation-rules:t1"; "validation-rules:t2"])
              then None
              else Metadata.getOwn K 7
                     (validationRulesRegistrar.set 7 4 (Some "t2")
                        (validationRulesRegistrar.set 7 3 (Some "t1") ∅)))
    ∧ (∀ other, other ≠ 7 →
         Metadata.entriesOf other m'
         = Metadata.entriesOf other
             (validationRulesRegistrar.set 7 4 (Some "t2")
                (validationRulesRegistrar.set 7 3 (Some "t1") ∅))).
Proof.
  apply (unset_removes_matching_keys 7 (Some "t1")
           ["validation-rules:t1"; "validation-rules:t2"]).
  reflexivity.
Defined.

(** X2. [unset] with no tag clears the target: whatever its index holds,
    afterwards [isValidationRulesSet] is false, and [get] is [undefined]
    for every tag whose key the index held. *)
Theorem unset_without_tag_clears (target : Target) (keys : list string)
    (m : gmap Target Metadata.entries) :
  Metadata.getOwnKeys target m = Some keys →
  ∃ m', validationRulesRegistrar.unset target None m = Normal m'
    ∧ validationRulesRegistrar.isValidationRulesSet target m' = false
    ∧ ∀ tag, registrarKey tag ∈ keys → validationRulesRegistrar.get target tag m' = None.
Proof.
  intros Hkeys. unfold validationRulesRegistrar.unset. rewrite Hkeys.
  eexists. split; [reflexivity |].
  destruct (unset_loop target None keys m keys Hkeys (reflexivity _)) as (Hindex & Hown & _).
  split.
  - unfold validationRulesRegistrar.isValidationRulesSet. rewrite Hindex. simpl.
    destruct (existsb _ _) eqn:Hex; [| done].
    apply existsb_exists in Hex as (k & Hk & Hs). rewrite <- list_elem_of_In in Hk.
    apply list_elem_of_filter in Hk as [Hno _]. exfalso. apply Hno.
    unfold unsetMatches. by rewrite Hs.
  - intros tag Htag. rewrite registrar_get_key, Hown. rewrite decide_True; [done |].
    unfold unsetDeletes. apply list_elem_of_fmap. exists (registrarKey tag). split; [done |].
    apply list_elem_of_filter. split; [| done]. destruct tag; [| done].
    pose proof (registrarKey_matches_tag (Some s)) as Hm. unfold unsetMatches in *.
    apply andb_true_iff in Hm as [-> _]. done.
Qed.

Lemma unset_without_tag_clears_witness :
  ∃ m', validationRulesRegistrar.unset 7 None
          (validationRulesRegistrar.set 7 4 None
             (validationRulesRegistrar.set 7 3 (Some "t1") ∅)) = Normal m'
    ∧ validationRulesRegistrar.isValidationRulesSet 7 m' = false
    ∧ ∀ tag, registrarKey tag ∈ ["validation-rules:t1"; "validation-rules:__default"] →
             validationRulesRegistrar.get 7 tag m' = None.
Proof.
  apply (unset_without_tag_clears 7 ["validation-rules:t1"; "validation-rules:__default"]).
  reflexivity.
Defined.

(** X3. The tag of [unset] is matched against the end of the key: a rule
    set registered under a tag that ends with the tag given to [unset] is
    removed too, so [unset(target, '1')] removes the set registered under
    ['t1']. *)
Theorem unset_matches_tag_suffix (target : Target) (rules : loc) (front back : string)
    (m : gmap Target Metadata.entries) :
  let m1 := validationRulesRegistrar.set target rules (Some (front +:+ back)) m in
  validationRulesRegistrar.get target (Some (front +:+ back)) m1 = Some rules
  ∧ ∃ m2, validationRulesRegistrar.unset target (Some back) m1 = Normal m2
          ∧ validationRulesRegistrar.get target (Some (front +:+ back)) m2 = None.
Proof.
  intros m1. split; [apply registrar_get_set |].
  pose proof (getOwnKeys_set target rules (Some (front +:+ back)) m) as Hkeys. fold m1 in Hkeys.
  unfold validationRulesRegistrar.unset. rewrite Hkeys.
  eexists. split; [reflexivity |].
  destruct (unset_loop target (Some back) _ m1 _ Hkeys (reflexivity _)) as (_ & Hown & _).
  rewrite registrar_get_key, Hown. rewrite decide_True; [done |].
  unfold unsetDeletes. apply list_elem_of_fmap.
  exists (registrarKey (Some (front +:+ back))). split; [reflexivity |].
  apply list_elem_of_filter. split; [| apply elem_of_app; right; by apply list_elem_of_singleton].
  unfold unsetMatches, registrarKey. apply andb_true_iff. split; [apply prefix_append |].
  cbn [default from_option id]. rewrite <- !append_assoc. apply endsWith_append.
Qed.

(** X4. [set] does not look for the key in the index before it appends
    it: two calls of [set] for one tag leave the key in the index twice and
    the second list in its place, and one call of [unset] for the tag then
    removes both copies and the list. *)
Theorem set_twice_unset_once (target : Target) (first second : loc) (tag : option string)
    (m : gmap Target Metadata.entries) :
  let m2 := validationRulesRegistrar.set target second tag
              (validationRulesRegistrar.set target first tag m) in
  validationRulesRegistrar.get target tag m2 = Some second
  ∧ Metadata.getOwnKeys target m2
    = Some (default [] (Metadata.getOwnKeys target m) ++ [registrarKey tag; registrarKey tag])
  ∧ ∃ m3, validationRulesRegistrar.unset target tag m2 = Normal m3
          ∧ validationRulesRegistrar.get target tag m3 = None
          ∧ registrarKey tag ∉ default [] (Metadata.getOwnKeys target m3).
Proof.
  intros m2. split; [apply registrar_get_set |].
  assert (Metadata.getOwnKeys target m2
          = Some (default [] (Metadata.getOwnKeys target m)
                  ++ [registrarKey tag; registrarKey tag])) as Hkeys.
  { unfold m2. rewrite !getOwnKeys_set. simpl. by rewrite <- app_assoc. }
  split; [done |].
  unfold validationRulesRegistrar.unset. rewrite Hkeys.
  eexists. split; [reflexivity |].
  destruct (unset_loop target tag _ m2 _ Hkeys (reflexivity _)) as (Hindex & Hown & _).
  split.
  - rewrite registrar_get_key, Hown. rewrite decide_True; [done |].
    unfold unsetDeletes. apply list_elem_of_fmap. exists (registrarKey tag).
    split; [reflexivity |].
    apply list_elem_of_filter. split; [apply registrarKey_matches_tag |].
    apply elem_of_app. right. apply elem_of_cons. by left.
  - rewrite Hindex. simpl. intros [Hno _]%list_elem_of_filter.
    apply Hno, registrarKey_matches_tag.
Qed.

(** X5. [unset] with a tag leaves a rule set alone when its key does not
    end with the tag: the set is still returned by [get] and the target
    still counts as having rules. *)
Theorem unset_keeps_other_tag (target : Target) (rules : loc) (kept removed : string)
    (m : gmap Target Metadata.entries) :
  JsString.endsWith (registrarKey (Some kept)) removed = false →
  let m1 := validationRulesRegistrar.set target rules (Some kept) m in
  ∃ m2, validationRulesRegistrar.unset target (Some removed) m1 = Normal m2
        ∧ validationRulesRegistrar.get target (Some kept) m2 = Some rules
        ∧ validationRulesRegistrar.isValidationRulesSet target m2 = true.
Proof.
  intros Hend m1.
  pose proof (getOwnKeys_set target rules (Some kept) m) as Hkeys. fold m1 in Hkeys.
  unfold validationRulesRegistrar.unset. rewrite Hkeys.
  eexists. split; [reflexivity |].
  destruct (unset_loop target (Some removed) _ m1 _ Hkeys (reflexivity _))
    as (Hindex & Hown & _).
  assert (unsetMatches (Some removed) (registrarKey (Some kept)) = false) as Hno
    by (unfold unsetMatches; rewrite Hend; apply andb_false_r).
  split.
  - rewrite registrar_get_key, Hown. rewrite decide_False.
    + rewrite <- registrar_get_key. apply registrar_get_set.
    + unfold unsetDeletes. intros (k & Heq & Hk)%list_elem_of_fmap.
      apply keyFor_inj in Heq. subst k. apply list_elem_of_filter in Hk as [Hk _]. congruence.
  - unfold validationRulesRegistrar.isValidationRulesSet. rewrite Hindex. simpl.
    apply existsb_exists. exists (registrarKey (Some kept)). split.
    + rewrite <- list_elem_of_In. apply list_elem_of_filter. split; [congruence |].
      apply elem_of_app. right. by apply list_elem_of_singleton.
    + apply prefix_append.
Qed.

Lemma unset_keeps_other_tag_witness :
  ∃ m2, validationRulesRegistrar.unset 7 (Some "t2")
          (validationRulesRegistrar.set 7 3 (Some "t1") ∅) = Normal m2
        ∧ validationRulesRegistrar.get 7 (Some "t1") m2 = Some 3
        ∧ validationRulesRegistrar.isValidationRulesSet 7 m2 = true.
Proof. apply (unset_keeps_other_tag 7 3 "t1" "t2" ∅). reflexivity. Defined.

(** X6. [set] is local to its target and its key: the rule sets of other
    targets and their indexes stay as they were, and on the target itself
    [get] for a tag with another key returns what it returned before, while
    [isValidationRulesSet] becomes true. *)
Theorem set_is_local (target : Target) (rules : loc) (tag : option string)
    (m : gmap Target Metadata.entries) :
  let m1 := validationRulesRegistrar.set target rules tag m in
  validationRulesRegistrar.isValidationRulesSet target m1 = true
  ∧ (∀ tag', registrarKey tag' ≠ registrarKey tag →
       validationRulesRegistrar.get target tag' m1 = validationRulesRegistrar.get target tag' m)
  ∧ (∀ other tag', other ≠ target →
       validationRulesRegistrar.get other tag' m1 = validationRulesRegistrar.get other tag' m
       ∧ validationRulesRegistrar.isValidationRulesSet other m1
         = validationRulesRegistrar.isValidationRulesSet other m).
Proof.
  intros m1. split_and!.
  - unfold validationRulesRegistrar.isValidationRulesSet, m1. rewrite getOwnKeys_set.
    cbn [default from_option id]. apply existsb_exists. exists (registrarKey tag). split.
    + apply in_or_app. right. by left.
    + apply prefix_append.
  - intros tag' Hne. rewrite !registrar_get_key. unfold m1, validationRulesRegistrar.set.
    rewrite getOwnKeys_define.
    assert (Protocol.annotation_keyFor (registrarKey tag) None
            ≠ Protocol.annotation_keyFor (registrarKey tag') None) as Hkey
      by (intros Heq; apply keyFor_inj in Heq; congruence).
    destruct (Metadata.getOwnKeys target m); rewrite getOwn_defineKeys;
      by apply getOwn_define_ne.
  - intros other tag' Hother.
    pose proof (entriesOf_set_other target other rules tag m Hother) as Heq. fold m1 in Heq.
    unfold validationRulesRegistrar.get, validationRulesRegistrar.isValidationRulesSet,
      Metadata.getOwn, Metadata.getOwnKeys. by rewrite Heq.
Qed.

(** ** [off] *)

Lemma offTarget_returns (this : loc) (tag : option string) (target : Target) (st : Store)
    (b : ValidationRules.t) (keys : list string) :
  builderHeap st !! this = Some b →
  Metadata.getOwnKeys target (metadata st) = Some keys →
  let m' := foldl (validationRulesRegistrar.unsetKey target tag) (metadata st) keys in
  offTarget this tag target st
  = (Normal tt,
     if validationRulesRegistrar.isValidationRulesSet target m' then withMetadata m' st
     else withBuilderHeap
            (<[this := {| ValidationRules.rules := ValidationRules.rules b;
                          ValidationRules.targets := ValidationRules.targets b ∖ {[target]} |}]>
               (builderHeap st))
            (withMetadata m' st)).
Proof.
  intros Hb Hkeys m'. unfold offTarget, validationRulesRegistrar.unset. unfold_monad.
  rewrite Hkeys. fold m'. store_simpl.
  destruct (validationRulesRegistrar.isValidationRulesSet target m'); simpl; [done |].
  by rewrite Hb.
Qed.

Lemma offTarget_throws (this : loc) (tag : option string) (target : Target) (st : Store) :
  Metadata.getOwnKeys target (metadata st) = None →
  ∃ e, offTarget this tag target st = (Throw e, st).
Proof.
  intros Hkeys. unfold offTarget, validationRulesRegistrar.unset. unfold_monad.
  rewrite Hkeys. eauto.
Qed.

Lemma unset_without_tag_not_set (target : Target) (keys : list string)
    (m : gmap Target Metadata.entries) :
  Metadata.getOwnKeys target m = Some keys →
  validationRulesRegistrar.isValidationRulesSet target
    (foldl (validationRulesRegistrar.unsetKey target None) m keys) = false.
Proof.
  intros Hkeys.
  destruct (unset_loop target None keys m keys Hkeys (reflexivity _)) as (Hindex & _ & _).
  unfold validationRulesRegistrar.isValidationRulesSet. rewrite Hindex. simpl.
  destruct (existsb _ _) eqn:Hex; [| done].
  apply existsb_exists in Hex as (k & Hk & Hs). rewrite <- list_elem_of_In in Hk.
  apply list_elem_of_filter in Hk as [Hno _]. exfalso. apply Hno.
  unfold unsetMatches. by rewrite Hs.
Qed.

Lemma isValidationRulesSet_entriesOf (target : Target) (m m' : gmap Target Metadata.entries) :
  Metadata.entriesOf target m' = Metadata.entriesOf target m →
  validationRulesRegistrar.isValidationRulesSet target m'
  = validationRulesRegistrar.isValidationRulesSet target m.
Proof.
  intros Heq. unfold validationRulesRegistrar.isValidationRulesSet, Metadata.getOwnKeys.
  by rewrite Heq.
Qed.

(** X7. [off(target)] for a target that has no index of annotation keys,
    as one never given to [on] or [set], throws the [TypeError] of [unset]
    and changes nothing; it is not a silent no-op. *)
Theorem off_unregistered_target_throws (arrayFrom : gset Target → list Target)
    (this : loc) (target : Target) (tag : option string) (st : Store) :
  Metadata.getOwnKeys target (metadata st) = None →
  ∃ e, ValidationRules_off arrayFrom this (Some target) tag st = (Throw e, st).
Proof.
  intros Hkeys. unfold ValidationRules_off. unfold bind at 1. unfold ret at 1.
  cbn [forOf]. unfold bind at 1.
  destruct (offTarget_throws this tag target st Hkeys) as [e ->]. eauto.
Qed.

Lemma off_unregistered_target_throws_witness :
  ∃ e, ValidationRules_off elements 0 (Some 7) None (newValidationRules emptyStore).2
       = (Throw e, (newValidationRules emptyStore).2).
Proof. apply (off_unregistered_target_throws elements 0 7 None). reflexivity. Defined.

(** X8. [off(target)] with no tag, on a target that has an index, returns
    and clears the target for every builder: no rule set is left on the
    target, [get] is [undefined] for every tag whose key the index held,
    and the target is no longer among the targets of this builder. The
    rules of the builder and every other builder are left as they were, so
    another builder that registered on the target still lists it. *)
Theorem off_without_tag_clears_target (arrayFrom : gset Target → list Target)
    (this : loc) (target : Target) (st : Store) (b : ValidationRules.t) (keys : list string) :
  builderHeap st !! this = Some b →
  Metadata.getOwnKeys target (metadata st) = Some keys →
  ∃ st', ValidationRules_off arrayFrom this (Some target) None st = (Normal tt, st')
    ∧ validationRulesRegistrar.isValidationRulesSet target (metadata st') = false
    ∧ (∀ tag, registrarKey tag ∈ keys →
         validationRulesRegistrar.get target tag (metadata st') = None)
    ∧ builderHeap st' !! this
      = Some {| ValidationRules.rules := ValidationRules.rules b;
                ValidationRules.targets := ValidationRules.targets b ∖ {[target]} |}
    ∧ (∀ other, other ≠ this → builderHeap st' !! other = builderHeap st !! other)
    ∧ arrayHeap st' = arrayHeap st.
Proof.
  intros Hb Hkeys. unfold ValidationRules_off. unfold bind at 1. unfold ret at 1.
  cbn [forOf]. unfold bind at 1.
  rewrite (offTarget_returns this None target st b keys Hb Hkeys).
  rewrite (unset_without_tag_not_set target keys (metadata st) Hkeys).
  eexists. split; [reflexivity |]. store_simpl.
  destruct (unset_loop target None keys (metadata st) keys Hkeys (reflexivity _))
    as (_ & Hown & _).
  split_and!.
  - by apply unset_without_tag_not_set.
  - intros tag Htag. rewrite registrar_get_key, Hown. rewrite decide_True; [done |].
    unfold unsetDeletes. apply list_elem_of_fmap. exists (registrarKey tag). split; [done |].
    apply list_elem_of_filter. split; [| done].
    pose proof (registrarKey_matches_tag tag) as Hm. unfold unsetMatches in *.
    apply andb_true_iff in Hm as [-> _]. done.
  - apply list_lookup_insert_eq. by eapply lookup_lt_Some.
  - intros other Hother. by apply list_lookup_insert_ne.
  - done.
Qed.

Lemma off_without_tag_clears_target_witness :
  let st := (ValidationRules_on 0 7 (Some "t1") (newValidationRules emptyStore).2).2 in
  let b := {| ValidationRules.rules := 1; ValidationRules.targets := {[7]} ∪ ∅ |} in
  ∃ st', ValidationRules_off elements 0 (Some 7) None st = (Normal tt, st')
    ∧ validationRulesRegistrar.isValidationRulesSet 7 (metadata st') = false
    ∧ (∀ tag, registrarKey tag ∈ ["validation-rules:t1"] →
         validationRulesRegistrar.get 7 tag (metadata st') = None)
    ∧ builderHeap st' !! 0
      = Some {| ValidationRules.rules := ValidationRules.rules b;
                ValidationRules.targets := ValidationRules.targets b ∖ {[7]} |}
    ∧ (∀ other, other ≠ 0 → builderHeap st' !! other = builderHeap st !! other)
    ∧ arrayHeap st' = arrayHeap st.
Proof.
  intros st b.
  apply (off_without_tag_clears_target elements 0 7 st b ["validation-rules:t1"]);
    reflexivity.
Defined.

(** X9. [off(target, tag)] keeps the target among the targets of the
    builder while the index of the target holds a key of the registrar that
    the tag does not match: only the metadata of the target changes, and
    the rule set under that key is still registered. *)
Theorem off_with_tag_keeps_target (arrayFrom : gset Target → list Target)
    (this : loc) (target : Target) (tag kept : string) (st : Store)
    (b : ValidationRules.t) (keys : list string) :
  builderHeap st !! this = Some b →
  Metadata.getOwnKeys target (metadata st) = Some keys →
  registrarKey (Some kept) ∈ keys →
  JsString.endsWith (registrarKey (Some kept)) tag = false →
  ∃ m', ValidationRules_off arrayFrom this (Some target) (Some tag) st
        = (Normal tt, withMetadata m' st)
    ∧ validationRulesRegistrar.isValidationRulesSet target m' = true
    ∧ validationRulesRegistrar.get target (Some kept) m'
      = validationRulesRegistrar.get target (Some kept) (metadata st).
Proof.
  intros Hb Hkeys Hin Hend. unfold ValidationRules_off. unfold bind at 1. unfold ret at 1.
  cbn [forOf]. unfold bind at 1.
  rewrite (offTarget_returns this (Some tag) target st b keys Hb Hkeys).
  destruct (unset_loop target (Some tag) keys (metadata st) keys Hkeys (reflexivity _))
    as (Hindex & Hown & _).
  assert (unsetMatches (Some tag) (registrarKey (Some kept)) = false) as Hno
    by (unfold unsetMatches; rewrite Hend; apply andb_false_r).
  assert (validationRulesRegistrar.isValidationRulesSet target
            (foldl (validationRulesRegistrar.unsetKey target (Some tag)) (metadata st) keys)
          = true) as Hset.
  { unfold validationRulesRegistrar.isValidationRulesSet. rewrite Hindex. simpl.
    apply existsb_exists. exists (registrarKey (Some kept)). split.
    - rewrite <- list_elem_of_In. apply list_elem_of_filter. split; [congruence | done].
    - apply prefix_append. }
  rewrite Hset. eexists. split; [reflexivity |]. split; [done |].
  rewrite !registrar_get_key, Hown. rewrite decide_False; [done |].
  unfold unsetDeletes. intros (k & Heq & Hk)%list_elem_of_fmap.
  apply keyFor_inj in Heq. subst k. apply list_elem_of_filter in Hk as [Hk _]. congruence.
Qed.

Lemma off_with_tag_keeps_target_witness :
  let st := (ValidationRules_on 0 7 (Some "t1") (newValidationRules emptyStore).2).2 in
  ∃ m', ValidationRules_off elements 0 (Some 7) (Some "t2") st = (Normal tt, withMetadata m' st)
    ∧ validationRulesRegistrar.isValidationRulesSet 7 m' = true
    ∧ validationRulesRegistrar.get 7 (Some "t1") m'
      = validationRulesRegistrar.get 7 (Some "t1") (metadata st).
Proof.
  intros st.
  apply (off_with_tag_keeps_target elements 0 7 "t2" "t1" st
           {| ValidationRules.rules := 1; ValidationRules.targets := {[7]} ∪ ∅ |}
           ["validation-rules:t1"]); try reflexivity.
  by apply list_elem_of_singleton.
Defined.

Lemma getOwnKeys_entriesOf (target : Target) (m m' : gmap Target Metadata.entries) :
  Metadata.entriesOf target m' = Metadata.entriesOf target m →
  Metadata.getOwnKeys target m' = Metadata.getOwnKeys target m.
Proof. intros Heq. unfold Metadata.getOwnKeys. by rewrite Heq. Qed.

(** The loop of [off] with no tag over targets that all have an index. *)
Lemma off_loop (this : loc) (l : list Target) :
  ∀ (st : Store) (b : ValidationRules.t),
    builderHeap st !! this = Some b →
    (∀ t, t ∈ l → Metadata.getOwnKeys t (metadata st) ≠ None) →
    ∃ st', forOf (offTarget this None) l st = (Normal tt, st')
      ∧ builderHeap st'
        = <[this := {| ValidationRules.rules := ValidationRules.rules b;
                       ValidationRules.targets := ValidationRules.targets b ∖ list_to_set l |}]>
            (builderHeap st)
      ∧ (∀ t, t ∈ l →
           validationRulesRegistrar.isValidationRulesSet t (metadata st') = false)
      ∧ (∀ t, t ∉ l → Metadata.entriesOf t (metadata st') = Metadata.entriesOf t (metadata st))
      ∧ arrayHeap st' = arrayHeap st
      ∧ propertyRuleHeap st' = propertyRuleHeap st.
Proof.
  induction l as [| t rest IH]; intros st b Hb Hindex.
  - exists st. split; [reflexivity |]. split_and!; [| by intros t Ht%elem_of_nil | done..].
    simpl. rewrite difference_empty_L. destruct b. simpl. by rewrite list_insert_id.
  - cbn [forOf]. unfold bind at 1.
    destruct (Metadata.getOwnKeys t (metadata st)) as [keys |] eqn:Hkeys;
      [| by destruct (Hindex t (list_elem_of_here _ _))].
    rewrite (offTarget_returns this None t st b keys Hb Hkeys).
    rewrite (unset_without_tag_not_set t keys (metadata st) Hkeys).
    destruct (unset_loop t None keys (metadata st) keys Hkeys (reflexivity _))
      as (Hindex1 & _ & Hothers).
    set (m1 := foldl (validationRulesRegistrar.unsetKey t None) (metadata st) keys) in *.
    set (b1 := {| ValidationRules.rules := ValidationRules.rules b;
                  ValidationRules.targets := ValidationRules.targets b ∖ {[t]} |}).
    set (st1 := withBuilderHeap (<[this := b1]> (builderHeap st)) (withMetadata m1 st)).
    assert (builderHeap st1 !! this = Some b1) as Hb1
      by (apply list_lookup_insert_eq; by eapply lookup_lt_Some).
    assert (∀ t', t' ∈ rest → Metadata.getOwnKeys t' (metadata st1) ≠ None) as Hrest.
    { intros t' Ht'. subst st1. store_simpl. destruct (decide (t' = t)) as [-> | Hne].
      - by rewrite Hindex1.
      - rewrite (getOwnKeys_entriesOf t' (metadata st) m1 (Hothers t' Hne)).
        apply Hindex. by apply list_elem_of_further. }
    destruct (IH st1 b1 Hb1 Hrest) as (st' & Hrun & Hbuilders & Hcleared & Hkept & Harr & Hprs).
    exists st'. split; [exact Hrun |]. split_and!.
    + rewrite Hbuilders. subst st1. store_simpl. rewrite list_insert_insert_eq.
      f_equal. subst b1. simpl. f_equal. apply set_eq. intros x.
      cbn [list_to_set foldr]. rewrite !elem_of_difference, elem_of_union, elem_of_singleton.
      tauto.
    + intros t' Ht'. destruct (decide (t' ∈ rest)) as [Hin | Hout]; [by apply Hcleared |].
      apply elem_of_cons in Ht' as [-> | Hin]; [| done].
      rewrite (isValidationRulesSet_entriesOf t (metadata st1) (metadata st') (Hkept t Hout)).
      subst st1. store_simpl. by apply unset_without_tag_not_set.
    + intros t' Ht'. apply not_elem_of_cons in Ht' as [Hne Hout].
      rewrite (Hkept t' Hout). subst st1. store_simpl. by apply Hothers.
    + by rewrite Harr.
    + by rewrite Hprs.
Qed.

(** X10. [off()] with no target and no tag, when every target of the
    builder has an index, returns, leaves no rule set on any of these
    targets and leaves the builder with no target, in whatever order the
    targets are visited; the rules of the builder and the metadata of
    every other object are left as they were. *)
Theorem off_without_target_clears_all (arrayFrom : gset Target → list Target)
    (this : loc) (st : Store) (b : ValidationRules.t) :
  builderHeap st !! this = Some b →
  (∀ t, t ∈ arrayFrom (ValidationRules.targets b) ↔ t ∈ ValidationRules.targets b) →
  (∀ t, t ∈ ValidationRules.targets b → Metadata.getOwnKeys t (metadata st) ≠ None) →
  ∃ st', ValidationRules_off arrayFrom this None None st = (Normal tt, st')
    ∧ builderHeap st' !! this
      = Some {| ValidationRules.rules := ValidationRules.rules b;
                ValidationRules.targets := ∅ |}
    ∧ (∀ t, t ∈ ValidationRules.targets b →
         validationRulesRegistrar.isValidationRulesSet t (metadata st') = false)
    ∧ (∀ t, t ∉ ValidationRules.targets b →
         Metadata.entriesOf t (metadata st') = Metadata.entriesOf t (metadata st))
    ∧ arrayHeap st' = arrayHeap st.
Proof.
  intros Hb Horder Hindex. unfold ValidationRules_off. unfold bind at 1. unfold bind at 1.
  unfold readBuilder, deref. rewrite Hb. unfold ret at 1.
  destruct (off_loop this (arrayFrom (ValidationRules.targets b)) st b Hb)
    as (st' & Hrun & Hbuilders & Hcleared & Hkept & Harr & _).
  { intros t Ht. by apply Hindex, Horder. }
  exists st'. split; [exact Hrun |]. split_and!.
  - rewrite Hbuilders. rewrite list_lookup_insert_eq by (by eapply lookup_lt_Some).
    do 2 f_equal. apply set_eq. intros t. rewrite elem_of_difference, elem_of_list_to_set.
    rewrite Horder. split; [by intros [? ?] | by intros ?%elem_of_empty].
  - intros t Ht. by apply Hcleared, Horder.
  - intros t Ht. apply Hkept. by rewrite Horder.
  - done.
Qed.

Lemma off_without_target_clears_all_witness :
  let st := (ValidationRules_on 0 7 (Some "t1") (newValidationRules emptyStore).2).2 in
  let b := {| ValidationRules.rules := 1; ValidationRules.targets := {[7]} ∪ ∅ |} in
  ∃ st', ValidationRules_off elements 0 None None st = (Normal tt, st')
    ∧ builderHeap st' !! 0
      = Some {| ValidationRules.rules := ValidationRules.rules b;
                ValidationRules.targets := ∅ |}
    ∧ (∀ t, t ∈ ValidationRules.targets b →
         validationRulesRegistrar.isValidationRulesSet t (metadata st') = false)
    ∧ (∀ t, t ∉ ValidationRules.targets b →
         Metadata.entriesOf t (metadata st') = Metadata.entriesOf t (metadata st))
    ∧ arrayHeap st' = arrayHeap st.
Proof.
  intros st b. apply (off_without_target_clears_all elements 0 st b).
  - reflexivity.
  - intros t. apply elem_of_elements.
  - intros t [->%elem_of_singleton | []%elem_of_empty]%elem_of_union. discriminate.
Defined.

(** ** The builder: [on] and [ensure] together *)

Lemma on_unregistered (this : loc) (target : Target) (tag : option string) (st : Store)
    (b : ValidationRules.t) :
  builderHeap st !! this = Some b →
  validationRulesRegistrar.get target tag (metadata st) = None →
  ∃ st1, ValidationRules_on this target tag st = (Normal this, st1)
    ∧ builderHeap st1
      = <[this := {| ValidationRules.rules := length (arrayHeap st);
                     ValidationRules.targets := {[target]} ∪ ValidationRules.targets b |}]>
          (builderHeap st)
    ∧ arrayHeap st1 = arrayHeap st ++ [[]]
    ∧ metadata st1
      = validationRulesRegistrar.set target (length (arrayHeap st)) tag (metadata st)
    ∧ propertyRuleHeap st1 = propertyRuleHeap st.
Proof.
  intros Hb Hreg. unfold ValidationRules_on. unfold_monad. rewrite Hb, Hreg.
  rewrite bool_decide_eq_false_2 by done.
  eexists. split; [reflexivity |]. store_simpl. split_and!; [| done..].
  by rewrite list_insert_insert_eq.
Qed.

Section BuilderTogether.
Context (looseEqualsNumber : Z -> string -> bool) (parser : IExpressionParser).

Lemma ensure_on_empty (this : loc) (property : PropertyArg) (st : Store)
    (b : ValidationRules.t) (name : string) (expression : IsBindingBehavior) :
  builderHeap st !! this = Some b →
  arrayHeap st !! ValidationRules.rules b = Some [] →
  parsePropertyName property parser = Normal (name, expression) →
  ValidationRules_ensure looseEqualsNumber parser this property st
  = (Normal (length (propertyRuleHeap st)),
     withArrayHeap (<[ValidationRules.rules b := [length (propertyRuleHeap st)]]> (arrayHeap st))
       (withPropertyRuleHeap
          (propertyRuleHeap st
           ++ [freshPropertyRule this (Some expression) (Some (NameString name))])
          st)).
Proof.
  intros Hb Hrules Hparse. unfold ValidationRules_ensure, pushRule. unfold_monad.
  rewrite Hparse, Hb, Hrules. cbn [findByName]. unfold ret. store_simpl.
  rewrite Hb. store_simpl. by rewrite Hrules.
Qed.

Lemma findInHeap_elem (heap : list PropertyRule.t) (name : string) (refs : list loc) (r : loc) :
  findInHeap looseEqualsNumber heap name refs = Normal (Some r) → r ∈ refs.
Proof.
  induction refs as [| r' rest IH]; simpl; [done |].
  destruct (heap !! r') as [pr|]; [| done].
  destruct (looseEquals _ _ _).
  - intros [= <-]. apply list_elem_of_here.
  - intros Hfind. apply list_elem_of_further. by apply IH.
Qed.

(** X11. [on] first, [ensure] next: on a target with no list registered
    for the tag, [on] registers a new list and [ensure] then adds its new
    property rule to that very list, so the registrar holds the rule for
    the target without another call of [on]. *)
Theorem on_then_ensure_registers_rule (this : loc) (target : Target) (tag : option string)
    (property : PropertyArg) (st : Store) (b : ValidationRules.t)
    (name : string) (expression : IsBindingBehavior) :
  builderHeap st !! this = Some b →
  validationRulesRegistrar.get target tag (metadata st) = None →
  parsePropertyName property parser = Normal (name, expression) →
  ∃ st1 st2 r list,
    ValidationRules_on this target tag st = (Normal this, st1)
    ∧ ValidationRules_ensure looseEqualsNumber parser this property st1 = (Normal r, st2)
    ∧ validationRulesRegistrar.get target tag (metadata st2) = Some list
    ∧ arrayHeap st2 !! list = Some [r]
    ∧ propertyRuleHeap st2 !! r
      = Some (freshPropertyRule this (Some expression) (Some (NameString name))).
Proof.
  intros Hb Hreg Hparse.
  destruct (on_unregistered this target tag st b Hb Hreg)
    as (st1 & Hon & Hbuilders & Harrays & Hmeta & Hprs).
  assert (this < length (builderHeap st)) as Hlt by (by eapply lookup_lt_Some).
  pose proof (ensure_on_empty this property st1
                {| ValidationRules.rules := length (arrayHeap st);
                   ValidationRules.targets := {[target]} ∪ ValidationRules.targets b |}
                name expression) as Hensure.
  cbn [ValidationRules.rules] in Hensure.
  rewrite Hbuilders, Harrays, Hprs in Hensure.
  rewrite list_lookup_insert_eq in Hensure by done.
  rewrite lookup_app_r, Nat.sub_diag in Hensure by lia.
  specialize (Hensure eq_refl eq_refl Hparse).
  eexists st1, _, _, (length (arrayHeap st)). split; [exact Hon |]. split; [exact Hensure |].
  store_simpl. split_and!.
  - rewrite Hmeta. apply registrar_get_set.
  - rewrite list_lookup_insert_eq; [done |]. rewrite length_app. simpl. lia.
  - rewrite lookup_app_r by lia. by rewrite Nat.sub_diag.
Qed.

(** X12. [ensure] first, [on] next: when the target has no list registered
    for the tag, [on] replaces the rules of the builder by a new empty list
    and registers that one, so the rule [ensure] returned before is not
    registered; [ensure] for the same property after [on] does not find it
    and returns another, new rule. *)
Theorem ensure_then_on_drops_rule (this : loc) (target : Target) (tag : option string)
    (property : PropertyArg) (st st1 : Store) (r : loc) :
  ValidationRules_ensure looseEqualsNumber parser this property st = (Normal r, st1) →
  validationRulesRegistrar.get target tag (metadata st) = None →
  ∃ st2 st3 b2 r2,
    ValidationRules_on this target tag st1 = (Normal this, st2)
    ∧ builderHeap st2 !! this = Some b2
    ∧ validationRulesRegistrar.get target tag (metadata st2) = Some (ValidationRules.rules b2)
    ∧ arrayHeap st2 !! ValidationRules.rules b2 = Some []
    ∧ ValidationRules_ensure looseEqualsNumber parser this property st2 = (Normal r2, st3)
    ∧ r2 ≠ r
    ∧ arrayHeap st3 !! ValidationRules.rules b2 = Some [r2].
Proof.
  intros Hensure Hreg.
  destruct (ValidationRules_ensure_returns looseEqualsNumber parser this property st st1 r
              Hensure) as (name & expression & b & rules & Hparse & Hb & Hrules & Hcases).
  assert (this < length (builderHeap st)) as Hlt by (by eapply lookup_lt_Some).
  assert (builderHeap st1 = builderHeap st ∧ metadata st1 = metadata st
          ∧ r < length (propertyRuleHeap st1)) as (Hb1 & Hm1 & Hr).
  { destruct Hcases as [[Hfind ->] | (Hfind & -> & ->)]; store_simpl.
    - split_and!; [done.. |].
      apply (findInHeap_Some looseEqualsNumber) in Hfind as (pr & Hpr & _).
      by eapply lookup_lt_Some.
    - split_and!; [done.. |]. rewrite length_app. simpl. lia. }
  rewrite <- Hb1 in Hb, Hlt. rewrite <- Hm1 in Hreg.
  destruct (on_unregistered this target tag st1 b Hb Hreg)
    as (st2 & Hon & Hbuilders & Harrays & Hmeta & Hprs).
  pose proof (ensure_on_empty this property st2
                {| ValidationRules.rules := length (arrayHeap st1);
                   ValidationRules.targets := {[target]} ∪ ValidationRules.targets b |}
                name expression) as Hagain.
  cbn [ValidationRules.rules] in Hagain.
  rewrite Hbuilders, Harrays, Hprs in Hagain.
  rewrite list_lookup_insert_eq in Hagain by done.
  rewrite lookup_app_r, Nat.sub_diag in Hagain by lia.
  specialize (Hagain eq_refl eq_refl Hparse).
  eexists st2, _, _, _. split; [exact Hon |].
  split; [rewrite Hbuilders; by apply list_lookup_insert_eq |].
  cbn [ValidationRules.rules]. split_and!.
  - rewrite Hmeta. apply registrar_get_set.
  - rewrite Harrays. rewrite lookup_app_r by lia. by rewrite Nat.sub_diag.
  - exact Hagain.
  - lia.
  - store_simpl. rewrite list_lookup_insert_eq; [done |]. rewrite length_app. simpl. lia.
Qed.

(** X13. Two builders given the same target and tag share one list: the
    second [on] adopts the list the first registered, and a rule the second
    builder then adds with [ensure] is in the rules of the first builder
    too. *)
Theorem builders_on_same_target_share_rules (first second : loc) (target : Target)
    (tag : option string) (property : PropertyArg) (st : Store)
    (b1 b2 : ValidationRules.t) (name : string) (expression : IsBindingBehavior) :
  builderHeap st !! first = Some b1 →
  builderHeap st !! second = Some b2 →
  first ≠ second →
  validationRulesRegistrar.get target tag (metadata st) = None →
  parsePropertyName property parser = Normal (name, expression) →
  ∃ st1 st2 st3 r shared b1' b2',
    ValidationRules_on first target tag st = (Normal first, st1)
    ∧ ValidationRules_on second target tag st1 = (Normal second, st2)
    ∧ ValidationRules_ensure looseEqualsNumber parser second property st2 = (Normal r, st3)
    ∧ builderHeap st3 !! first = Some b1' ∧ ValidationRules.rules b1' = shared
    ∧ builderHeap st3 !! second = Some b2' ∧ ValidationRules.rules b2' = shared
    ∧ arrayHeap st3 !! shared = Some [r].
Proof.
  intros Hfirst Hsecond Hne Hreg Hparse.
  destruct (on_unregistered first target tag st b1 Hfirst Hreg)
    as (st1 & Hon1 & Hbuilders1 & Harrays1 & Hmeta1 & Hprs1).
  assert (first < length (builderHeap st)) as Hlt1 by (by eapply lookup_lt_Some).
  assert (second < length (builderHeap st)) as Hlt2 by (by eapply lookup_lt_Some).
  assert (builderHeap st1 !! second = Some b2) as Hsecond1
    by (rewrite Hbuilders1; by rewrite list_lookup_insert_ne).
  assert (validationRulesRegistrar.get target tag (metadata st1)
          = Some (length (arrayHeap st))) as Hreg1
    by (rewrite Hmeta1; apply registrar_get_set).
  assert (∃ st2 b2', ValidationRules_on second target tag st1 = (Normal second, st2)
            ∧ builderHeap st2 !! second = Some b2'
            ∧ ValidationRules.rules b2' = length (arrayHeap st)
            ∧ builderHeap st2 !! first = builderHeap st1 !! first
            ∧ arrayHeap st2 = arrayHeap st1
            ∧ propertyRuleHeap st2 = propertyRuleHeap st1) as
    (st2 & b2' & Hon2 & Hsecond2 & Hshared & Hfirst2 & Harrays2 & Hprs2).
  { unfold ValidationRules_on. unfold_monad. rewrite Hsecond1, Hreg1.
    destruct (bool_decide _) eqn:Hdec.
    - apply bool_decide_eq_true_1 in Hdec as [= Hsame].
      eexists _, _. split; [reflexivity |]. split; [exact Hsecond1 |]. done.
    - eexists _, _. split; [reflexivity |]. store_simpl.
      split; [apply list_lookup_insert_eq; by rewrite length_insert, Hbuilders1, length_insert |].
      split_and!; [done | | done..].
      by rewrite !list_lookup_insert_ne. }
  assert (arrayHeap st2 !! ValidationRules.rules b2' = Some []) as Hempty.
  { rewrite Hshared, Harrays2, Harrays1. rewrite lookup_app_r by lia. by rewrite Nat.sub_diag. }
  pose proof (ensure_on_empty second property st2 b2' name expression Hsecond2 Hempty Hparse)
    as Hensure.
  eexists st1, st2, _, _, (length (arrayHeap st)), _, b2'.
  split; [exact Hon1 |]. split; [exact Hon2 |]. split; [exact Hensure |]. store_simpl.
  split; [rewrite Hfirst2, Hbuilders1; by apply list_lookup_insert_eq |].
  split; [done |]. split; [done |]. split; [done |].
  rewrite Hshared, Harrays2, Harrays1. rewrite list_lookup_insert_eq; [done |].
  rewrite length_app. simpl. lia.
Qed.
End BuilderTogether.

Lemma on_then_ensure_registers_rule_witness :
  let st := (newValidationRules emptyStore).2 in
  ∃ st1 st2 r list,
    ValidationRules_on 0 7 (Some "t1") st = (Normal 0, st1)
    ∧ ValidationRules_ensure decimalEquals MiniParser.parser 0 (ArgString "a") st1
      = (Normal r, st2)
    ∧ validationRulesRegistrar.get 7 (Some "t1") (metadata st2) = Some list
    ∧ arrayHeap st2 !! list = Some [r]
    ∧ propertyRuleHeap st2 !! r
      = Some (freshPropertyRule 0 (Some (AccessScopeExpression "a" 0))
                (Some (NameString "a"))).
Proof.
  intros st.
  apply (on_then_ensure_registers_rule decimalEquals MiniParser.parser 0 7 (Some "t1")
           (ArgString "a") st {| ValidationRules.rules := 0; ValidationRules.targets := ∅ |}
           "a" (AccessScopeExpression "a" 0)); reflexivity.
Defined.

Lemma ensure_then_on_drops_rule_witness :
  let st := (newValidationRules emptyStore).2 in
  let st1 := (ValidationRules_ensure decimalEquals MiniParser.parser 0 (ArgString "a") st).2 in
  ∃ st2 st3 b2 r2,
    ValidationRules_on 0 7 (Some "t1") st1 = (Normal 0, st2)
    ∧ builderHeap st2 !! 0 = Some b2
    ∧ validationRulesRegistrar.get 7 (Some "t1") (metadata st2) = Some (ValidationRules.rules b2)
    ∧ arrayHeap st2 !! ValidationRules.rules b2 = Some []
    ∧ ValidationRules_ensure decimalEquals MiniParser.parser 0 (ArgString "a") st2
      = (Normal r2, st3)
    ∧ r2 ≠ 0
    ∧ arrayHeap st3 !! ValidationRules.rules b2 = Some [r2].
Proof.
  intros st st1.
  apply (ensure_then_on_drops_rule decimalEquals MiniParser.parser 0 7 (Some "t1")
           (ArgString "a") st st1 0); reflexivity.
Defined.

Lemma builders_on_same_target_share_rules_witness :
  let st := (newValidationRules (newValidationRules emptyStore).2).2 in
  ∃ st1 st2 st3 r shared b1' b2',
    ValidationRules_on 0 7 (Some "t1") st = (Normal 0, st1)
    ∧ ValidationRules_on 1 7 (Some "t1") st1 = (Normal 1, st2)
    ∧ ValidationRules_ensure decimalEquals MiniParser.parser 1 (ArgString "a") st2
      = (Normal r, st3)
    ∧ builderHeap st3 !! 0 = Some b1' ∧ ValidationRules.rules b1' = shared
    ∧ builderHeap st3 !! 1 = Some b2' ∧ ValidationRules.rules b2' = shared
    ∧ arrayHeap st3 !! shared = Some [r].
Proof.
  intros st.
  apply (builders_on_same_target_share_rules decimalEquals MiniParser.parser 0 1 7 (Some "t1")
           (ArgString "a") st
           {| ValidationRules.rules := 0; ValidationRules.targets := ∅ |}
           {| ValidationRules.rules := 1; ValidationRules.targets := ∅ |}
           "a" (AccessScopeExpression "a" 0)); try reflexivity.
  lia.
Defined.

(** ** [validate]: stages in sequence *)

Section StagesInSequence.
Context (this : loc) (property : RuleProperty.t) (value : JsValue)
  (object : option Target) (tag : option string) (flags : nat).

Local Abbreviation rule_t := (loc * BaseValidationRule.t)%type.

Lemma runStages_app (before after : list (list rule_t)) :
  ∀ (results : list ValidationResult.t) (r : Run.t),
    runStages this property value object tag flags results (before ++ after) r
    = let '(results1, r1) := runStages this property value object tag flags results before r in
      runStages this property value object tag flags results1 after r1.
Proof.
  induction before as [| ruleset rest IH]; intros results r; [reflexivity |].
  cbn [app runStages]. unfold Promise_then.
  destruct (accumulateResult this property value object tag flags results ruleset r)
    as [results1 r1].
  apply IH.
Qed.

(** X14. The stages that [then()] separates run one after the other: the
    run of [validate] on the stages [before ++ after] starts as its run on
    [before] alone, with the same results and the same events; the rules
    of [after] are executed, in the order of declaration, only at or after
    the time at which every rule of [before] has settled, and their
    results follow the results of [before]. *)
Theorem later_stages_wait_for_earlier (before after : list (list rule_t)) (r0 : Run.t) :
  let run1 := validate this property value object tag flags before r0 in
  let run := validate this property value object tag flags (before ++ after) r0 in
  ∃ results events earlier,
    run.1 = run1.1 ++ results
    ∧ Forall2 (resultOf value object) (eligibleRules object tag after) results
    ∧ Run.trace run1.2 = Run.trace r0 ++ earlier
    ∧ Forall (λ e, eventTime e ≤ Run.now run1.2) earlier
    ∧ Run.trace run.2 = Run.trace run1.2 ++ events
    ∧ Forall (λ e, Run.now run1.2 ≤ eventTime e) events
    ∧ executedRules events = fst <$> eligibleRules object tag after.
Proof.
  intros run1 run. subst run1 run. rewrite !validate_runStages, runStages_app.
  set (start := {| Run.isValid := true; Run.nextId := Run.nextId r0;
                   Run.now := Run.now r0; Run.trace := Run.trace r0 |}).
  destruct (runStages this property value object tag flags [] before start)
    as [results1 r1] eqn:Hbefore.
  destruct (runStages this property value object tag flags results1 after r1)
    as [results2 r2] eqn:Hafter.
  apply runStages_results in Hbefore
    as (new1 & -> & _ & _ & _ & earlier & Htrace1 & Htimes1).
  apply runStages_results in Hafter
    as (new2 & -> & Hnew2 & Hexec2 & _ & events & Htrace2 & Htimes2).
  exists new2, events, earlier. cbn [fst snd]. split_and!; [done.. | | done | |].
  - eapply Forall_impl; [exact Htimes1 |]. simpl. intros e. lia.
  - eapply Forall_impl; [exact Htimes2 |]. simpl. intros e. lia.
  - rewrite Htrace2, executedRules_app in Hexec2. by apply app_inv_head in Hexec2.
Qed.

End StagesInSequence.

(** ** [validate]: what a result holds *)

Section ResultFacts.
Context (this : loc) (property : RuleProperty.t) (value : JsValue)
  (object : option Target) (tag : option string) (flags : nat).

Local Abbreviation rule_t := (loc * BaseValidationRule.t)%type.

(** A property of the result that [validateRule] constructs for a rule,
    in whatever state of the run it does so. *)
Context (Q : rule_t → ValidationResult.t → Prop).
Hypothesis constructed :
  ∀ (rule : rule_t) (r : Run.t),
    Q rule (finishRule this property value object flags rule
              (outcomeValid (BaseValidationRule.execute rule.2 value object)) r).1.

Lemma launch_slotWith (rules done : list rule_t) (slots : list (option ValidationResult.t))
    (waiting : list Pending) (r : Run.t) :
  Forall2 (slotWith Q) done slots →
  Forall (waitingFor value object done) waiting →
  (∀ i, slots !! i = Some None → ∃ p, p ∈ waiting ∧ slot p = i) →
  ∀ slots' waiting' r',
    launch this property value object tag flags rules slots waiting r
    = (slots', waiting', r') →
    Forall2 (slotWith Q) (done ++ List.filter (eligible object tag) rules) slots'
    ∧ Forall (waitingFor value object (done ++ List.filter (eligible object tag) rules)) waiting'
    ∧ (∀ i, slots' !! i = Some None → ∃ p, p ∈ waiting' ∧ slot p = i).
Proof.
  revert done slots waiting r.
  induction rules as [| rule rest IH]; intros done slots waiting r Hslots Hwaiting Hcovered
    slots' waiting' r'; cbn [launch List.filter].
  - intros [= <- <- <-]. by rewrite app_nil_r.
  - destruct (eligible object tag rule) eqn:Helig; [| by apply IH].
    assert (∀ p, waitingFor value object done p → waitingFor value object (done ++ [rule]) p)
      as Hmono.
    { intros p [Hp Hb]. split; [| done]. by apply lookup_app_l_Some. }
    assert (done ++ rule :: List.filter (eligible object tag) rest
            = (done ++ [rule]) ++ List.filter (eligible object tag) rest) as ->
      by (by rewrite <- app_assoc).
    destruct (BaseValidationRule.execute rule.2 value object) as [b | delay b] eqn:Hexec.
    + apply IH.
      * apply Forall2_app; [done |]. constructor; [| constructor].
        pose proof (constructed rule
                      {| Run.isValid := Run.isValid r; Run.nextId := Run.nextId r;
                         Run.now := Run.now r;
                         Run.trace := Run.trace r ++ [Executed rule.1 (Run.now r)] |}) as HQ.
        rewrite Hexec in HQ. exact HQ.
      * eapply Forall_impl; [exact Hwaiting | exact Hmono].
      * intros i Hi. apply Hcovered.
        destruct (decide (i < length slots)) as [Hlt | Hge].
        -- by rewrite lookup_app_l in Hi.
        -- rewrite lookup_app_r in Hi by lia.
           destruct (i - length slots) as [| n]; simpl in Hi; [done |].
           by rewrite lookup_nil in Hi.
    + apply IH.
      * apply Forall2_app; [done |]. constructor; [done | constructor].
      * apply Forall_app. split; [eapply Forall_impl; [exact Hwaiting | exact Hmono] |].
        apply Forall_singleton. split; simpl.
        -- rewrite <- (Forall2_length _ _ _ Hslots).
           rewrite lookup_app_r by lia. by rewrite Nat.sub_diag.
        -- by rewrite Hexec.
      * intros i Hi. destruct (decide (i < length slots)) as [Hlt | Hge].
        -- rewrite lookup_app_l in Hi by done.
           destruct (Hcovered i Hi) as (p & Hp & Hslot).
           exists p. split; [| done]. apply elem_of_app. by left.
        -- assert (i = length slots) as ->.
           { apply lookup_lt_Some in Hi. rewrite length_app in Hi. simpl in Hi. lia. }
           eexists. split; [apply elem_of_app; right; apply list_elem_of_singleton; reflexivity |].
           reflexivity.
Qed.

Lemma resume_slotWith (rules : list rule_t) (waiting : list Pending)
    (slots : list (option ValidationResult.t)) (r : Run.t) :
  Forall2 (slotWith Q) rules slots →
  Forall (waitingFor value object rules) waiting →
  ∀ slots' r',
    resume this property value object flags waiting slots r = (slots', r') →
    Forall2 (slotWith Q) rules slots'
    ∧ (∀ i, slots' !! i = Some None →
            slots !! i = Some None ∧ ∀ p, p ∈ waiting → slot p ≠ i).
Proof.
  intros Hslots Hwaiting. revert slots r Hslots.
  induction Hwaiting as [| p rest [Hp Hb] _ IH]; intros slots r Hslots slots' r';
    cbn [resume].
  - intros [= <- <-]. split; [done |]. intros i Hi. split; [done |].
    intros p Hp. by apply elem_of_nil in Hp.
  - pose proof (constructed (pendingRule p)
                  {| Run.isValid := Run.isValid r; Run.nextId := Run.nextId r;
                     Run.now := Nat.max (Run.now r) (settlesAt p);
                     Run.trace := Run.trace r |}) as HQ.
    rewrite <- Hb in HQ.
    destruct (finishRule this property value object flags (pendingRule p) (settlesAs p) _)
      as [result r2].
    intros Hresume. apply IH in Hresume as [Hslots' Hpending].
    + split; [done |]. intros i Hi. destruct (Hpending i Hi) as [Hi1 Hrest].
      assert (slot p ≠ i) as Hne.
      { intros <-. apply lookup_lt_Some in Hi1 as Hlt. rewrite length_insert in Hlt.
        by rewrite list_lookup_insert_eq in Hi1. }
      rewrite list_lookup_insert_ne in Hi1 by done. split; [done |].
      intros q [-> | Hq]%elem_of_cons; [done | by apply Hrest].
    + rewrite <- (list_insert_id rules (slot p) (pendingRule p)) by done.
      apply Forall2_insert; [done |]. exact HQ.
Qed.

Lemma fulfilled_slotWith (rules : list rule_t) (slots : list (option ValidationResult.t)) :
  Forall2 (slotWith Q) rules slots →
  (∀ i, slots !! i ≠ Some None) →
  Forall2 Q rules (omap id slots).
Proof.
  induction 1 as [| rule s rules slots Hs _ IH]; intros Hnone; [constructor |].
  destruct s as [result |]; [| by specialize (Hnone 0)].
  simpl. constructor; [done |]. apply IH. intros i. apply (Hnone (S i)).
Qed.

Lemma validateRuleset_with (rules : list rule_t) (r : Run.t) :
  Forall2 Q (List.filter (eligible object tag) rules)
    (validateRuleset this property value object tag flags rules r).1.
Proof.
  unfold validateRuleset.
  destruct (launch _ _ _ _ _ _ rules [] [] r) as [[slots waiting] r1] eqn:Hlaunch.
  destruct (resume _ _ _ _ _ (bySettleTime waiting) slots r1) as [slots1 r2] eqn:Hresume.
  assert (Forall2 (slotWith Q) [] []) as Hnil by constructor.
  assert (Forall (waitingFor value object []) []) as Hnone by constructor.
  assert (∀ i, ([] : list (option ValidationResult.t)) !! i = Some None →
               ∃ p, p ∈ ([] : list Pending) ∧ slot p = i) as Hempty
    by (intros i Hi; by rewrite lookup_nil in Hi).
  destruct (launch_slotWith rules [] [] [] r Hnil Hnone Hempty _ _ _ Hlaunch)
    as (Hslots & Hwaiting & Hcovered).
  rewrite app_nil_l in Hslots, Hwaiting.
  assert (Forall (waitingFor value object (List.filter (eligible object tag) rules))
            (bySettleTime waiting)) as Hsorted
    by (by rewrite bySettleTime_Permutation).
  destruct (resume_slotWith _ _ _ _ Hslots Hsorted _ _ Hresume) as [Hslots1 Hpending].
  cbn [fst]. apply fulfilled_slotWith; [done |]. intros i Hi.
  destruct (Hpending i Hi) as [Hi0 Hnot].
  destruct (Hcovered i Hi0) as (p & Hp & Hslot).
  apply (Hnot p); [| done]. by rewrite bySettleTime_Permutation.
Qed.

Lemma runStages_with (stages : list (list rule_t)) :
  ∀ (results : list ValidationResult.t) (r : Run.t),
    ∃ new, (runStages this property value object tag flags results stages r).1 = results ++ new
           ∧ Forall2 Q (eligibleRules object tag stages) new.
Proof.
  induction stages as [| ruleset rest IH]; intros results r.
  - exists []. split; [by rewrite app_nil_r | constructor].
  - cbn [runStages]. unfold accumulateResult, Promise_then, Promise_resolve.
    pose proof (validateRuleset_with ruleset r) as Hstage.
    destruct (validateRuleset this property value object tag flags ruleset r) as [stage r1].
    destruct (IH (results ++ stage) r1) as (new & Heq & Hnew).
    exists (stage ++ new). split; [by rewrite Heq, app_assoc |].
    unfold eligibleRules in *. cbn [fmap list_fmap concat]. by apply Forall2_app.
Qed.

Lemma validate_with (stages : list (list rule_t)) (r0 : Run.t) :
  Forall2 Q (eligibleRules object tag stages)
    (validate this property value object tag flags stages r0).1.
Proof.
  rewrite validate_runStages.
  destruct (runStages_with stages []
              {| Run.isValid := true; Run.nextId := Run.nextId r0;
                 Run.now := Run.now r0; Run.trace := Run.trace r0 |}) as (new & -> & Hnew).
  done.
Qed.

End ResultFacts.

(** X15. [validate] returns one result for each rule that is to be
    executed, in the order of declaration, and every result describes its
    rule: it refers to the rule and carries the boolean the rule came to;
    it has a message exactly when the rule failed; its property name,
    object and property rule are those of the call, and it is not marked
    as added manually. This holds for the results of rules that returned a
    promise as for those of rules that returned a boolean. *)
Theorem validate_results_describe_rules
    (this : loc) (property : RuleProperty.t) (value : JsValue) (object : option Target)
    (tag : option string) (flags : nat)
    (stages : list (list (loc * BaseValidationRule.t))) (r0 : Run.t) :
  Forall2 (describes this property value object)
    (filter (shouldExecute object tag) (concat stages))
    (validate this property value object tag flags stages r0).1.
Proof.
  rewrite <- eligibleRules_shouldExecute.
  apply validate_with. intros rule r. unfold describes, finishRule. cbn.
  split_and!; try done. by destruct (outcomeValid _).
Qed.

(** X16. [toString()] of a result of [validate] is never [undefined]: it
    is [Valid.] for a result that is valid and the rendered message for
    one that is not. *)
Theorem validate_results_toString
    (this : loc) (property : RuleProperty.t) (value : JsValue) (object : option Target)
    (tag : option string) (flags : nat)
    (stages : list (list (loc * BaseValidationRule.t))) (r0 : Run.t) :
  Forall (λ result,
            ∃ text, ValidationResult_toString result = Some text
                    ∧ (ValidationResult.valid result = true → text = "Valid.")
                    ∧ (ValidationResult.valid result = false
                       → ValidationResult.message result = Some text))
    (validate this property value object tag flags stages r0).1.
Proof.
  eapply (Forall2_Forall_r (λ _ result, _)).
  - apply (validate_with this property value object tag flags
             (λ _ result,
                ∃ text, ValidationResult_toString result = Some text
                        ∧ (ValidationResult.valid result = true → text = "Valid.")
                        ∧ (ValidationResult.valid result = false
                           → ValidationResult.message result = Some text))).
    intros rule r. unfold ValidationResult_toString, finishRule. cbn.
    destruct (outcomeValid _); eexists; split_and!; done.
  - apply Forall_true. done.
Qed.

(** ** [validate]: the identifiers of the results *)

Lemma slotIds_app (slots1 slots2 : list (option ValidationResult.t)) :
  slotIds (slots1 ++ slots2) = slotIds slots1 ++ slotIds slots2.
Proof. unfold slotIds. by rewrite omap_app, fmap_app. Qed.

Lemma slotIds_insert (slots : list (option ValidationResult.t)) (i : nat)
    (result : ValidationResult.t) :
  slots !! i = Some None →
  slotIds (<[i := Some result]> slots) ≡ₚ ValidationResult.id result :: slotIds slots.
Proof.
  revert i. induction slots as [| s slots IH]; intros i Hi; [done |].
  destruct i as [| i]; simpl in Hi.
  - injection Hi as ->. reflexivity.
  - specialize (IH i Hi). destruct s as [x |]; unfold slotIds in *; simpl.
    + rewrite IH. apply Permutation_swap.
    + exact IH.
Qed.

(** A result constructed when the counter has not gone back keeps the
    identifiers distinct. *)
Lemma ids_with_next (first next c : nat) (ids : list nat) :
  NoDup ids →
  Forall (λ i, first ≤ i < next) ids →
  first + length ids ≤ next →
  next ≤ c →
  NoDup (c :: ids)
  ∧ Forall (λ i, first ≤ i < S c) (c :: ids)
  ∧ first + length (c :: ids) ≤ S c.
Proof.
  intros Hdup Hrange Hcount Hc. split_and!.
  - apply NoDup_cons. split; [| done]. intros Hin.
    rewrite Forall_forall in Hrange. specialize (Hrange _ Hin). lia.
  - apply Forall_cons. split; [lia |].
    eapply Forall_impl; [exact Hrange |]. simpl. intros i. lia.
  - simpl. lia.
Qed.

Section IdFacts.
Context (others : nat → nat) (this : loc) (property : RuleProperty.t) (value : JsValue)
  (object : option Target) (tag : option string) (flags : nat).

Local Abbreviation rule_t := (loc * BaseValidationRule.t)%type.

Lemma launchAmid_ids (first : nat) (rules : list rule_t) :
  ∀ (slots : list (option ValidationResult.t)) (waiting : list Pending) (r : Run.t),
    idsDistinct first slots waiting r →
    ∀ slots' waiting' r',
      launchAmid others this property value object tag flags rules slots waiting r
      = (slots', waiting', r') →
      idsDistinct first slots' waiting' r'.
Proof.
  induction rules as [| rule rest IH]; intros slots waiting r Hinv slots' waiting' r';
    cbn [launchAmid].
  - by intros [= <- <- <-].
  - destruct (eligible object tag rule); [| by apply IH].
    destruct Hinv as (Hdup & Hrange & Hcount & Hslots & Hpending).
    assert (∀ p, p ∈ waiting → slot p < length slots) as Hlt
      by (intros p Hp; eapply lookup_lt_Some; by apply Hpending).
    destruct (BaseValidationRule.execute rule.2 value object) as [b | delay b];
      cbn [finishRuleAmid finishRule Run.nextId]; apply IH; unfold idsDistinct;
      cbn [Run.nextId].
    + destruct (ids_with_next first (Run.nextId r) (Run.nextId r + others (Run.nextId r))
                  (slotIds slots) Hdup Hrange Hcount ltac:(lia)) as (Hdup' & Hrange' & Hcount').
      assert (slotIds (slots ++ [Some {|
                ValidationResult.id := Run.nextId r + others (Run.nextId r);
                ValidationResult.valid := b;
                ValidationResult.message :=
                  if b then None
                  else Some (Evaluate.message (BaseValidationRule.message rule.2) flags
                               (createScope property value object rule.1));
                ValidationResult.propertyName := RuleProperty.name property;
                ValidationResult.object := object;
                ValidationResult.rule := rule.1;
                ValidationResult.propertyRule := this;
                ValidationResult.isManual := false |}])
              ≡ₚ (Run.nextId r + others (Run.nextId r)) :: slotIds slots) as Hperm.
      { rewrite slotIds_app. unfold slotIds at 2. simpl. symmetry. apply Permutation_cons_append. }
      split_and!; [by rewrite Hperm | by rewrite Hperm | by rewrite Hperm | done |].
      intros p Hp. rewrite lookup_app_l by (by apply Hlt). by apply Hpending.
    + assert (slotIds (slots ++ [None]) = slotIds slots) as ->.
      { rewrite slotIds_app. unfold slotIds at 2. simpl. by rewrite app_nil_r. }
      split_and!; [done.. | |].
      * rewrite fmap_app. simpl. apply NoDup_app. split_and!; [done | | apply NoDup_singleton].
        intros i (p & -> & Hp)%list_elem_of_fmap Heq%list_elem_of_singleton.
        specialize (Hlt p Hp). lia.
      * intros p [Hp | ->%list_elem_of_singleton]%elem_of_app.
        -- rewrite lookup_app_l by (by apply Hlt). by apply Hpending.
        -- simpl. rewrite lookup_app_r by lia. by rewrite Nat.sub_diag.
Qed.

Lemma resumeAmid_ids (first : nat) (waiting : list Pending) :
  ∀ (slots : list (option ValidationResult.t)) (r : Run.t),
    idsDistinct first slots waiting r →
    ∀ slots' r',
      resumeAmid others this property value object flags waiting slots r = (slots', r') →
      NoDup (slotIds slots')
      ∧ Forall (λ i, first ≤ i < Run.nextId r') (slotIds slots')
      ∧ first + length (slotIds slots') ≤ Run.nextId r'.
Proof.
  induction waiting as [| p rest IH];
    intros slots r (Hdup & Hrange & Hcount & Hslots & Hpending) slots' r'; cbn [resumeAmid].
  - by intros [= <- <-].
  - cbn [finishRuleAmid finishRule Run.nextId]. apply IH. unfold idsDistinct. cbn [Run.nextId].
    rewrite fmap_cons in Hslots. apply NoDup_cons in Hslots as [Hfresh Hslots].
    destruct (ids_with_next first (Run.nextId r) (Run.nextId r + others (Run.nextId r))
                (slotIds slots) Hdup Hrange Hcount ltac:(lia)) as (Hdup' & Hrange' & Hcount').
    pose proof (slotIds_insert slots (slot p)) as Hperm.
    split_and!.
    + rewrite Hperm by (apply Hpending, list_elem_of_here). done.
    + rewrite Hperm by (apply Hpending, list_elem_of_here). done.
    + rewrite Hperm by (apply Hpending, list_elem_of_here). done.
    + done.
    + intros q Hq. rewrite list_lookup_insert_ne.
      * by apply Hpending, list_elem_of_further.
      * intros Heq. apply Hfresh. rewrite Heq. by apply list_elem_of_fmap_2.
Qed.

Lemma validateRulesetAmid_ids (rules : list rule_t) (r : Run.t) :
  let run := validateRulesetAmid others this property value object tag flags rules r in
  NoDup (ValidationResult.id <$> run.1)
  ∧ Forall (λ i, Run.nextId r ≤ i < Run.nextId run.2) (ValidationResult.id <$> run.1)
  ∧ Run.nextId r + length run.1 ≤ Run.nextId run.2.
Proof.
  unfold validateRulesetAmid.
  destruct (launchAmid _ _ _ _ _ _ _ rules [] [] r) as [[slots waiting] r1] eqn:Hlaunch.
  destruct (resumeAmid _ _ _ _ _ _ (bySettleTime waiting) slots r1) as [slots1 r2] eqn:Hresume.
  cbn [fst snd].
  assert (idsDistinct (Run.nextId r) [] [] r) as Hstart.
  { unfold idsDistinct. simpl. split_and!; [constructor | constructor | lia | constructor |].
    by intros p Hp%elem_of_nil. }
  apply (launchAmid_ids _ _ _ _ _ Hstart) in Hlaunch
    as (Hdup & Hrange & Hcount & Hslots & Hpending).
  apply (resumeAmid_ids (Run.nextId r)) in Hresume.
  - destruct Hresume as (Hdup' & Hrange' & Hcount'). unfold slotIds in *.
    by rewrite length_fmap in Hcount'.
  - split_and!; [done.. | by rewrite bySettleTime_Permutation |].
    intros p Hp. apply Hpending. by rewrite <- bySettleTime_Permutation.
Qed.

Lemma runStagesAmid_ids (stages : list (list rule_t)) :
  ∀ (results : list ValidationResult.t) (r : Run.t),
    let run := runStagesAmid others this property value object tag flags results stages r in
    ∃ new, run.1 = results ++ new
      ∧ NoDup (ValidationResult.id <$> new)
      ∧ Forall (λ i, Run.nextId r ≤ i < Run.nextId run.2) (ValidationResult.id <$> new)
      ∧ Run.nextId r + length new ≤ Run.nextId run.2.
Proof.
  induction stages as [| ruleset rest IH]; intros results r.
  - exists []. cbn. rewrite app_nil_r. split_and!; [done | constructor | constructor | lia].
  - cbn [runStagesAmid]. unfold accumulateResultAmid, Promise_then, Promise_resolve.
    pose proof (validateRulesetAmid_ids ruleset r) as Hstage. cbv zeta in Hstage.
    destruct (validateRulesetAmid others this property value object tag flags ruleset r)
      as [stage r1].
    cbn [fst snd] in Hstage. destruct Hstage as (Hdup1 & Hrange1 & Hcount1).
    destruct (IH (results ++ stage) r1) as (new & Heq & Hdup2 & Hrange2 & Hcount2).
    exists (stage ++ new). split_and!.
    + by rewrite Heq, app_assoc.
    + rewrite fmap_app. apply NoDup_app. split_and!; [done | | done].
      intros i Hi1 Hi2. rewrite Forall_forall in Hrange1, Hrange2.
      specialize (Hrange1 _ Hi1). specialize (Hrange2 _ Hi2). lia.
    + rewrite fmap_app. apply Forall_app. split.
      * eapply Forall_impl; [exact Hrange1 |]. simpl. intros i. lia.
      * eapply Forall_impl; [exact Hrange2 |]. simpl. intros i. lia.
    + rewrite length_app. lia.
Qed.

(** The [reduce] chains every stage here too: it reads [isValid] before
    any job has run. *)
Lemma validateAmid_runStagesAmid (stages : list (list rule_t)) (r0 : Run.t) :
  validateAmid others this property value object tag flags stages r0
  = runStagesAmid others this property value object tag flags [] stages
      {| Run.isValid := true; Run.nextId := Run.nextId r0;
         Run.now := Run.now r0; Run.trace := Run.trace r0 |}.
Proof.
  unfold validateAmid.
  set (r := {| Run.isValid := true; Run.nextId := Run.nextId r0;
               Run.now := Run.now r0; Run.trace := Run.trace r0 |}).
  assert (∀ acc : Promise (list ValidationResult.t),
            (foldl (reducerAmid others this property value object tag flags) (acc, r) stages).2
            = r
            ∧ ∀ r1, (foldl (reducerAmid others this property value object tag flags) (acc, r)
                       stages).1 r1
                    = let '(results, r2) := acc r1 in
                      runStagesAmid others this property value object tag flags results
                        stages r2) as Hchain.
  { induction stages as [| ruleset rest IH]; intros acc.
    - split; [done |]. intros r1. simpl. unfold Promise_resolve. by destruct (acc r1).
    - cbn [foldl reducerAmid]. change (Run.isValid r) with true. cbv iota.
      destruct (IH (Promise_then acc
                      (λ accValidateResult,
                         accumulateResultAmid others this property value object tag flags
                           accValidateResult ruleset))) as [Hstate Hrest].
      split; [done |]. intros r1. rewrite Hrest. unfold Promise_then.
      destruct (acc r1) as [results r2]. reflexivity. }
  destruct (Hchain (Promise_resolve [])) as [Hstate Hrun].
  destruct (foldl _ _ stages) as [promise r1]. simpl in Hstate, Hrun. subst r1. apply Hrun.
Qed.

End IdFacts.

Section NoOthers.
Context (this : loc) (property : RuleProperty.t) (value : JsValue)
  (object : option Target) (tag : option string) (flags : nat).

Local Abbreviation rule_t := (loc * BaseValidationRule.t)%type.

Lemma finishRuleAmid_alone (rule : rule_t) (b : bool) (r : Run.t) :
  finishRuleAmid (λ _, 0) this property value object flags rule b r
  = finishRule this property value object flags rule b r.
Proof. unfold finishRuleAmid, finishRule. cbn [Run.nextId Run.isValid Run.now Run.trace].
  by rewrite Nat.add_0_r. Qed.

Lemma launchAmid_alone (rules : list rule_t) :
  ∀ slots waiting r,
    launchAmid (λ _, 0) this property value object tag flags rules slots waiting r
    = launch this property value object tag flags rules slots waiting r.
Proof.
  induction rules as [| rule rest IH]; intros slots waiting r; [reflexivity |].
  cbn [launchAmid launch]. destruct (eligible object tag rule); [| apply IH].
  destruct (BaseValidationRule.execute rule.2 value object) as [b | delay b]; [| apply IH].
  rewrite finishRuleAmid_alone.
  destruct (finishRule this property value object flags rule b _) as [result r2]. apply IH.
Qed.

Lemma resumeAmid_alone (waiting : list Pending) :
  ∀ slots r,
    resumeAmid (λ _, 0) this property value object flags waiting slots r
    = resume this property value object flags waiting slots r.
Proof.
  induction waiting as [| p rest IH]; intros slots r; [reflexivity |].
  cbn [resumeAmid resume]. rewrite finishRuleAmid_alone.
  destruct (finishRule this property value object flags (pendingRule p) (settlesAs p) _)
    as [result r2].
  apply IH.
Qed.

Lemma runStagesAmid_alone (stages : list (list rule_t)) :
  ∀ results r,
    runStagesAmid (λ _, 0) this property value object tag flags results stages r
    = runStages this property value object tag flags results stages r.
Proof.
  induction stages as [| ruleset rest IH]; intros results r; [reflexivity |].
  cbn [runStagesAmid runStages].
  unfold accumulateResultAmid, accumulateResult, Promise_then, validateRulesetAmid,
    validateRuleset.
  rewrite launchAmid_alone.
  destruct (launch this property value object tag flags ruleset [] [] r)
    as [[slots waiting] r1].
  rewrite resumeAmid_alone.
  destruct (resume this property value object flags (bySettleTime waiting) slots r1)
    as [slots1 r2].
  unfold Promise_resolve. apply IH.
Qed.

End NoOthers.

(** X17. The identifiers of the results of one call of [validate] are
    pairwise distinct, whatever other results are constructed while the
    call runs: by the [execute] of a rule or by any job that runs while the
    call waits, another call of [validate] for one. Each identifier is at
    least the value of the counter [nextId] at the call and below its
    value at the end, and the counter has advanced by at least the number
    of results. With no other construction the run is that of
    [validate]. When another call constructs one result between the two
    stages of a call, the results of the call have the identifiers 0
    and 2. *)
Theorem validate_result_ids (others : nat → nat)
    (this : loc) (property : RuleProperty.t) (value : JsValue) (object : option Target)
    (tag : option string) (flags : nat)
    (stages : list (list (loc * BaseValidationRule.t))) (r0 : Run.t) :
  let run := validateAmid others this property value object tag flags stages r0 in
  NoDup (ValidationResult.id <$> run.1)
  ∧ Forall (λ i, Run.nextId r0 ≤ i < Run.nextId run.2) (ValidationResult.id <$> run.1)
  ∧ Run.nextId r0 + length run.1 ≤ Run.nextId run.2
  ∧ validateAmid (λ _, 0) this property value object tag flags stages r0
    = validate this property value object tag flags stages r0
  ∧ summary (validateAmid (λ c, if c =? 1 then 1 else 0) this property value object None
               flags
               [[(1, ruleReturning anyMessage (Now true))];
                [(2, ruleReturning anyMessage (Now true))]] startRun).1
    = [(1, true, 0); (2, true, 2)].
Proof.
  intros run. subst run. rewrite !validateAmid_runStagesAmid, validate_runStages.
  set (start := {| Run.isValid := true; Run.nextId := Run.nextId r0;
                   Run.now := Run.now r0; Run.trace := Run.trace r0 |}).
  destruct (runStagesAmid_ids others this property value object tag flags stages [] start)
    as (new & Heq & Hdup & Hrange & Hcount).
  rewrite Heq. cbn [app]. cbn [Run.nextId start] in Hrange, Hcount.
  split_and!; [done | done | done | apply runStagesAmid_alone | reflexivity].
Qed.

(** ** The fluent interface and [validate] *)

Lemma stageRules_elem (st : Store) (stage : list loc) (l : loc) (x : BaseValidationRule.t) :
  (l, x) ∈ stageRules st stage → ruleHeap st !! l = Some x.
Proof.
  unfold stageRules. intros (l' & _ & Hl)%list_elem_of_omap.
  destruct (ruleHeap st !! l') as [x' |] eqn:Hx; [| done].
  simpl in Hl. injection Hl as <- <-. done.
Qed.

Section Skipped.
Context (this : loc) (property : RuleProperty.t) (value : JsValue)
  (object : option Target) (tag : option string) (flags : nat).

Local Abbreviation rule_t := (loc * BaseValidationRule.t)%type.

Lemma eligibleRules_elem (stages : list (list rule_t)) (rule : rule_t) :
  rule ∈ eligibleRules object tag stages →
  eligible object tag rule = true ∧ ∃ stage, stage ∈ stages ∧ rule ∈ stage.
Proof.
  unfold eligibleRules. rewrite list_elem_of_In, in_concat.
  intros (filtered & Hin & Hrule). rewrite <- list_elem_of_In in Hin.
  apply list_elem_of_fmap in Hin as (stage & -> & Hstage).
  apply filter_In in Hrule as [Hrule Helig]. rewrite <- list_elem_of_In in Hrule. eauto.
Qed.

(** A rule that is not eligible wherever it stands in the stages is not
    executed and has no result. *)
Lemma skipped_rule (stages : list (list rule_t)) (r0 : Run.t) (l : loc) :
  (∀ stage x, stage ∈ stages → (l, x) ∈ stage → eligible object tag (l, x) = false) →
  let run := validate this property value object tag flags stages r0 in
  (∃ events, Run.trace run.2 = Run.trace r0 ++ events ∧ l ∉ executedRules events)
  ∧ Forall (λ result, ValidationResult.rule result ≠ l) run.1.
Proof.
  intros Hskip run. subst run. rewrite validate_runStages.
  set (start := {| Run.isValid := true; Run.nextId := Run.nextId r0;
                   Run.now := Run.now r0; Run.trace := Run.trace r0 |}).
  destruct (runStages this property value object tag flags [] stages start)
    as [results r'] eqn:Hrun.
  apply runStages_results in Hrun as (new & -> & Hnew & Hexec & _ & events & Htrace & _).
  cbn [fst snd app]. cbn [Run.trace start] in *.
  assert (∀ rule, rule ∈ eligibleRules object tag stages → rule.1 ≠ l) as Hother.
  { intros [l' x] Hrule ?. simplify_eq/=.
    apply eligibleRules_elem in Hrule as (Helig & stage & Hstage & Hin).
    by rewrite (Hskip stage x Hstage Hin) in Helig. }
  split.
  - exists events. split; [done |].
    rewrite Htrace, executedRules_app in Hexec. apply app_inv_head in Hexec. rewrite Hexec.
    intros (rule & -> & Hrule)%list_elem_of_fmap. by apply (Hother rule).
  - apply Forall_forall. intros result Hresult.
    apply list_elem_of_lookup in Hresult as [i Hi].
    destruct (Forall2_lookup_r _ _ _ _ _ Hnew Hi) as (rule & Hrule & Hof).
    destruct Hof as [-> _]. apply Hother. by eapply list_elem_of_lookup_2.
Qed.

End Skipped.

(** X18. Selective validation through the fluent interface: after
    [tag(t)] has tagged the latest rule, [validate] with another tag does
    not execute that rule and returns no result for it. *)
Theorem tagged_rule_skipped_for_other_tag (st : Store) (this : loc) (pr : PropertyRule.t)
    (latest : loc) (x : BaseValidationRule.t) (t t' : string)
    (value : JsValue) (object : option Target) (flags : nat) (r0 : Run.t) :
  propertyRuleHeap st !! this = Some pr →
  PropertyRule.latestRule pr = Some latest →
  ruleHeap st !! latest = Some x →
  t' ≠ t →
  ∃ st1 run,
    PropertyRule_tag this t st = (Normal this, st1)
    ∧ PropertyRule_validate st1 this value object (Some t') flags r0 = Normal run
    ∧ (∃ events, Run.trace run.2 = Run.trace r0 ++ events ∧ latest ∉ executedRules events)
    ∧ Forall (λ result, ValidationResult.rule result ≠ latest) run.1.
Proof.
  intros Hthis Hlatest Hx Hne. unfold PropertyRule_tag, assertLatesRule. unfold_monad.
  rewrite Hthis, Hlatest, Hx. eexists _, _. split; [reflexivity |].
  unfold PropertyRule_validate. store_simpl. rewrite Hthis. split; [reflexivity |].
  apply skipped_rule. intros stage x' (ids & -> & _)%list_elem_of_fmap Hin.
  apply stageRules_elem in Hin. store_simpl.
  rewrite list_lookup_insert_eq in Hin by (by eapply lookup_lt_Some).
  injection Hin as <-. unfold eligible. cbn.
  rewrite bool_decide_eq_false_2; [apply andb_false_r | congruence].
Qed.

(** X19. Conditional validation through the fluent interface: after
    [when(condition)] has set the condition of the latest rule, [validate]
    for an object that the condition refuses does not execute that rule
    and returns no result for it, whatever the tag. *)
Theorem refused_rule_skipped (st : Store) (this : loc) (pr : PropertyRule.t)
    (latest : loc) (x : BaseValidationRule.t) (condition : option Target → bool)
    (value : JsValue) (object : option Target) (tag : option string) (flags : nat)
    (r0 : Run.t) :
  propertyRuleHeap st !! this = Some pr →
  PropertyRule.latestRule pr = Some latest →
  ruleHeap st !! latest = Some x →
  condition object = false →
  ∃ st1 run,
    PropertyRule_when this condition st = (Normal this, st1)
    ∧ PropertyRule_validate st1 this value object tag flags r0 = Normal run
    ∧ (∃ events, Run.trace run.2 = Run.trace r0 ++ events ∧ latest ∉ executedRules events)
    ∧ Forall (λ result, ValidationResult.rule result ≠ latest) run.1.
Proof.
  intros Hthis Hlatest Hx Hrefused. unfold PropertyRule_when, assertLatesRule. unfold_monad.
  rewrite Hthis, Hlatest, Hx. eexists _, _. split; [reflexivity |].
  unfold PropertyRule_validate. store_simpl. rewrite Hthis. split; [reflexivity |].
  apply skipped_rule. intros stage x' (ids & -> & _)%list_elem_of_fmap Hin.
  apply stageRules_elem in Hin. store_simpl.
  rewrite list_lookup_insert_eq in Hin by (by eapply lookup_lt_Some).
  injection Hin as <-. unfold eligible. cbn. by rewrite Hrefused.
Qed.

Lemma tagged_rule_skipped_for_other_tag_witness :
  let st := (twoStages emptyStore).2 in
  ∃ st1 run,
    PropertyRule_tag 0 "slow" st = (Normal 0, st1)
    ∧ PropertyRule_validate st1 0 JsUndefined None (Some "fast") 0 startRun = Normal run
    ∧ (∃ events, Run.trace run.2 = Run.trace startRun ++ events ∧ 1 ∉ executedRules events)
    ∧ Forall (λ result, ValidationResult.rule result ≠ 1) run.1.
Proof.
  intros st.
  eapply (tagged_rule_skipped_for_other_tag st 0 _ 1 _ "slow" "fast"); try reflexivity.
  discriminate.
Defined.

Lemma refused_rule_skipped_witness :
  let st := (twoStages emptyStore).2 in
  ∃ st1 run,
    PropertyRule_when 0 (λ _, false) st = (Normal 0, st1)
    ∧ PropertyRule_validate st1 0 JsUndefined None None 0 startRun = Normal run
    ∧ (∃ events, Run.trace run.2 = Run.trace startRun ++ events ∧ 1 ∉ executedRules events)
    ∧ Forall (λ result, ValidationResult.rule result ≠ 1) run.1.
Proof.
  intros st.
  eapply (refused_rule_skipped st 0 _ 1 _ (λ _, false)); reflexivity.
Defined.

(** ** Stages through the fluent interface *)

(** X20. [then()] followed by [addRule(rule)]: both return the property
    rule, the stages it had are left as they were, and the rule stands
    alone in a new last stage and is the latest rule. *)
Theorem then_addRule_opens_stage (st : Store) (this rule : loc) (pr : PropertyRule.t) :
  propertyRuleHeap st !! this = Some pr →
  ∃ st1 st2,
    PropertyRule_then this st = (Normal this, st1)
    ∧ PropertyRule_addRule this rule st1 = (Normal this, st2)
    ∧ propertyRuleHeap st2 !! this
      = Some {| PropertyRule.validationRules := PropertyRule.validationRules pr;
                PropertyRule.property := PropertyRule.property pr;
                PropertyRule._rules := PropertyRule._rules pr ++ [[rule]];
                PropertyRule.latestRule := Some rule |}
    ∧ ruleHeap st2 = ruleHeap st.
Proof.
  intros Hthis. assert (this < length (propertyRuleHeap st)) as Hlt
    by (by eapply lookup_lt_Some).
  unfold PropertyRule_then, PropertyRule_addRule. unfold_monad. rewrite Hthis. store_simpl.
  eexists _, _. split; [reflexivity |]. store_simpl.
  rewrite list_lookup_insert_eq by done. cbn [PropertyRule._rules].
  rewrite length_app. cbn [length]. 
  replace (length (PropertyRule._rules pr) + 1 - 1) with (length (PropertyRule._rules pr) + 0)
    by lia.
  rewrite lookup_app_r by lia.
  replace (length (PropertyRule._rules pr) + 0 - length (PropertyRule._rules pr)) with 0 by lia.
  cbn [lookup list_lookup]. split; [reflexivity |]. store_simpl.
  rewrite list_lookup_insert_eq by (by rewrite length_insert).
  split; [| done]. do 2 f_equal. cbn.
  rewrite insert_app_r_alt by lia.
  by replace (length (PropertyRule._rules pr) + 0 - length (PropertyRule._rules pr)) with 0
    by lia.
Qed.

Lemma then_addRule_opens_stage_witness :
  let st := (twoStages emptyStore).2 in
  ∃ st1 st2,
    PropertyRule_then 0 st = (Normal 0, st1)
    ∧ PropertyRule_addRule 0 5 st1 = (Normal 0, st2)
    ∧ propertyRuleHeap st2 !! 0
      = Some {| PropertyRule.validationRules := 0;
                PropertyRule.property :=
                  RuleProperty.new (Some (AccessScopeExpression "a" 0)) (Some (NameString "a"));
                PropertyRule._rules := [[0]; [1]] ++ [[5]];
                PropertyRule.latestRule := Some 5 |}
    ∧ ruleHeap st2 = ruleHeap st.
Proof.
  intros st.
  apply (then_addRule_opens_stage st 0 5
           {| PropertyRule.validationRules := 0;
              PropertyRule.property :=
                RuleProperty.new (Some (AccessScopeExpression "a" 0)) (Some (NameString "a"));
              PropertyRule._rules := [[0]; [1]];
              PropertyRule.latestRule := Some 1 |}).
  reflexivity.
Defined.

(** X21. [then()] is no chain boundary for the modifiers: it leaves the
    latest rule as it is, so [tag], [when] and [withMessageKey] called
    right after [then()] return and change the rule added before it, the
    rule of the stage before. *)
Theorem modifiers_after_then_reach_earlier_rule (st : Store) (this latest : loc)
    (pr : PropertyRule.t) (x : BaseValidationRule.t) (t key : string)
    (condition : option Target → bool) :
  propertyRuleHeap st !! this = Some pr →
  PropertyRule.latestRule pr = Some latest →
  ruleHeap st !! latest = Some x →
  ∃ st1, PropertyRule_then this st = (Normal this, st1)
    ∧ (∃ st2 x2, PropertyRule_tag this t st1 = (Normal this, st2)
         ∧ ruleHeap st2 !! latest = Some x2 ∧ BaseValidationRule.tag x2 = Some t)
    ∧ (∃ st2 x2, PropertyRule_when this condition st1 = (Normal this, st2)
         ∧ ruleHeap st2 !! latest = Some x2 ∧ BaseValidationRule.canExecute x2 = condition)
    ∧ (∃ st2 x2, PropertyRule_withMessageKey this key st1 = (Normal this, st2)
         ∧ ruleHeap st2 !! latest = Some x2 ∧ BaseValidationRule.messageKey x2 = Some key).
Proof.
  intros Hthis Hlatest Hx.
  assert (this < length (propertyRuleHeap st)) as Hlt by (by eapply lookup_lt_Some).
  assert (latest < length (ruleHeap st)) as Hlt' by (by eapply lookup_lt_Some).
  unfold PropertyRule_then, PropertyRule_tag, PropertyRule_when, PropertyRule_withMessageKey,
    assertLatesRule.
  unfold_monad. rewrite Hthis. eexists. split; [reflexivity |]. store_simpl.
  rewrite list_lookup_insert_eq by done. cbn [PropertyRule.latestRule].
  rewrite Hlatest. store_simpl. rewrite Hx.
  split_and!; eexists _, _; (split; [reflexivity |]); store_simpl;
    rewrite list_lookup_insert_eq by done; done.
Qed.

Lemma modifiers_after_then_reach_earlier_rule_witness :
  let st := (twoStages emptyStore).2 in
  ∃ st1, PropertyRule_then 0 st = (Normal 0, st1)
    ∧ (∃ st2 x2, PropertyRule_tag 0 "slow" st1 = (Normal 0, st2)
         ∧ ruleHeap st2 !! 1 = Some x2 ∧ BaseValidationRule.tag x2 = Some "slow")
    ∧ (∃ st2 x2, PropertyRule_when 0 (λ _, false) st1 = (Normal 0, st2)
         ∧ ruleHeap st2 !! 1 = Some x2 ∧ BaseValidationRule.canExecute x2 = (λ _, false))
    ∧ (∃ st2 x2, PropertyRule_withMessageKey 0 "key" st1 = (Normal 0, st2)
         ∧ ruleHeap st2 !! 1 = Some x2 ∧ BaseValidationRule.messageKey x2 = Some "key").
Proof.
  intros st.
  eapply (modifiers_after_then_reach_earlier_rule st 0 1 _ _ "slow" "key" (λ _, false));
    reflexivity.
Defined.

(** ** The message provider: [getMessage] and the log of [parseMessage] *)

Lemma find_none_by_name (validationMessages : list ValidationRuleAlias.t)
    (messageKey : option string) :
  (∀ m, m ∈ validationMessages → ValidationRuleAlias.name m ≠ messageKey) →
  List.find (λ m, bool_decide (ValidationRuleAlias.name m = messageKey))
    validationMessages = None.
Proof.
  intros Hnone. induction validationMessages as [| m rest IH]; [reflexivity |]. simpl.
  rewrite bool_decide_eq_false_2 by (apply Hnone, list_elem_of_here).
  apply IH. intros m' Hm'. by apply Hnone, list_elem_of_further.
Qed.

Lemma find_first_by_name (before after : list ValidationRuleAlias.t)
    (m : ValidationRuleAlias.t) (messageKey : option string) :
  (∀ m', m' ∈ before → ValidationRuleAlias.name m' ≠ messageKey) →
  ValidationRuleAlias.name m = messageKey →
  List.find (λ m, bool_decide (ValidationRuleAlias.name m = messageKey))
    (before ++ m :: after) = Some m.
Proof.
  intros Hbefore Hm. induction before as [| m' before IH]; simpl.
  - by rewrite bool_decide_eq_true_2.
  - rewrite bool_decide_eq_false_2 by (apply Hbefore, list_elem_of_here).
    apply IH. intros m'' Hm''. by apply Hbefore, list_elem_of_further.
Qed.

(** X22. [getMessage] falls back on the first default message of the base
    rule in three cases: the rule has a message key that is the name of
    none of its default messages, even when it has exactly one default
    message; the rule has no message key, does not have exactly one
    default message, and each of them has a name; the message picked has
    no text or the empty text. The rule's only default message is used
    when there is no key and the message has a text, whatever its name.
    With no key and not exactly one default message, the first default
    message that has no name is the one picked. *)
Theorem getMessage_falls_back (parser : IExpressionParser)
    (parseUndefined : list string → Completion MessageExpression * list string)
    (others : list ValidationRuleAlias.t) (base : ValidationRuleAlias.t)
    (fallback : string) (log : list string) :
  ValidationRuleAlias.defaultMessage base = Some fallback →
  (∀ validationMessages key,
     (∀ m, m ∈ validationMessages → ValidationRuleAlias.name m ≠ Some key) →
     getMessage parser parseUndefined validationMessages (base :: others) (Some key) log
     = parseMessage parser fallback log)
  ∧ (∀ validationMessages,
       length validationMessages ≠ 1 →
       (∀ m, m ∈ validationMessages → ValidationRuleAlias.name m ≠ None) →
       getMessage parser parseUndefined validationMessages (base :: others) None log
       = parseMessage parser fallback log)
  ∧ (∀ validationMessages messageKey,
       isFalsy (pickMessage validationMessages messageKey) = true →
       getMessage parser parseUndefined validationMessages (base :: others) messageKey log
       = parseMessage parser fallback log)
  ∧ (∀ name text, text ≠ EmptyString →
       getMessage parser parseUndefined
         [{| ValidationRuleAlias.name := name; ValidationRuleAlias.defaultMessage := Some text |}]
         (base :: others) None log
       = parseMessage parser text log)
  ∧ (∀ before after m text,
       length (before ++ m :: after) ≠ 1 →
       (∀ m', m' ∈ before → ValidationRuleAlias.name m' ≠ None) →
       ValidationRuleAlias.name m = None →
       ValidationRuleAlias.defaultMessage m = Some text →
       text ≠ EmptyString →
       getMessage parser parseUndefined (before ++ m :: after) (base :: others) None log
       = parseMessage parser text log).
Proof.
  intros Hbase.
  assert (∀ validationMessages messageKey,
            isFalsy (pickMessage validationMessages messageKey) = true →
            getMessage parser parseUndefined validationMessages (base :: others) messageKey log
            = parseMessage parser fallback log) as Hfalsy.
  { intros validationMessages messageKey Hpick. unfold getMessage. rewrite Hpick. simpl.
    by rewrite Hbase. }
  split_and!.
  - intros validationMessages key Hnone. apply Hfalsy. unfold pickMessage.
    rewrite bool_decide_eq_false_2 by done. rewrite andb_false_r.
    by rewrite find_none_by_name.
  - intros validationMessages Hcount Hnamed. apply Hfalsy. unfold pickMessage.
    rewrite (proj2 (Nat.eqb_neq _ _) Hcount). cbn [andb].
    by rewrite find_none_by_name.
  - exact Hfalsy.
  - intros name text Htext. unfold getMessage, pickMessage. simpl.
    destruct (String.eqb_spec text EmptyString); [done |]. reflexivity.
  - intros before after m text Hcount Hbefore Hname Htext Hnonempty.
    unfold getMessage, pickMessage.
    rewrite (proj2 (Nat.eqb_neq _ _) Hcount). cbn [andb].
    rewrite find_first_by_name by done. simpl. rewrite Htext. simpl.
    destruct (String.eqb_spec text EmptyString); [done |]. reflexivity.
Qed.

(** Each case at a table of its own: a key that names no message of a
    table of one, no key with two named messages, an only message with the
    empty text, an only message with a text, and no key with a named
    message before one that has no name. *)
Lemma getMessage_falls_back_witness :
  let required := {| ValidationRuleAlias.name := Some "required";
                     ValidationRuleAlias.defaultMessage := Some requiredTemplate |} in
  let invalid := {| ValidationRuleAlias.name := Some "invalid";
                    ValidationRuleAlias.defaultMessage := Some "${$displayName} is wrong." |} in
  let empty := {| ValidationRuleAlias.name := Some "empty";
                  ValidationRuleAlias.defaultMessage := Some EmptyString |} in
  let unnamed := {| ValidationRuleAlias.name := None;
                    ValidationRuleAlias.defaultMessage := Some "no name" |} in
  let base := {| ValidationRuleAlias.name := Some "default";
                 ValidationRuleAlias.defaultMessage := Some "${$displayName} is invalid." |} in
  let get := getMessage MiniParser.parser (λ log, (Throw "undefined", log)) in
  get [required] [base] (Some "missing") []
  = parseMessage MiniParser.parser "${$displayName} is invalid." []
  ∧ get [required; invalid] [base] None []
    = parseMessage MiniParser.parser "${$displayName} is invalid." []
  ∧ get [empty] [base] None []
    = parseMessage MiniParser.parser "${$displayName} is invalid." []
  ∧ get [required] [base] None [] = parseMessage MiniParser.parser requiredTemplate []
  ∧ get [required; unnamed] [base] None [] = parseMessage MiniParser.parser "no name" [].
Proof.
  intros required invalid empty unnamed base get.
  destruct (getMessage_falls_back MiniParser.parser (λ log, (Throw "undefined", log))
              [] base "${$displayName} is invalid." [] eq_refl)
    as (Hkey & Hcount & Hfalsy & Honly & Hunnamed).
  split_and!.
  - apply Hkey. intros m ->%list_elem_of_singleton. discriminate.
  - apply Hcount; [discriminate |].
    intros m [-> | ->%list_elem_of_singleton]%elem_of_cons; discriminate.
  - apply Hfalsy. reflexivity.
  - apply Honly. discriminate.
  - apply (Hunnamed [required] [] unnamed "no name"); try done.
    intros m ->%list_elem_of_singleton. discriminate.
Defined.

(** X23. When [parseMessage] throws for an expression that refers to a
    parent scope, the logger has been told the warnings for the expressions
    before it and for the expression itself, when its name is a reserved
    one; the expressions after it are not looked at. *)
Theorem parseMessage_warns_before_throwing (parser : IExpressionParser) (message : string)
    (log : list string) (parsed : Interpolation)
    (before after : list IsBindingBehavior) (e : IsBindingBehavior) :
  parseInterpolation parser message = Normal (Some parsed) →
  expressions parsed = before ++ e :: after →
  Forall (λ e', referencesParent e' = false) before →
  referencesParent e = true →
  parseMessage parser message log
  = (Throw parentError, log ++ warningsOf message (before ++ [e])).
Proof.
  intros Hparsed Hexprs Hbefore He. unfold parseMessage. rewrite Hparsed, Hexprs.
  assert (checkExpressions message (before ++ e :: after) log
          = (Throw parentError, log ++ warningsOf message (before ++ [e]))) as ->; [| done].
  clear Hparsed Hexprs. revert log.
  induction Hbefore as [| e' rest He' _ IH]; intros log; cbn [app checkExpressions].
  - rewrite He. unfold warningsOf. simpl.
    destruct (contextualProperties_has (expressionName e)); simpl; [done |].
    by rewrite app_nil_r.
  - rewrite He', IH. unfold warningsOf. simpl.
    destruct (contextualProperties_has (expressionName e')); simpl; [| done].
    by rewrite <- app_assoc.
Qed.

Lemma parseMessage_warns_before_throwing_witness :
  let message := "${value} is not ${$parent.value} or ${object}" in
  parseMessage MiniParser.parser message []
  = (Throw parentError,
     [] ++ warningsOf message ([AccessScopeExpression "value" 0]
                               ++ [AccessScopeExpression "value" 1])).
Proof.
  intros message.
  apply (parseMessage_warns_before_throwing MiniParser.parser message []
           {| parts := [EmptyString; " is not "; " or "; EmptyString];
              expressions := [AccessScopeExpression "value" 0;
                              AccessScopeExpression "value" 1;
                              AccessScopeExpression "object" 0] |}
           [AccessScopeExpression "value" 0] [AccessScopeExpression "object" 0]
           (AccessScopeExpression "value" 1)).
  - reflexivity.
  - reflexivity.
  - repeat constructor.
  - reflexivity.
Defined.

(** ** The proxies of a property rule, and what [ensure] keeps *)

(** X24. [on] and the getter [rules] of a property rule go through its
    builder: after [propertyRule.on(target, tag)], which returns the
    builder, [propertyRule.rules] is the very list the registrar holds for
    the target and the tag, whether [on] adopted a list, made a new one or
    had nothing to do. *)
Theorem property_rule_rules_after_on (st : Store) (this : loc) (pr : PropertyRule.t)
    (b : ValidationRules.t) (target : Target) (tag : option string) :
  propertyRuleHeap st !! this = Some pr →
  builderHeap st !! PropertyRule.validationRules pr = Some b →
  ∃ st1 list,
    PropertyRule_on this target tag st = (Normal (PropertyRule.validationRules pr), st1)
    ∧ PropertyRule_rules this st1 = (Normal list, st1)
    ∧ validationRulesRegistrar.get target tag (metadata st1) = Some list.
Proof.
  intros Hthis Hb.
  assert (PropertyRule.validationRules pr < length (builderHeap st)) as Hlt
    by (by eapply lookup_lt_Some).
  unfold PropertyRule_on, PropertyRule_rules, ValidationRules_on. unfold_monad.
  rewrite Hthis, Hb.
  destruct (bool_decide _) eqn:Hdec.
  - apply bool_decide_eq_true_1 in Hdec.
    eexists _, _. split; [reflexivity |]. rewrite Hthis, Hb. split; [reflexivity | done].
  - destruct (validationRulesRegistrar.get target tag (metadata st)) as [registered |];
      eexists _, _; (split; [reflexivity |]); store_simpl; rewrite Hthis; store_simpl;
      rewrite list_lookup_insert_eq by (by rewrite length_insert);
      (split; [reflexivity |]); apply registrar_get_set.
Qed.

Lemma property_rule_rules_after_on_witness :
  let st := (twoStages emptyStore).2 in
  ∃ st1 list,
    PropertyRule_on 0 7 (Some "t1") st = (Normal 0, st1)
    ∧ PropertyRule_rules 0 st1 = (Normal list, st1)
    ∧ validationRulesRegistrar.get 7 (Some "t1") (metadata st1) = Some list.
Proof.
  intros st.
  apply (property_rule_rules_after_on st 0
           {| PropertyRule.validationRules := 0;
              PropertyRule.property :=
                RuleProperty.new (Some (AccessScopeExpression "a" 0)) (Some (NameString "a"));
              PropertyRule._rules := [[0]; [1]];
              PropertyRule.latestRule := Some 1 |}
           {| ValidationRules.rules := 0; ValidationRules.targets := ∅ |}
           7 (Some "t1")); reflexivity.
Defined.

Section EnsureKeeps.
Context (looseEqualsNumber : Z -> string -> bool) (parser : IExpressionParser).

(** X25. A call of [ensure] that returns keeps the rules of the builder:
    the list it had is the beginning of the list it has afterwards, at
    most one rule longer; the rule returned is in the list, and its
    property name is loosely equal to the name the argument resolves
    to. *)
Theorem ensure_keeps_rules (this : loc) (property : PropertyArg) (st st' : Store)
    (r : loc) (b : ValidationRules.t) (rules : list loc) :
  ValidationRules_ensure looseEqualsNumber parser this property st = (Normal r, st') →
  builderHeap st !! this = Some b →
  arrayHeap st !! ValidationRules.rules b = Some rules →
  ∃ rules' pr name expression,
    builderHeap st' !! this = Some b
    ∧ arrayHeap st' !! ValidationRules.rules b = Some rules'
    ∧ rules `prefix_of` rules'
    ∧ length rules' ≤ S (length rules)
    ∧ r ∈ rules'
    ∧ propertyRuleHeap st' !! r = Some pr
    ∧ parsePropertyName property parser = Normal (name, expression)
    ∧ looseEquals looseEqualsNumber (RuleProperty.name (PropertyRule.property pr)) name = true.
Proof.
  intros Hensure Hb Hrules.
  destruct (ValidationRules_ensure_returns looseEqualsNumber parser this property st st' r
              Hensure) as (name & expression & b0 & rules0 & Hparse & Hb0 & Hrules0 & Hcases).
  simplify_eq.
  destruct Hcases as [[Hfind ->] | (Hfind & -> & ->)].
  - destruct (findInHeap_Some looseEqualsNumber _ _ _ _ Hfind) as (pr & Hpr & Hname).
    exists rules, pr, name, expression. split_and!; try done.
    + lia.
    + by eapply findInHeap_elem.
  - exists (rules ++ [length (propertyRuleHeap st)]),
      (freshPropertyRule this (Some expression) (Some (NameString name))), name, expression.
    store_simpl. split_and!; try done.
    + apply list_lookup_insert_eq. by eapply lookup_lt_Some.
    + by apply prefix_app_r.
    + rewrite length_app. simpl. lia.
    + apply elem_of_app. right. by apply list_elem_of_singleton.
    + rewrite lookup_app_r by lia. by rewrite Nat.sub_diag.
    + simpl. apply String.eqb_refl.
Qed.

End EnsureKeeps.

Lemma ensure_keeps_rules_witness :
  let st := (twoStages emptyStore).2 in
  let st' := (ValidationRules_ensure decimalEquals MiniParser.parser 0 (ArgString "b") st).2 in
  ∃ rules' pr name expression,
    builderHeap st' !! 0 = Some {| ValidationRules.rules := 0; ValidationRules.targets := ∅ |}
    ∧ arrayHeap st' !! 0 = Some rules'
    ∧ [0] `prefix_of` rules'
    ∧ length rules' ≤ 2
    ∧ 1 ∈ rules'
    ∧ propertyRuleHeap st' !! 1 = Some pr
    ∧ parsePropertyName (ArgString "b") MiniParser.parser = Normal (name, expression)
    ∧ looseEquals decimalEquals (RuleProperty.name (PropertyRule.property pr)) name = true.
Proof.
  intros st st'.
  apply (ensure_keeps_rules decimalEquals MiniParser.parser 0 (ArgString "b") st st' 1
           {| ValidationRules.rules := 0; ValidationRules.targets := ∅ |} [0]); reflexivity.
Defined.

(** ** Accessor functions in general *)

Section RunFacts2.
Context {R : Type}.
Implicit Types (k : list ascii → option (list ascii) → option R).

Lemma run_Seq (r1 r2 : Regex.regex) s cap k :
  Regex.run (Regex.Seq r1 r2) s cap k
  = Regex.run r1 s cap (λ s' cap', Regex.run r2 s' cap' k).
Proof. reflexivity. Qed.

Lemma run_Alt_first (r1 r2 : Regex.regex) s cap k (x : R) :
  Regex.run r1 s cap k = Some x → Regex.run (Regex.Alt r1 r2) s cap k = Some x.
Proof. intros Hfirst. simpl. by rewrite Hfirst. Qed.

Lemma run_Alt_second (r1 r2 : Regex.regex) s cap k :
  Regex.run r1 s cap k = None →
  Regex.run (Regex.Alt r1 r2) s cap k = Regex.run r2 s cap k.
Proof. intros Hfirst. simpl. by rewrite Hfirst. Qed.

Lemma run_Star (r1 : Regex.regex) s cap k :
  Regex.run (Regex.Star r1) s cap k = starLoop r1 k (length s) s cap.
Proof. reflexivity. Qed.

Lemma run_Class_pass (p : ascii → bool) c s cap k :
  p c = true → Regex.run (Regex.Class p) (c :: s) cap k = k s cap.
Proof. intros Hp. simpl. by rewrite Hp. Qed.

Lemma run_Class_fail (p : ascii → bool) s cap k :
  match s with [] => True | c :: _ => p c = false end →
  Regex.run (Regex.Class p) s cap k = None.
Proof. destruct s as [| c s]; simpl; [done |]. by intros ->. Qed.

Lemma run_Opt_skip (p : ascii → bool) s cap k :
  match s with [] => True | c :: _ => p c = false end →
  Regex.run (Regex.Opt (Regex.Class p)) s cap k = k s cap.
Proof.
  intros Hp. unfold Regex.Opt. by rewrite run_Alt_second by (by apply run_Class_fail).
Qed.

(** [run] calls its continuation on suffixes of the input only, and
    matches only if the continuation does. *)
Lemma run_none (r : Regex.regex) :
  ∀ s cap k,
    (∀ s' cap', s' `suffix_of` s → k s' cap' = None) →
    Regex.run r s cap k = None.
Proof.
  induction r as [| p | r1 IH1 r2 IH2 | r1 IH1 r2 IH2 | r1 IH1 | r1 IH1]; intros s cap k Hk.
  - by apply Hk.
  - destruct s as [| c s]; simpl; [done |]. destruct (p c); [| done].
    apply Hk. by apply suffix_cons_r.
  - rewrite run_Seq. apply IH1. intros s1 c1 Hs1. apply IH2.
    intros s2 c2 Hs2. apply Hk. by etrans.
  - simpl. rewrite IH1 by done. by apply IH2.
  - rewrite run_Star. generalize (length s) at 1. intros fuel.
    assert (s `suffix_of` s) as Hs by done. revert Hs. generalize s at 1 3 as s0.
    revert cap. induction fuel as [| fuel IHf]; intros cap s0 Hs0; cbn [starLoop].
    + by apply Hk.
    + rewrite IH1.
      * by apply Hk.
      * intros s' cap' Hs'. destruct (length s' <? length s0); [| done].
        apply IHf. by etrans.
  - simpl. apply IH1. intros s' cap' Hs'. by apply Hk.
Qed.

(** A starred class takes all the characters of the class that the input
    begins with, when the rest of the pattern matches after them. *)
Lemma starLoop_class_greedy (p : ascii → bool) k (x : R) (rest : list ascii) :
  match rest with [] => True | c :: _ => p c = false end →
  ∀ w fuel cap,
    Forall (λ c, p c = true) w →
    length (w ++ rest) ≤ fuel →
    k rest cap = Some x →
    starLoop (Regex.Class p) k fuel (w ++ rest) cap = Some x.
Proof.
  intros Hrest w. induction w as [| c w IH]; intros fuel cap Hw Hfuel Hk.
  - destruct fuel as [| fuel]; cbn [starLoop app]; [done |].
    by rewrite run_Class_fail.
  - destruct fuel as [| fuel]; [simpl in Hfuel; lia |].
    apply Forall_cons in Hw as [Hc Hw]. cbn [starLoop app].
    rewrite run_Class_pass by done.
    assert ((length (w ++ rest) <? length (c :: w ++ rest)) = true) as ->
      by (apply Nat.ltb_lt; simpl; lia).
    rewrite IH; [done | done | simpl in Hfuel; lia | done].
Qed.

Lemma run_star_class (p : ascii → bool) k (x : R) (w rest : list ascii) cap :
  match rest with [] => True | c :: _ => p c = false end →
  Forall (λ c, p c = true) w →
  k rest cap = Some x →
  Regex.run (Regex.Star (Regex.Class p)) (w ++ rest) cap k = Some x.
Proof. intros Hrest Hw Hk. rewrite run_Star. by apply starLoop_class_greedy. Qed.

Lemma run_plus_class (p : ascii → bool) k (x : R) (c : ascii) (w rest : list ascii) cap :
  match rest with [] => True | c :: _ => p c = false end →
  p c = true →
  Forall (λ c, p c = true) w →
  k rest cap = Some x →
  Regex.run (Regex.Plus (Regex.Class p)) (c :: w ++ rest) cap k = Some x.
Proof.
  intros Hrest Hc Hw Hk. unfold Regex.Plus. rewrite run_Seq, run_Class_pass by done.
  by apply run_star_class.
Qed.

End RunFacts2.

Lemma ident_not_paren (c : ascii) : Regex.ident c = true → Ascii.eqb "(" c = false.
Proof. destruct c as [[] [] [] [] [] [] [] []]; vm_compute; congruence. Qed.

Lemma ident_not_space (c : ascii) : Regex.ident c = true → Regex.space c = false.
Proof. destruct c as [[] [] [] [] [] [] [] []]; vm_compute; congruence. Qed.

Lemma identifierText_chars (s : string) :
  identifierText s = true →
  ∃ c w, list_ascii_of_string s = c :: w
         ∧ Regex.ident c = true ∧ Forall (λ c, Regex.ident c = true) w.
Proof.
  unfold identifierText. destruct s as [| c s]; [done |]. simpl.
  intros [Hc Hs]%andb_true_iff. exists c, (list_ascii_of_string s). split_and!; [done.. |].
  clear c Hc. induction s as [| c s IH]; simpl in *; [constructor |].
  apply andb_true_iff in Hs as [Hc Hs]. constructor; [done | by apply IH].
Qed.

Lemma list_ascii_of_string_app (a b : string) :
  list_ascii_of_string (a +:+ b) = list_ascii_of_string a ++ list_ascii_of_string b.
Proof. induction a as [| c a IH]; [reflexivity |]. rewrite append_cons. simpl. by rewrite IH. Qed.

Lemma memberChain_head (path : list string) :
  match memberChain path with [] => True | c :: _ => Regex.ident c = false end.
Proof. destruct path; reflexivity. Qed.

Lemma memberChain_join (name : string) (path : list string) :
  memberChain (name :: path)
  = list_ascii_of_string ("." +:+ JsString.join "." (name :: path)).
Proof.
  revert name. induction path as [| next path IH]; intros name.
  - unfold memberChain. simpl. by rewrite app_nil_r.
  - change (memberChain (name :: next :: path))
      with (("."%char :: list_ascii_of_string name) ++ memberChain (next :: path)).
    rewrite IH. unfold JsString.join.
    change (String.concat "." (name :: next :: path))
      with (name ++ "." ++ String.concat "." (next :: path))%string.
    rewrite !list_ascii_of_string_app. reflexivity.
Qed.

Section ChainFacts2.
Context {R : Type}.
Implicit Types (k : list ascii → option (list ascii) → option R).

(** One access of the chain: a dot and a name. *)
Lemma run_oneAccess (name : string) (rest : list ascii) cap k (x : R) :
  identifierText name = true →
  match rest with [] => True | c :: _ => Regex.ident c = false end →
  k rest cap = Some x →
  Regex.run oneAccess ("."%char :: list_ascii_of_string name ++ rest) cap k = Some x.
Proof.
  intros (c & w & -> & Hc & Hw)%identifierText_chars Hrest Hk.
  unfold oneAccess. apply run_Alt_first.
  rewrite run_Seq. unfold Regex.Chr at 1. rewrite run_Class_pass by reflexivity.
  cbn [app]. by rewrite (run_plus_class Regex.ident _ x).
Qed.

(** The accesses of a whole path, one iteration of the loop for each. *)
Lemma starLoop_memberChain k (x : R) :
  (∀ cap, k [] cap = Some x) →
  ∀ path fuel cap,
    Forall (λ name, identifierText name = true) path →
    length (memberChain path) ≤ fuel →
    starLoop oneAccess k fuel (memberChain path) cap = Some x.
Proof.
  intros Hk path. induction path as [| name path IH]; intros fuel cap Hpath Hfuel.
  - destruct fuel as [| fuel]; cbn [starLoop]; [apply Hk |].
    change (memberChain []) with (@nil ascii). simpl. apply Hk.
  - apply Forall_cons in Hpath as [Hname Hpath].
    change (memberChain (name :: path))
      with ("."%char :: list_ascii_of_string name ++ memberChain path) in *.
    destruct fuel as [| fuel]; [simpl in Hfuel; lia |]. cbn [starLoop].
    rewrite (run_oneAccess name (memberChain path) _ _ x); [done | done | |].
    + apply memberChain_head.
    + assert ((length (memberChain path)
               <? length ("."%char :: list_ascii_of_string name ++ memberChain path)) = true)
        as -> by (apply Nat.ltb_lt; simpl; rewrite length_app; lia).
      apply IH; [done |]. simpl in Hfuel. rewrite length_app in Hfuel. lia.
Qed.

End ChainFacts2.

Section Patterns.
Context {R : Type}.
Implicit Types (k : list ascii → option (list ascii) → option R).

Lemma run_Empty s cap k : Regex.run Regex.Empty s cap k = k s cap.
Proof. reflexivity. Qed.

Lemma run_Group1 (r1 : Regex.regex) s cap k :
  Regex.run (Regex.Group1 r1) s cap k
  = Regex.run r1 s cap (λ s' _, k s' (Some (take (length s - length s') s))).
Proof. reflexivity. Qed.

(** The classic pattern needs an opening parenthesis. *)
Lemma classic_needs_paren (s : list ascii) cap k :
  Forall (λ c, Ascii.eqb "(" c = false) s →
  Regex.run Regex.classic s cap k = None.
Proof.
  intros Hs. unfold Regex.classic. cbn [Regex.seqs].
  rewrite run_Seq. apply run_none. intros s1 cap1 Hs1.
  rewrite run_Seq. apply run_none. intros s2 cap2 Hs2.
  rewrite run_Seq. unfold Regex.Chr at 1. apply run_Class_fail.
  destruct s2 as [| c s2]; [done |].
  assert (c ∈ s) as Hc.
  { destruct Hs2 as [pre2 ->]. destruct Hs1 as [pre1 ->].
    apply elem_of_app. right. apply elem_of_app. right. apply list_elem_of_here. }
  by apply (proj1 (Forall_forall _ _) Hs).
Qed.

End Patterns.

Lemma memberChain_no_paren (path : list string) :
  Forall (λ name, identifierText name = true) path →
  Forall (λ c, Ascii.eqb "(" c = false) (memberChain path).
Proof.
  induction 1 as [| name path (c & w & Hname & Hc & Hw)%identifierText_chars _ IH];
    [constructor |].
  change (memberChain (name :: path))
    with ("."%char :: list_ascii_of_string name ++ memberChain path).
  rewrite Hname. constructor; [reflexivity |]. constructor; [by apply ident_not_paren |].
  apply Forall_app. split; [| done].
  eapply Forall_impl; [exact Hw |]. apply ident_not_paren.
Qed.

Lemma arrow_exec (parameter object name : string) (path : list string) :
  identifierText parameter = true →
  identifierText object = true →
  Forall (λ name, identifierText name = true) (name :: path) →
  let source := parameter +:+ " => " +:+ object +:+ "." +:+ JsString.join "." (name :: path) in
  Regex.exec Regex.classic source = None
  ∧ Regex.exec Regex.arrow source = Some (Some ("." +:+ JsString.join "." (name :: path))).
Proof.
  intros Hparameter Hobject Hpath source.
  assert (list_ascii_of_string source
          = list_ascii_of_string parameter
            ++ [" "; "="; ">"; " "]%char
            ++ list_ascii_of_string object ++ memberChain (name :: path)) as Hsource.
  { unfold source. rewrite memberChain_join, !list_ascii_of_string_app. reflexivity. }
  destruct (identifierText_chars _ Hparameter) as (p0 & pw & Hp & Hp0 & Hpw).
  destruct (identifierText_chars _ Hobject) as (o0 & ow & Ho & Ho0 & How).
  apply Forall_cons in Hpath as Hpath'. destruct Hpath' as [Hname Hrest].
  unfold Regex.exec. rewrite Hsource, Hp, Ho. split.
  - apply classic_needs_paren.
    apply Forall_app. split.
    { constructor; [by apply ident_not_paren |].
      eapply Forall_impl; [exact Hpw |]. apply ident_not_paren. }
    apply Forall_app. split; [repeat constructor |].
    apply Forall_app. split; [| by apply memberChain_no_paren].
    constructor; [by apply ident_not_paren |].
    eapply Forall_impl; [exact How |]. apply ident_not_paren.
  - unfold Regex.arrow. cbn [Regex.seqs app].
    rewrite run_Seq. unfold Regex.Chr at 1. rewrite run_Opt_skip by (by apply ident_not_paren).
    rewrite run_Seq. apply run_plus_class; [reflexivity | done | done |].
    rewrite run_Seq. unfold Regex.Chr at 1. rewrite run_Opt_skip by reflexivity.
    rewrite run_Seq.
    apply (run_star_class Regex.space _ _ [" "%char]); [reflexivity | by repeat constructor |].
    rewrite run_Seq. cbn [Regex.Lit]. unfold Regex.Chr at 1 2.
    rewrite run_Seq, run_Class_pass by reflexivity.
    rewrite run_Seq, run_Class_pass by reflexivity.
    rewrite run_Empty, run_Seq.
    apply (run_star_class Regex.space _ _ [" "%char]);
      [by apply ident_not_space | by repeat constructor |].
    rewrite run_Seq. apply run_plus_class; [apply memberChain_head | done | done |].
    rewrite run_Seq.
    change Regex.accessChain with (Regex.Group1 (Regex.Plus oneAccess)).
    rewrite run_Group1. unfold Regex.Plus. rewrite run_Seq.
    change (memberChain (name :: path))
      with ("."%char :: list_ascii_of_string name ++ memberChain path) at 1.
    apply run_oneAccess; [done | apply memberChain_head |].
    rewrite run_Star. apply starLoop_memberChain; [| done | done].
    intros cap. rewrite run_Empty. rewrite Nat.sub_0_r, firstn_all.
    rewrite memberChain_join. simpl. by rewrite string_of_list_ascii_of_string.
Qed.

(** X26. An arrow function [p => o.a.b] and so on, with one space on
    each side of the arrow and a parameter, an object and member names of
    identifier characters, is an accessor [parsePropertyName] recognizes,
    for every such name and every length of the path: the property name is
    the path after the object with its leading dot removed, and the
    expression is what the parser makes of that path. The pattern does not
    compare the object with the parameter, so the two need not be the same
    name. *)
Theorem arrow_accessor_resolves (parser : IExpressionParser)
    (parameter object name : string) (path : list string) :
  identifierText parameter = true →
  identifierText object = true →
  Forall (λ name, identifierText name = true) (name :: path) →
  parsePropertyName
    (ArgFunction (parameter +:+ " => " +:+ object +:+ "."
                  +:+ JsString.join "." (name :: path))) parser
  = match parseProperty parser (JsString.join "." (name :: path)) with
    | Normal expression => Normal (JsString.join "." (name :: path), expression)
    | Throw e => Throw e
    end.
Proof.
  intros Hparameter Hobject Hpath.
  destruct (arrow_exec parameter object name path Hparameter Hobject Hpath) as [Hclassic Harrow].
  apply (parsePropertyName_recognized _ ("." +:+ JsString.join "." (name :: path))).
  unfold matchAccessor. by rewrite Hclassic, Harrow.
Qed.

Lemma arrow_accessor_resolves_witness :
  parsePropertyName (ArgFunction ("x" +:+ " => " +:+ "y" +:+ "." +:+ JsString.join "." ["a"; "b"]))
    MiniParser.parser
  = match parseProperty MiniParser.parser (JsString.join "." ["a"; "b"]) with
    | Normal expression => Normal (JsString.join "." ["a"; "b"], expression)
    | Throw e => Throw e
    end.
Proof.
  apply (arrow_accessor_resolves MiniParser.parser "x" "y" "a" ["b"]).
  - reflexivity.
  - reflexivity.
  - repeat constructor.
Defined.
